(** * Event history and versioning of Waidrin ([lib/state.ts])

    A shallow embedding of the event log, the history store and the
    operations of [lib/state.ts] that keep both in step, with the
    properties of the specification proved on it.

    Conventions of the embedding.
    - A JavaScript [number] used as a position, a version index, a page or a
      page size is an integer and is a [Z]; the source never builds a
      fractional one.
    - An object used as a dictionary ([eventHistory]) is a [gmap] with
      [string] keys: the keys are what [String(eventIndex)] prints and what
      [Number.parseInt(histKey, 10)] reads back, and both are embedded.
    - An array is a list; [state.events] has [option] cells, because a write
      past the end leaves holes, which read as [undefined].
    - Text is a [string] that holds the bytes of its UTF-8 encoding.
    - A call that may throw returns a [Res]. *)

From Stdlib Require Import ZArith Lia Ascii String DecimalString DecimalZ DecimalPos.
From stdpp Require Import base option list gmap strings fin_maps.

Local Open Scope Z_scope.

(** ** JavaScript primitives used by [lib/state.ts] *)

Module JS.

(** What a call can throw. *)
Inductive Exn : Type :=
| TypeError (msg : string)
| Error (msg : string).

(** Outcome of a call: a value, or an exception on its way to the caller. *)
Inductive Res (A : Type) : Type :=
| Ok (a : A)
| Thrown (e : Exn).

Arguments Ok {A} a.
Arguments Thrown {A} e.

(** [String(n)] for an integer [n]: decimal digits, [-] in front of a
    negative one, no exponent (the source prints indices only). *)
Definition String_ (n : Z) : string :=
  NilZero.string_of_int (Z.to_int n).

(** Text is held as the bytes of its UTF-8 encoding, which is what a string
    literal of this file is. The white space of JavaScript ([WhiteSpace] and
    [LineTerminator], the characters that [parseInt] skips and [trim]
    strips) then takes one, two or three bytes. *)

(** One byte: TAB, LF, VT, FF, CR, SP. *)
Definition isWhiteSpace (c : ascii) : bool :=
  let n := nat_of_ascii c in
  ((9 <=? n) && (n <=? 13))%nat || (n =? 32)%nat.

(** Two bytes: U+00A0 (no-break space), [C2 A0]. *)
Definition isWhiteSpace2 (c0 c1 : ascii) : bool :=
  ((nat_of_ascii c0 =? 194) && (nat_of_ascii c1 =? 160))%nat.

(** Three bytes: U+1680 [E1 9A 80]; U+2000 to U+200A [E2 80 80] to
    [E2 80 8A]; U+2028, U+2029 and U+202F [E2 80 A8], [E2 80 A9] and
    [E2 80 AF]; U+205F [E2 81 9F]; U+3000 [E3 80 80]; U+FEFF [EF BB BF]. *)
Definition isWhiteSpace3 (c0 c1 c2 : ascii) : bool :=
  let b0 := nat_of_ascii c0 in
  let b1 := nat_of_ascii c1 in
  let b2 := nat_of_ascii c2 in
  ((b0 =? 225) && (b1 =? 154) && (b2 =? 128)
   || (b0 =? 226) && (b1 =? 128)
      && ((128 <=? b2) && (b2 <=? 138) || (b2 =? 168) || (b2 =? 169) || (b2 =? 175))
   || (b0 =? 226) && (b1 =? 129) && (b2 =? 159)
   || (b0 =? 227) && (b1 =? 128) && (b2 =? 128)
   || (b0 =? 239) && (b1 =? 187) && (b2 =? 191))%nat.

(** Value of a decimal digit, [None] for any other character. *)
Definition digitValue (c : ascii) : option Z :=
  let n := nat_of_ascii c in
  if ((48 <=? n) && (n <=? 57))%nat then Some (Z.of_nat n - 48) else None.

(** The text after its leading white space. *)
Fixpoint skipWhiteSpace (s : string) : string :=
  match s with
  | String c0 s1 =>
      if isWhiteSpace c0 then skipWhiteSpace s1
      else
        match s1 with
        | String c1 s2 =>
            if isWhiteSpace2 c0 c1 then skipWhiteSpace s2
            else
              match s2 with
              | String c2 s3 => if isWhiteSpace3 c0 c1 c2 then skipWhiteSpace s3 else s
              | EmptyString => s
              end
        | EmptyString => s
        end
  | EmptyString => s
  end.

(** The longest prefix of decimal digits, read most significant first. *)
Fixpoint parseDigits (s : string) (acc : Z) : Z :=
  match s with
  | String c s' =>
      match digitValue c with
      | Some d => parseDigits s' (10 * acc + d)
      | None => acc
      end
  | EmptyString => acc
  end.

(** The digits after the sign: [NaN] ([None]) when there is none. *)
Definition parseUnsigned (s : string) : option Z :=
  match s with
  | String c _ =>
      match digitValue c with
      | Some _ => Some (parseDigits s 0)
      | None => None
      end
  | EmptyString => None
  end.

(** [Number.parseInt(s, 10)]: leading white space is dropped, then an
    optional sign, then the longest run of digits; what follows the digits
    is ignored; [None] stands for [NaN]. The value is the integer that the
    digits write, which is the number JavaScript returns as long as it is
    a safe integer (below [2^53] in absolute value); a longer run of digits
    is rounded there, and is [Infinity] from some 309 digits on. *)
Definition parseInt10 (s : string) : option Z :=
  match skipWhiteSpace s with
  | String "-"%char s' => Z.opp <$> parseUnsigned s'
  | String "+"%char s' => parseUnsigned s'
  | s' => parseUnsigned s'
  end.

(** [arr[i]]: [undefined] ([None]) outside the array and in a hole. *)
Definition read {A : Type} (arr : list (option A)) (i : Z) : option A :=
  if i <? 0 then None else mjoin (arr !! Z.to_nat i).

(** [arr[i] = v]. Inside the array the cell is overwritten. Past the end
    the array grows to length [i + 1] and the cells in between are holes.
    A negative [i] names an ordinary property, not a cell: length and cells
    stay as they are (the property itself is not part of this model; no
    operation writes at a negative position in a state that satisfies the
    invariant of the history store). *)
Definition write {A : Type} (arr : list (option A)) (i : Z) (v : A) : list (option A) :=
  if i <? 0 then arr
  else if i <? Z.of_nat (length arr) then <[Z.to_nat i := Some v]> arr
  else arr ++ replicate (Z.to_nat i - length arr) None ++ [Some v].

(** A relative index of [slice] and [splice], brought into [0 .. len]:
    a negative one counts from the end. *)
Definition relativeIndex (len i : Z) : Z :=
  if i <? 0 then Z.max (len + i) 0 else Z.min i len.

(** [arr.splice(start, 1)], the array that is left. *)
Definition splice1 {A : Type} (arr : list A) (start : Z) : list A :=
  let k := Z.to_nat (relativeIndex (Z.of_nat (length arr)) start) in
  take k arr ++ drop (S k) arr.

(** [arr.slice(start, end)]. *)
Definition slice {A : Type} (arr : list A) (start end_ : Z) : list A :=
  let len := Z.of_nat (length arr) in
  let k := relativeIndex len start in
  let final := relativeIndex len end_ in
  take (Z.to_nat (final - k)) (drop (Z.to_nat k) arr).

(** A [number] that need not be finite. *)
Inductive Num : Type :=
| Finite (z : Z)
| Infinity
| NaN.

(** [Math.ceil(a / b)] for integers [a >= 0] and [b]. The quotient of two
    integers below 2^53 is either an integer, which a double holds exactly,
    or at least [1/b] away from one, more than the rounding error of the
    division; so the rounded quotient has the ceiling of the exact one.
    [a / 0] is [Infinity], and [0 / 0] is [NaN]. *)
Definition Math_ceil_div (a b : Z) : Num :=
  if b =? 0 then (if a =? 0 then NaN else Infinity)
  else Finite (- ((- a) / b)).

(** [Math.max(a, b)] on integers. *)
Definition Math_max (a b : Z) : Z := Z.max a b.

(** [s.trimEnd()]: the text up to its trailing white space. What is left of
    the text at a character is dropped when it is white space only. *)
Fixpoint trimEnd (s : string) : string :=
  match s with
  | EmptyString => EmptyString
  | String c s' =>
      if String.eqb (skipWhiteSpace s) EmptyString then EmptyString
      else String c (trimEnd s')
  end.

(** [s.trim()]: white space is dropped at both ends. *)
Definition trim (s : string) : string := trimEnd (skipWhiteSpace s).

(** [n - 1] for a number that need not be finite. *)
Definition Num_pred (n : Num) : Num :=
  match n with
  | Finite z => Finite (z - 1)
  | Infinity => Infinity
  | NaN => NaN
  end.

(** [a < n], [a >= n] and [n <= a] for an integer [a]: every comparison
    with [NaN] is false. *)
Definition Num_lt (a : Z) (n : Num) : bool :=
  match n with
  | Finite z => a <? z
  | Infinity => true
  | NaN => false
  end.

Definition Num_ge (a : Z) (n : Num) : bool :=
  match n with
  | Finite z => z <=? a
  | Infinity => false
  | NaN => false
  end.

Definition Num_le (n : Num) (a : Z) : bool :=
  match n with
  | Finite z => z <=? a
  | Infinity => false
  | NaN => false
  end.

End JS.

(** ** Data model ([lib/state.ts], types inferred from [lib/schemas.ts]) *)

Section History.

(** The payloads of the three event kinds that the history operations never
    look into, and the fields of [State] that they never touch ([apiUrl] ..
    [actions], with [plugins], [backends] and [activeBackend] of the stored
    state). Their schemas are declared in [lib/schemas.ts]. *)
Variables NarrationEvent CharacterIntroductionEvent LocationChangeEvent : Type.
Variable Others : Type.

(** [{ type: "action", action: string }] *)
Record ActionEvent : Type := { action : string }.

(** The union [Event], one constructor per value of its [type] tag. *)
Inductive Event : Type :=
| Action (e : ActionEvent)
| Narration (e : NarrationEvent)
| CharacterIntroduction (e : CharacterIntroductionEvent)
| LocationChange (e : LocationChangeEvent).

(** [event.type === "action"] *)
Definition isAction (e : Event) : bool :=
  match e with
  | Action _ => true
  | _ => false
  end.

(** How a version came about: ["edit" | "regenerate"]. *)
Inductive VersionType : Type := edit | regenerate.

Record EventHistoryEntry : Type := {
  event : Event;
  timestamp : Z;
  type : VersionType
}.

Record EventHistory : Type := {
  entries : list EventHistoryEntry;
  currentVersionIndex : Z
}.

Record HistoryPagination : Type := {
  pg_eventIndex : Z;
  pg_page : Z;
  pg_pageSize : Z
}.

(** [State]. [eventHistory] is optional in a stored state: every operation
    tests it before use. *)
Record State : Type := {
  others : Others;
  events : list (option Event);
  eventHistory : option (gmap string EventHistory);
  historyPagination : option HistoryPagination
}.

(** The history store as a mapping: an absent [eventHistory] holds no
    history, like an empty one. *)
Definition historyStore (state : State) : gmap string EventHistory :=
  default ∅ (eventHistory state).

(** [state.eventHistory?.[String(eventIndex)]] *)
Definition historyAt (state : State) (eventIndex : Z) : option EventHistory :=
  historyStore state !! JS.String_ eventIndex.

(** ** History operations

    Each operation below is the recipe that the source hands to
    [getState().set], preceded by the guard in front of it. [set] runs the
    recipe on an Immer draft of the stored state and stores the result; a
    recipe that throws leaves the stored state as it was. So an operation
    maps the stored state before the call to [Ok] of the stored state after
    it, or to the exception. [Date.now()] is an argument. *)

(** The draft once a recipe has put [history] under [key] and made the log
    [events_]; nothing else of the state is written. *)
Definition withHistory (state : State) (key : string) (history : EventHistory)
    (events_ : list (option Event)) : State :=
  {| others := others state;
     events := events_;
     eventHistory := Some (<[key := history]> (historyStore state));
     historyPagination := historyPagination state |}.

(** The version that seeds a history: a copy of the event as it stands. *)
Definition seedEntry (now : Z) (event_ : Event) : EventHistoryEntry :=
  {| event := event_;
     timestamp := now;
     type := if isAction event_ then edit else regenerate |}.

(** The statements shared by the recipes of [ensureEventHistory] (lines
    175-193) and [addEventHistoryVersion] (lines 205-224): make
    [eventHistory] an object, and if it has nothing under the key and an
    event stands at [eventIndex], start a history from that event. *)
Definition initHistory (now eventIndex : Z) (state : State) : State :=
  let key := JS.String_ eventIndex in
  let eventHistory0 :=
    match eventHistory state with
    | Some m => m
    | None => ∅
    end in
  let eventHistory1 :=
    match eventHistory0 !! key with
    | Some _ => eventHistory0
    | None =>
        match JS.read (events state) eventIndex with
        | Some event_ =>
            <[key := {| entries := [seedEntry now event_];
                        currentVersionIndex := 0 |}]> eventHistory0
        | None => eventHistory0
        end
    end in
  {| others := others state;
     events := events state;
     eventHistory := Some eventHistory1;
     historyPagination := historyPagination state |}.

(** [ensureEventHistory(eventIndex)] *)
Definition ensureEventHistory (now eventIndex : Z) (state : State) : JS.Res State :=
  if eventIndex <? 0 then JS.Ok state
  else JS.Ok (initHistory now eventIndex state).

(** [addEventHistoryVersion(eventIndex, newEvent, type)]; [seedTime] is the
    clock when the history is started, [now] the clock when the version is
    pushed. *)
Definition addEventHistoryVersion (seedTime now eventIndex : Z) (newEvent : Event)
    (type_ : VersionType) (state : State) : JS.Res State :=
  if eventIndex <? 0 then JS.Ok state
  else
    let state1 := initHistory seedTime eventIndex state in
    let key := JS.String_ eventIndex in
    match historyStore state1 !! key with
    | Some history =>
        let entries1 :=
          entries history ++ [{| event := newEvent; timestamp := now; type := type_ |}] in
        let history1 :=
          {| entries := entries1;
             currentVersionIndex := Z.of_nat (length entries1) - 1 |} in
        JS.Ok (withHistory state1 key history1 (JS.write (events state1) eventIndex newEvent))
    | None => JS.Ok state1
    end.

(** [selectEventHistoryVersion(eventIndex, versionIndex)] *)
Definition selectEventHistoryVersion (eventIndex versionIndex : Z) (state : State)
    : JS.Res State :=
  let key := JS.String_ eventIndex in
  match historyStore state !! key with
  | Some history =>
      if (0 <=? versionIndex) && (versionIndex <? Z.of_nat (length (entries history)))
      then
        match entries history !! Z.to_nat versionIndex with
        | Some entry =>
            let history1 :=
              {| entries := entries history; currentVersionIndex := versionIndex |} in
            JS.Ok (withHistory state key history1
                     (JS.write (events state) eventIndex (event entry)))
        | None => JS.Thrown (JS.TypeError "Cannot read properties of undefined (reading 'event')")
        end
      else JS.Ok state
  | None => JS.Ok state
  end.

(** [deleteEventHistoryVersion(eventIndex, versionIndex)] *)
Definition deleteEventHistoryVersion (eventIndex versionIndex : Z) (state : State)
    : JS.Res State :=
  let key := JS.String_ eventIndex in
  match historyStore state !! key with
  | None => JS.Ok state
  | Some history =>
      if (versionIndex <? 0) || (Z.of_nat (length (entries history)) <=? versionIndex)
      then JS.Ok state
      else if Z.of_nat (length (entries history)) <=? 1
      then JS.Ok state
      else
        let wasCurrent := currentVersionIndex history =? versionIndex in
        let wasBeforeCurrent := versionIndex <? currentVersionIndex history in
        let entries1 := JS.splice1 (entries history) versionIndex in
        if wasCurrent then
          let current := JS.Math_max 0 (versionIndex - 1) in
          match entries1 !! Z.to_nat current with
          | Some entry =>
              JS.Ok (withHistory state key
                       {| entries := entries1; currentVersionIndex := current |}
                       (JS.write (events state) eventIndex (event entry)))
          | None => JS.Thrown (JS.TypeError "Cannot read properties of undefined (reading 'event')")
          end
        else
          let current :=
            if wasBeforeCurrent then currentVersionIndex history - 1
            else currentVersionIndex history in
          JS.Ok (withHistory state key
                   {| entries := entries1; currentVersionIndex := current |}
                   (events state))
  end.

(** One turn of the loop over [Object.entries(state.eventHistory)] in
    [deleteEvent]: where the history under [histKey] goes in [newHistory]. *)
Definition rekey (eventIndex : Z) (histKey : string) (histValue : EventHistory)
    (newHistory : gmap string EventHistory) : gmap string EventHistory :=
  match JS.parseInt10 histKey with
  | Some histIndex =>
      if eventIndex <? histIndex
      then <[JS.String_ (histIndex - 1) := histValue]> newHistory
      else if histIndex <? eventIndex
      then <[histKey := histValue]> newHistory
      else newHistory
  | None => newHistory
  end.

(** The loop of [deleteEvent] over the entries as [Object.entries] lists
    them, first to last. *)
Definition rekeyLoop (eventIndex : Z) (histories : list (string * EventHistory))
    : gmap string EventHistory :=
  foldl (λ newHistory entry, uncurry (rekey eventIndex) entry newHistory) ∅ histories.

(** [deleteEvent(eventIndex)]. The loop is taken as the fold of the map. The
    order in which [Object.entries] lists the entries decides the result only
    when two keys are sent to the same new key, which keys printed by
    [String] never are: [rekeyLoop_any_order] below shows that every order
    gives the store of the fold. For a store with other keys, which none of
    the operations writes, the fold is the loop for one order of listing;
    what is said of such a store is said of [rekeyLoop] for every order. *)
Definition deleteEvent (eventIndex : Z) (state : State) : JS.Res State :=
  if eventIndex <? 0 then JS.Ok state
  else
    let events1 := JS.splice1 (events state) eventIndex in
    let key := JS.String_ eventIndex in
    let eventHistory1 :=
      match eventHistory state with
      | Some m =>
          match m !! key with
          | Some _ => Some (delete key m)
          | None => Some m
          end
      | None => None
      end in
    let eventHistory2 :=
      match eventHistory1 with
      | Some m => Some (map_fold (rekey eventIndex) ∅ m)
      | None => None
      end in
    JS.Ok {| others := others state;
             events := events1;
             eventHistory := eventHistory2;
             historyPagination := historyPagination state |}.

(** ** Pagination helpers: they read the stored state and return a value *)

(** The page size of a call that leaves it out. *)
Definition defaultPageSize : Z := 5.

(** [getEventHistoryPage(eventIndex, page, pageSize)] *)
Definition getEventHistoryPage (eventIndex page pageSize : Z) (state : State)
    : list EventHistoryEntry :=
  match historyAt state eventIndex with
  | None => []
  | Some history =>
      let start := page * pageSize in
      let end_ := start + pageSize in
      JS.slice (entries history) start end_
  end.

(** [getEventHistoryPageCount(eventIndex, pageSize)] *)
Definition getEventHistoryPageCount (eventIndex pageSize : Z) (state : State) : JS.Num :=
  match historyAt state eventIndex with
  | None => JS.Finite 0
  | Some history => JS.Math_ceil_div (Z.of_nat (length (entries history))) pageSize
  end.

(** ** [setAsync]: one update step on a draft of the stored state *)

(** What an updater does between the moment [setAsync] hands it the draft
    and the moment its promise settles: it writes the draft, reads the draft
    and the stored state, writes the stored state itself through [set] (the
    engine shows progress that way), and awaits; it ends by resolving or by
    throwing. *)
Inductive Updater : Type :=
| Resolve
| Reject (error : JS.Exn)
| Mutate (f : State → State) (rest : Updater)
| Inspect (rest : State → State → Updater)
| Publish (f : State → State → State) (rest : Updater)
| Await (rest : Updater).

(** The run of an updater from a draft and a stored state. While the updater
    awaits, code outside the step may call [set]: [outside] lists what those
    calls make of the stored state, one per [Await] (the mutex keeps other
    calls of [setAsync] out, not calls of [set]). The result is the outcome,
    with the draft as the updater left it, and the stored state then. *)
Fixpoint runUpdater (updater : Updater) (outside : list (State → State))
    (draft stored : State) : JS.Res State * State :=
  match updater with
  | Resolve => (JS.Ok draft, stored)
  | Reject error => (JS.Thrown error, stored)
  | Mutate f rest => runUpdater rest outside (f draft) stored
  | Inspect rest => runUpdater (rest draft stored) outside draft stored
  | Publish f rest => runUpdater rest outside draft (f draft stored)
  | Await rest =>
      match outside with
      | [] => runUpdater rest [] draft stored
      | g :: outside' => runUpdater rest outside' draft (g stored)
      end
  end.

(** [setAsync(updater)], inside [runExclusive]: the outcome for the caller
    and the stored state afterwards. [set(state)] and [set(newState)] store
    a whole state, so merging it into the stored one replaces every field. *)
Definition setAsync (updater : Updater) (outside : list (State → State))
    (stored : State) : JS.Res unit * State :=
  let state := stored in
  let draft := state in
  match runUpdater updater outside draft stored with
  | (JS.Thrown error, _) => (JS.Thrown error, state)
  | (JS.Ok newState, _) => (JS.Ok tt, newState)
  end.

(** ** Invariants of the history store *)

(** [0 <= currentVersionIndex < entries.length] *)
Definition versionInRange (history : EventHistory) : Prop :=
  0 <= currentVersionIndex history < Z.of_nat (length (entries history)).

(** [entries[currentVersionIndex].event] is the event of the log at
    [eventIndex]. *)
Definition mirrorsLog (state : State) (eventIndex : Z) (history : EventHistory) : Prop :=
  ∃ entry,
    entries history !! Z.to_nat (currentVersionIndex history) = Some entry ∧
    JS.read (events state) eventIndex = Some (event entry).

(** Every key of the store is a printed position. *)
Definition keysArePositions (state : State) : Prop :=
  ∀ key history, historyStore state !! key = Some history →
    ∃ eventIndex, key = JS.String_ eventIndex.

(** The log and the current versions agree. *)
Definition consistent (state : State) : Prop :=
  keysArePositions state ∧
  ∀ eventIndex history, historyAt state eventIndex = Some history →
    versionInRange history ∧ mirrorsLog state eventIndex history.

(** No history is empty. *)
Definition historiesNonEmpty (state : State) : Prop :=
  ∀ key history, historyStore state !! key = Some history →
    (1 <= length (entries history))%nat.

(** The call returns, and the stored state it leaves satisfies [P]. *)
Definition completesWith (r : JS.Res State) (P : State → Prop) : Prop :=
  ∃ state', r = JS.Ok state' ∧ P state'.

(** A call of one of the five operations that write the log or the store,
    with its arguments and the clock readings it makes. *)
Inductive Operation : Type :=
| EnsureHistory (now eventIndex : Z)
| AddVersion (seedTime now eventIndex : Z) (newEvent : Event) (type_ : VersionType)
| SelectVersion (eventIndex versionIndex : Z)
| DeleteVersion (eventIndex versionIndex : Z)
| DeleteEvent (eventIndex : Z).

Definition perform (op : Operation) (state : State) : JS.Res State :=
  match op with
  | EnsureHistory now eventIndex => ensureEventHistory now eventIndex state
  | AddVersion seedTime now eventIndex newEvent type_ =>
      addEventHistoryVersion seedTime now eventIndex newEvent type_ state
  | SelectVersion eventIndex versionIndex =>
      selectEventHistoryVersion eventIndex versionIndex state
  | DeleteVersion eventIndex versionIndex =>
      deleteEventHistoryVersion eventIndex versionIndex state
  | DeleteEvent eventIndex => deleteEvent eventIndex state
  end.

(** The states that calls of the five operations lead to from [init]. *)
Inductive reachable (init : State) : State → Prop :=
| reachable_init : reachable init init
| reachable_step (op : Operation) (state state' : State) :
    reachable init state → perform op state = JS.Ok state' → reachable init state'.

(** ** States used in examples *)

Definition actionEvent (text : string) : Event := Action {| action := text |}.

(** A log of one action, no history yet. *)
Definition freshState (o : Others) : State :=
  {| others := o;
     events := [Some (actionEvent "go north")];
     eventHistory := Some ∅;
     historyPagination := None |}.

(** A log of three actions; the second one was edited twice, and its
    second version is the current one. *)
Definition editedState (o : Others) : State :=
  {| others := o;
     events := [Some (actionEvent "go north");
                Some (actionEvent "go east");
                Some (actionEvent "rest")];
     eventHistory :=
       Some {[ JS.String_ 1 :=
                 {| entries := [ {| event := actionEvent "go west"; timestamp := 10; type := edit |};
                                 {| event := actionEvent "go east"; timestamp := 20; type := edit |};
                                 {| event := actionEvent "go south"; timestamp := 30; type := edit |} ];
                    currentVersionIndex := 1 |} ]};
     historyPagination := None |}.

(** The same log and history with the last version current, and the log
    showing it. *)
Definition latestState (o : Others) : State :=
  {| others := o;
     events := [Some (actionEvent "go north");
                Some (actionEvent "go south");
                Some (actionEvent "rest")];
     eventHistory :=
       Some {[ JS.String_ 1 :=
                 {| entries := [ {| event := actionEvent "go west"; timestamp := 10; type := edit |};
                                 {| event := actionEvent "go east"; timestamp := 20; type := edit |};
                                 {| event := actionEvent "go south"; timestamp := 30; type := edit |} ];
                    currentVersionIndex := 2 |} ]};
     historyPagination := None |}.

(** A state that no call leads to: a history keyed at [-1]. *)
Definition strayState (o : Others) : State :=
  {| others := o;
     events := [Some (actionEvent "go north")];
     eventHistory :=
       Some {[ JS.String_ (-1) :=
                 {| entries := [ {| event := actionEvent "go west"; timestamp := 10; type := edit |};
                                 {| event := actionEvent "go east"; timestamp := 20; type := edit |} ];
                    currentVersionIndex := 1 |} ]};
     historyPagination := None |}.

(** [n] versions of one action, the oldest first. *)
Definition versions (n : nat) : list EventHistoryEntry :=
  (λ i, {| event := actionEvent "wait"; timestamp := Z.of_nat i; type := edit |}) <$> seq 0 n.

(** A history of [n] versions with the version at [current] shown in the
    log, which holds that one event. *)
Definition versionedState (o : Others) (n : nat) (current : Z) : State :=
  {| others := o;
     events := [Some (actionEvent "wait")];
     eventHistory :=
       Some {[ JS.String_ 0 := {| entries := versions n; currentVersionIndex := current |} ]};
     historyPagination := None |}.

(** A log of five actions with histories of one version at the positions
    1, 2 and 4. *)
Definition sparseState (o : Others) : State :=
  let single (text : string) : EventHistory :=
    {| entries := [seedEntry 0 (actionEvent text)]; currentVersionIndex := 0 |} in
  {| others := o;
     events := [Some (actionEvent "a"); Some (actionEvent "b"); Some (actionEvent "c");
                Some (actionEvent "d"); Some (actionEvent "e")];
     eventHistory :=
       Some (<[JS.String_ 1 := single "b"]>
               (<[JS.String_ 2 := single "c"]>
                  (<[JS.String_ 4 := single "e"]> ∅)));
     historyPagination := None |}.

(** An update step that clears the log in the draft, shows the draft in the
    store, awaits, and fails. *)
Definition failingUpdater : Updater :=
  Mutate (λ draft, {| others := others draft;
                      events := [];
                      eventHistory := eventHistory draft;
                      historyPagination := historyPagination draft |})
    (Publish (λ draft _, draft)
       (Await (Reject (JS.Error "generation failed")))).

(** What [setHistoryPagination(0, 0, 5)] makes of the stored state, called
    from the history viewer while that step awaits. *)
Definition openViewer (stored : State) : State :=
  {| others := others stored;
     events := events stored;
     eventHistory := eventHistory stored;
     historyPagination := Some {| pg_eventIndex := 0; pg_page := 0; pg_pageSize := 5 |} |}.

(** ** The pagination state ([lib/state.ts], lines 320-337) *)

(** [setHistoryPagination(eventIndex, page, pageSize)] *)
Definition setHistoryPagination (eventIndex page pageSize : Z) (state : State)
    : JS.Res State :=
  JS.Ok {| others := others state;
           events := events state;
           eventHistory := eventHistory state;
           historyPagination :=
             Some {| pg_eventIndex := eventIndex; pg_page := page; pg_pageSize := pageSize |} |}.

(** [clearHistoryPagination()] *)
Definition clearHistoryPagination (state : State) : JS.Res State :=
  JS.Ok {| others := others state;
           events := events state;
           eventHistory := eventHistory state;
           historyPagination := None |}.

(** ** The history viewer ([components/EventHistoryViewer.tsx])

    The component is mounted for one [eventIndex] and keeps the open page in
    its own state. A handler is modelled by what it makes of that page and
    of the stored state; the callbacks [onSelectVersion] and [onClose] of
    the parent only close the dialog. What the component read while
    rendering ([history], [totalPages], [pageEntries]) is read from the
    stored state the handler starts from. *)

(** [const pageSize = 5] *)
Definition viewerPageSize : Z := 5.

(** [page * pageSize + entryIndex], the version behind a row of the page. *)
Definition actualVersionIndex (page entryIndex : Z) : Z :=
  page * viewerPageSize + entryIndex.

(** The rows of the open page: [getEventHistoryPage(eventIndex, page, pageSize)]. *)
Definition pageEntries (eventIndex page : Z) (state : State) : list EventHistoryEntry :=
  getEventHistoryPage eventIndex page viewerPageSize state.

(** [history.currentVersionIndex === actualVersionIndex], the mark of a row. *)
Definition isCurrent (history : EventHistory) (page entryIndex : Z) : bool :=
  currentVersionIndex history =? actualVersionIndex page entryIndex.

(** [history.entries.length > 1]: the condition under which a row has a
    delete button, and under which the event views show the history button
    ([hasMultipleVersions]). *)
Definition hasMultipleVersions (history : EventHistory) : bool :=
  1 <? Z.of_nat (length (entries history)).

(** [handlePrevious] *)
Definition handlePrevious (eventIndex page : Z) (state : State) : JS.Res (Z * State) :=
  if 0 <? page then
    let newPage := page - 1 in
    match setHistoryPagination eventIndex newPage viewerPageSize state with
    | JS.Ok state1 => JS.Ok (newPage, state1)
    | JS.Thrown e => JS.Thrown e
    end
  else JS.Ok (page, state).

(** [handleNext] *)
Definition handleNext (eventIndex page : Z) (state : State) : JS.Res (Z * State) :=
  let totalPages := getEventHistoryPageCount eventIndex viewerPageSize state in
  if JS.Num_lt page (JS.Num_pred totalPages) then
    let newPage := page + 1 in
    match setHistoryPagination eventIndex newPage viewerPageSize state with
    | JS.Ok state1 => JS.Ok (newPage, state1)
    | JS.Thrown e => JS.Thrown e
    end
  else JS.Ok (page, state).

(** [handleSelectVersion(_entry, entryIndex)] *)
Definition handleSelectVersion (eventIndex page entryIndex : Z) (state : State)
    : JS.Res State :=
  selectEventHistoryVersion eventIndex (actualVersionIndex page entryIndex) state.

(** [handleDeleteVersion(entryIndex)] *)
Definition handleDeleteVersion (eventIndex page entryIndex : Z) (state : State)
    : JS.Res (Z * State) :=
  match deleteEventHistoryVersion eventIndex (actualVersionIndex page entryIndex) state with
  | JS.Thrown e => JS.Thrown e
  | JS.Ok state1 =>
      match historyAt state1 eventIndex with
      | Some newHistory =>
          let newTotalPages :=
            JS.Math_ceil_div (Z.of_nat (length (entries newHistory))) viewerPageSize in
          if JS.Num_ge page newTotalPages && (0 <? page) then
            match setHistoryPagination eventIndex (page - 1) viewerPageSize state1 with
            | JS.Ok state2 => JS.Ok (page - 1, state2)
            | JS.Thrown e => JS.Thrown e
            end
          else JS.Ok (page, state1)
      | None => JS.Ok (page, state1)
      end
  end.

(** ** The pager ([components/HistoryPagination.tsx], lines 13-33) *)

(** [totalPages <= 1]: the pager renders nothing. *)
Definition pagerHidden (totalPages : JS.Num) : bool := JS.Num_le totalPages 1.

(** [disabled={currentPage === 0}] of the Previous button. *)
Definition previousDisabled (currentPage : Z) : bool := currentPage =? 0.

(** [disabled={currentPage >= totalPages - 1}] of the Next button. *)
Definition nextDisabled (currentPage : Z) (totalPages : JS.Num) : bool :=
  JS.Num_ge currentPage (JS.Num_pred totalPages).

(** ** The event views ([components/EventView.tsx], [ActionEventView.tsx],
    [NarrationEventView.tsx]); an [eventIndex] prop that may be left out is
    an [option]. *)

(** [validEventIndex] of [EventView]. *)
Definition validEventIndex (eventIndex : option Z) : option Z :=
  match eventIndex with
  | Some i => if 0 <=? i then Some i else None
  | None => None
  end.

(** [handleShowHistory] of both views: its call of the store. *)
Definition handleShowHistory (now : Z) (eventIndex : option Z) (state : State)
    : JS.Res State :=
  match eventIndex with
  | Some i => if 0 <=? i then ensureEventHistory now i state else JS.Ok state
  | None => JS.Ok state
  end.

(** [handleDelete] of both views. *)
Definition handleDelete (eventIndex : option Z) (state : State) : JS.Res State :=
  match eventIndex with
  | Some i => if 0 <=? i then deleteEvent i state else JS.Ok state
  | None => JS.Ok state
  end.

(** [handleSave] of [ActionEventView]: the text of the field, the event the
    view shows and its position; [ensureTime], [seedTime] and [now] are the
    three readings of the clock. An empty string is falsy. *)
Definition handleSave (ensureTime seedTime now : Z) (editText : string)
    (event_ : ActionEvent) (eventIndex : option Z) (state : State) : JS.Res State :=
  match eventIndex with
  | Some i =>
      if negb (String.eqb (JS.trim editText) EmptyString)
         && negb (String.eqb (JS.trim editText) (action event_))
         && (0 <=? i)
      then
        match ensureEventHistory ensureTime i state with
        | JS.Ok state1 =>
            addEventHistoryVersion seedTime now i
              (Action {| action := JS.trim editText |}) edit state1
        | JS.Thrown e => JS.Thrown e
        end
      else JS.Ok state
  | None => JS.Ok state
  end.

(** ** More to say about a state *)

(** The log has no holes. *)
Definition dense (state : State) : Prop :=
  ∀ i cell, events state !! i = Some cell → is_Some cell.

(** The position an operation is called with. *)
Definition positionOf (op : Operation) : Z :=
  match op with
  | EnsureHistory _ eventIndex => eventIndex
  | AddVersion _ _ eventIndex _ _ => eventIndex
  | SelectVersion eventIndex _ => eventIndex
  | DeleteVersion eventIndex _ => eventIndex
  | DeleteEvent eventIndex => eventIndex
  end.

(** [deleteEvent], the operation that moves events and histories. *)
Definition isDeleteEvent (op : Operation) : bool :=
  match op with
  | DeleteEvent _ => true
  | _ => false
  end.

(** [Number.isSafeInteger(i)] for an integer: below [2^53] in absolute
    value. *)
Definition safeInteger (i : Z) : Prop := - 2 ^ 53 < i < 2 ^ 53.

(** Every key of the store that reads as an integer reads as a safe one:
    [Number.parseInt] then returns the very integer that the key writes. *)
Definition keysReadSafely (state : State) : Prop :=
  ∀ key history i, historyStore state !! key = Some history →
    JS.parseInt10 key = Some i → safeInteger i.

(** No index of the range that a page asks for, from [page * pageSize] up
    to but not including [page * pageSize + pageSize], is a position of the
    entries: the requested range is out of range. *)
Definition pageOutOfRange (history : EventHistory) (page pageSize : Z) : Prop :=
  ∀ i, page * pageSize <= i < page * pageSize + pageSize →
       ¬ (0 <= i < Z.of_nat (length (entries history))).

(** The open page of the viewer shows at least one row. *)
Definition pageShown (eventIndex page : Z) (state : State) : Prop :=
  0 <= page ∧
  ∃ history, historyAt state eventIndex = Some history ∧
             page * viewerPageSize < Z.of_nat (length (entries history)).

(** A store with keys that are no printed positions: a word, a number with
    a unit, a number with a leading zero. *)
Definition oddKeysState (o : Others) : State :=
  let single (text : string) : EventHistory :=
    {| entries := [seedEntry 0 (actionEvent text)]; currentVersionIndex := 0 |} in
  {| others := o;
     events := [Some (actionEvent "a"); Some (actionEvent "b"); Some (actionEvent "c");
                Some (actionEvent "d")];
     eventHistory :=
       Some (<["draft" := single "a"]>
               (<["3px" := single "d"]>
                  (<["01" := single "b"]> ∅)));
     historyPagination := None |}.

(** U+00A0, the no-break space, and U+3000, the ideographic space, by the
    bytes of their encoding. *)
Definition noBreakSpace : string := String "194" (String "160" "").
Definition ideographicSpace : string := String "227" (String "128" (String "128" "")).

(** * Properties *)

(** ** Printing and reading back a position *)

(** Evaluates [digitValue] at a character that is known. *)
Ltac eval_digit :=
  repeat match goal with
  | |- context [JS.digitValue ?c] =>
      let v := eval vm_compute in (JS.digitValue c) in
      change (JS.digitValue c) with v
  end; cbv beta iota.

Lemma parseDigits_of_uint_acc (d : Decimal.uint) (acc : positive) :
  JS.parseDigits (NilEmpty.string_of_uint d) (Z.pos acc) = Z.pos (Pos.of_uint_acc d acc).
Proof.
  revert acc. induction d as [|d IH|d IH|d IH|d IH|d IH|d IH|d IH|d IH|d IH|d IH];
    intros acc; cbn [NilEmpty.string_of_uint JS.parseDigits Pos.of_uint_acc];
    [reflexivity|..]; eval_digit; rewrite <- IH; f_equal; lia.
Qed.

Lemma parseDigits_of_uint (d : Decimal.uint) :
  JS.parseDigits (NilEmpty.string_of_uint d) 0 = Z.of_N (Pos.of_uint d).
Proof.
  induction d as [|d IH|d IH|d IH|d IH|d IH|d IH|d IH|d IH|d IH|d IH];
    cbn [NilEmpty.string_of_uint JS.parseDigits Pos.of_uint];
    [reflexivity|..]; eval_digit; [exact IH|..];
    cbn [Z.of_N]; rewrite <- parseDigits_of_uint_acc; reflexivity.
Qed.

(** A printed positive number starts with a digit. *)
Lemma parseUnsigned_to_uint (p : positive) :
  JS.parseUnsigned (NilEmpty.string_of_uint (Pos.to_uint p)) = Some (Z.pos p).
Proof.
  pose proof (parseDigits_of_uint (Pos.to_uint p)) as Hd.
  rewrite DecimalPos.Unsigned.of_to in Hd.
  pose proof (DecimalPos.Unsigned.to_uint_nonnil p) as Hnil.
  destruct (Pos.to_uint p) eqn:E; [congruence|..];
    cbn [NilEmpty.string_of_uint] in *; unfold JS.parseUnsigned;
    eval_digit; rewrite Hd; reflexivity.
Qed.

Lemma string_of_uint_to_uint (p : positive) :
  NilZero.string_of_uint (Pos.to_uint p) = NilEmpty.string_of_uint (Pos.to_uint p).
Proof.
  pose proof (DecimalPos.Unsigned.to_uint_nonnil p).
  destruct (Pos.to_uint p); [congruence|reflexivity..].
Qed.

(** Nothing is skipped in front of a character of one byte that is no
    white space. *)
Lemma skipWhiteSpace_ascii (c : ascii) (s : string) :
  JS.isWhiteSpace c = false → (nat_of_ascii c < 128)%nat →
  JS.skipWhiteSpace (String c s) = String c s.
Proof.
  intros Hc Hlt. cbn [JS.skipWhiteSpace]. rewrite Hc.
  assert (Hne : ∀ n, (128 <= n)%nat → (nat_of_ascii c =? n)%nat = false)
    by (intros n Hn; apply Nat.eqb_neq; lia).
  destruct s as [|c1 [|c2 s]]; [reflexivity|..];
    unfold JS.isWhiteSpace2, JS.isWhiteSpace3; cbv zeta;
    rewrite ?Hne by lia; reflexivity.
Qed.

(** A printed positive number starts neither with white space nor with a sign. *)
Lemma parseInt10_unsigned (s : string) (z : Z) :
  JS.parseUnsigned s = Some z → JS.parseInt10 s = Some z.
Proof.
  destruct s as [|c s]; [discriminate|].
  unfold JS.parseUnsigned, JS.parseInt10.
  destruct (JS.digitValue c) eqn:Hc; [|discriminate].
  intros Hz.
  assert (Hdigit : JS.isWhiteSpace c = false ∧ (nat_of_ascii c < 128)%nat ∧
                   c ≠ "-"%char ∧ c ≠ "+"%char).
  { destruct c as [[] [] [] [] [] [] [] []]; try discriminate Hc;
      (split; [reflexivity|split; [by apply Nat.ltb_lt|split; discriminate]]). }
  destruct Hdigit as (Hws & Hlt & Hminus & Hplus).
  rewrite skipWhiteSpace_ascii by assumption.
  destruct c as [[] [] [] [] [] [] [] []]; try discriminate Hc; exact Hz.
Qed.

(** [Number.parseInt(String(n), 10)] is [n]. *)
Lemma parseInt10_String (n : Z) : JS.parseInt10 (JS.String_ n) = Some n.
Proof.
  destruct n as [|p|p]; [reflexivity|..]; unfold JS.String_; cbn [Z.to_int NilZero.string_of_int].
  - rewrite string_of_uint_to_uint. apply parseInt10_unsigned, parseUnsigned_to_uint.
  - rewrite string_of_uint_to_uint. unfold JS.parseInt10.
    rewrite skipWhiteSpace_ascii by (reflexivity || by apply Nat.ltb_lt).
    rewrite parseUnsigned_to_uint. reflexivity.
Qed.

(** Two positions print alike only when they are the same. *)
Lemma String_inj (n m : Z) : JS.String_ n = JS.String_ m → n = m.
Proof.
  intros H. apply (f_equal JS.parseInt10) in H.
  rewrite !parseInt10_String in H. congruence.
Qed.

(** ** Arrays *)

Lemma read_Some {A : Type} (arr : list (option A)) (i : Z) (v : A) :
  JS.read arr i = Some v ↔ 0 <= i ∧ arr !! Z.to_nat i = Some (Some v).
Proof.
  unfold JS.read. destruct (Z.ltb_spec i 0) as [Hi|Hi].
  - split; [discriminate|]. intros [? _]. lia.
  - destruct (arr !! Z.to_nat i) as [[x|]|]; cbn; split;
      try discriminate; try (intros [_ ?]; congruence); intros; split; congruence || lia.
Qed.

Lemma read_Some_range {A : Type} (arr : list (option A)) (i : Z) (v : A) :
  JS.read arr i = Some v → 0 <= i < Z.of_nat (length arr).
Proof.
  intros [Hi Hl]%read_Some. apply lookup_lt_Some in Hl. lia.
Qed.

Lemma read_outside {A : Type} (arr : list (option A)) (i : Z) :
  Z.of_nat (length arr) <= i → JS.read arr i = None.
Proof.
  intros Hi. unfold JS.read. destruct (i <? 0); [reflexivity|].
  rewrite lookup_ge_None_2 by lia. reflexivity.
Qed.

(** A cell that was written reads as written. *)
Lemma read_write_eq {A : Type} (arr : list (option A)) (i : Z) (v : A) :
  0 <= i → JS.read (JS.write arr i v) i = Some v.
Proof.
  intros Hi. apply read_Some. split; [exact Hi|]. unfold JS.write.
  destruct (Z.ltb_spec i 0) as [?|_]; [lia|].
  destruct (Z.ltb_spec i (Z.of_nat (length arr))) as [Hlt|Hge].
  - apply list_lookup_insert_eq. lia.
  - rewrite lookup_app_r by lia.
    rewrite lookup_app_r by (rewrite length_replicate; lia).
    rewrite length_replicate.
    replace (Z.to_nat i - length arr - (Z.to_nat i - length arr))%nat with 0%nat by lia.
    reflexivity.
Qed.

(** Writing one cell leaves the others as they read before. *)
Lemma read_write_ne {A : Type} (arr : list (option A)) (i j : Z) (v : A) :
  i ≠ j → JS.read (JS.write arr i v) j = JS.read arr j.
Proof.
  intros Hne. unfold JS.write, JS.read.
  destruct (Z.ltb_spec i 0) as [?|Hi]; [reflexivity|].
  destruct (Z.ltb_spec j 0) as [?|Hj]; [reflexivity|].
  destruct (Z.ltb_spec i (Z.of_nat (length arr))) as [Hlt|Hge].
  - rewrite list_lookup_insert_ne by lia. reflexivity.
  - destruct (decide (Z.to_nat j < length arr)%nat) as [Hjl|Hjl].
    + rewrite lookup_app_l by lia. reflexivity.
    + rewrite lookup_app_r by lia.
      rewrite (lookup_ge_None_2 arr) by lia.
      destruct (decide (Z.to_nat j < Z.to_nat i)%nat) as [Hji|Hji].
      * rewrite lookup_app_l by (rewrite length_replicate; lia).
        rewrite lookup_replicate_2 by lia. reflexivity.
      * rewrite lookup_app_r by (rewrite length_replicate; lia).
        rewrite length_replicate.
        rewrite lookup_ge_None_2 by (cbn; lia). reflexivity.
Qed.

(** Writing inside the array keeps its length. *)
Lemma length_write_inside {A : Type} (arr : list (option A)) (i : Z) (v : A) :
  i < Z.of_nat (length arr) → length (JS.write arr i v) = length arr.
Proof.
  intros Hi. unfold JS.write. destruct (i <? 0); [reflexivity|].
  destruct (Z.ltb_spec i (Z.of_nat (length arr))); [|lia].
  apply length_insert.
Qed.

(** Writing what a cell already holds changes nothing. *)
Lemma write_same {A : Type} (arr : list (option A)) (i : Z) (v : A) :
  JS.read arr i = Some v → JS.write arr i v = arr.
Proof.
  intros Hr. pose proof (read_Some_range _ _ _ Hr) as Hi.
  apply read_Some in Hr as [_ Hl]. unfold JS.write.
  destruct (Z.ltb_spec i 0); [lia|].
  destruct (Z.ltb_spec i (Z.of_nat (length arr))); [|lia].
  apply list_insert_id, Hl.
Qed.

(** [splice(start, 1)] with [start >= 0] takes out the cell at [start],
    if there is one. *)
Lemma splice1_delete {A : Type} (arr : list A) (start : Z) :
  0 <= start → JS.splice1 arr start = delete (Z.to_nat start) arr.
Proof.
  intros Hs. unfold JS.splice1, JS.relativeIndex.
  destruct (Z.ltb_spec start 0); [lia|].
  rewrite delete_take_drop.
  destruct (Z.le_gt_cases start (Z.of_nat (length arr))) as [Hle|Hgt].
  - rewrite Z.min_l by lia. reflexivity.
  - rewrite Z.min_r by lia. rewrite Nat2Z.id.
    rewrite !take_ge, !drop_ge by lia. reflexivity.
Qed.

Lemma length_splice1 {A : Type} (arr : list A) (start : Z) :
  0 <= start →
  length (JS.splice1 arr start) =
  if start <? Z.of_nat (length arr) then (length arr - 1)%nat else length arr.
Proof.
  intros Hs. rewrite splice1_delete by exact Hs.
  destruct (Z.ltb_spec start (Z.of_nat (length arr))) as [Hlt|Hge].
  - apply length_delete, lookup_lt_is_Some_2. lia.
  - rewrite delete_take_drop, take_ge, drop_ge by lia. by rewrite app_nil_r.
Qed.

Lemma lookup_splice1 {A : Type} (arr : list A) (start : Z) (i : nat) :
  0 <= start →
  JS.splice1 arr start !! i =
  if Z.of_nat i <? start then arr !! i else arr !! S i.
Proof.
  intros Hs. rewrite splice1_delete by exact Hs.
  destruct (Z.ltb_spec (Z.of_nat i) start).
  - apply list_lookup_delete_lt. lia.
  - apply list_lookup_delete_ge. lia.
Qed.

(** After [splice(start, 1)] the cells before [start] read as before and
    the cell at [i >= start] reads as the cell at [i + 1] did. *)
Lemma read_splice1 {A : Type} (arr : list (option A)) (start i : Z) :
  0 <= start →
  JS.read (JS.splice1 arr start) i =
  if i <? start then JS.read arr i else JS.read arr (i + 1).
Proof.
  intros Hs. unfold JS.read.
  destruct (Z.ltb_spec i 0) as [Hi|Hi].
  - destruct (Z.ltb_spec i start); [reflexivity|lia].
  - rewrite lookup_splice1 by exact Hs. rewrite Z2Nat.id by lia.
    destruct (Z.ltb_spec i start); [reflexivity|].
    destruct (Z.ltb_spec (i + 1) 0); [lia|].
    replace (Z.to_nat (i + 1)) with (S (Z.to_nat i)) by lia. reflexivity.
Qed.

(** [slice(start, start + n)] with [start >= 0] and [n >= 0] is the [n]
    cells from [start] on, as far as the array goes. *)
Lemma slice_take_drop {A : Type} (arr : list A) (start n : Z) :
  0 <= start → 0 <= n →
  JS.slice arr start (start + n) = take (Z.to_nat n) (drop (Z.to_nat start) arr).
Proof.
  intros Hs Hn. unfold JS.slice, JS.relativeIndex.
  destruct (Z.ltb_spec start 0); [lia|].
  destruct (Z.ltb_spec (start + n) 0); [lia|].
  destruct (Z.le_gt_cases (Z.of_nat (length arr)) start) as [Hout|Hin].
  - rewrite (Z.min_r start) by lia. rewrite Nat2Z.id.
    rewrite !drop_ge by lia. by rewrite !take_nil.
  - rewrite (Z.min_l start) by lia.
    destruct (Z.le_gt_cases (start + n) (Z.of_nat (length arr))).
    + rewrite Z.min_l by lia. f_equal. lia.
    + rewrite Z.min_r by lia.
      rewrite !take_ge; [reflexivity|rewrite length_drop; lia..].
Qed.

(** The ceiling of a quotient by a positive divisor, by its bounds. *)
Lemma Math_ceil_div_pos (a b : Z) :
  0 < b → ∃ c, JS.Math_ceil_div a b = JS.Finite c ∧ (c - 1) * b < a <= c * b.
Proof.
  intros Hb. unfold JS.Math_ceil_div. destruct (Z.eqb_spec b 0); [lia|].
  eexists; split; [reflexivity|].
  pose proof (Z.div_mod (- a) b ltac:(lia)) as Hdm.
  pose proof (Z.mod_pos_bound (- a) b Hb) as Hm. nia.
Qed.

(** The ceiling of a quotient by a negative divisor, by its bounds. *)
Lemma Math_ceil_div_neg (a b : Z) :
  b < 0 → ∃ c, JS.Math_ceil_div a b = JS.Finite c ∧ c * b <= a < (c - 1) * b.
Proof.
  intros Hb. unfold JS.Math_ceil_div. destruct (Z.eqb_spec b 0); [lia|].
  eexists; split; [reflexivity|].
  pose proof (Z.div_mod (- a) b ltac:(lia)) as Hdm.
  pose proof (Z.mod_neg_bound (- a) b Hb) as Hm. nia.
Qed.

(** ** The store after a recipe *)

Lemma historyAt_withHistory_eq (state : State) (eventIndex : Z) (history : EventHistory)
    (events_ : list (option Event)) :
  historyAt (withHistory state (JS.String_ eventIndex) history events_) eventIndex
  = Some history.
Proof. unfold historyAt, withHistory, historyStore. cbn. apply lookup_insert_eq. Qed.

Lemma historyAt_withHistory_ne (state : State) (eventIndex other : Z)
    (history : EventHistory) (events_ : list (option Event)) :
  eventIndex ≠ other →
  historyAt (withHistory state (JS.String_ eventIndex) history events_) other
  = historyAt state other.
Proof.
  intros Hne. unfold historyAt, withHistory, historyStore. cbn.
  apply lookup_insert_ne. intros H%String_inj. contradiction.
Qed.

(** Storing the history a key already has, with the log as it is, gives
    back the state, provided [eventHistory] is there. *)
Lemma withHistory_same (state : State) (key : string) (history : EventHistory) :
  historyStore state !! key = Some history →
  withHistory state key history (events state) = state.
Proof.
  destruct state as [o evs [m|] pg]; unfold historyStore, withHistory; cbn.
  - intros H. by rewrite insert_id.
  - rewrite lookup_empty. discriminate.
Qed.

Lemma historyStore_initHistory (now eventIndex : Z) (state : State) :
  historyStore (initHistory now eventIndex state) =
  match historyAt state eventIndex, JS.read (events state) eventIndex with
  | None, Some event_ =>
      <[JS.String_ eventIndex := {| entries := [seedEntry now event_];
                                    currentVersionIndex := 0 |}]> (historyStore state)
  | _, _ => historyStore state
  end.
Proof.
  unfold initHistory, historyAt, historyStore. cbn.
  destruct (eventHistory state) as [m|]; cbn;
    [destruct (m !! JS.String_ eventIndex)|rewrite lookup_empty];
    destruct (JS.read (events state) eventIndex); reflexivity.
Qed.

(** [initHistory] gives back the state when a history is there already, or
    when there is no event to start one from, and [eventHistory] is an
    object. *)
Lemma initHistory_same (now eventIndex : Z) (state : State) :
  is_Some (eventHistory state) →
  is_Some (historyAt state eventIndex) ∨ JS.read (events state) eventIndex = None →
  initHistory now eventIndex state = state.
Proof.
  intros [m Hm] Hcase. destruct state as [o evs eh pg]. cbn in Hm. subst eh.
  unfold initHistory, historyAt, historyStore in *. cbn in *.
  destruct Hcase as [[h ->]| ->]; [reflexivity|].
  by destruct (m !! JS.String_ eventIndex).
Qed.

(** ** Re-keying in [deleteEvent] *)

(** With printed positions as keys, the new store has under position [j]
    what the old one had under [j] when [j] is before the deleted position,
    and what it had under [j + 1] otherwise. *)
Lemma rekey_lookup (eventIndex : Z) (m : gmap string EventHistory) :
  (∀ key history, m !! key = Some history → ∃ i, key = JS.String_ i) →
  ∀ j, map_fold (rekey eventIndex) ∅ m !! JS.String_ j =
       if j <? eventIndex then m !! JS.String_ j else m !! JS.String_ (j + 1).
Proof.
  apply (map_fold_weak_ind
    (λ r m, (∀ key history, m !! key = Some history → ∃ i, key = JS.String_ i) →
            ∀ j, r !! JS.String_ j =
                 if j <? eventIndex then m !! JS.String_ j else m !! JS.String_ (j + 1))).
  - intros _ j. rewrite !lookup_empty. by destruct (j <? eventIndex).
  - clear m. intros key history m r Hfresh IH Hkeys j.
    destruct (Hkeys key history) as [i ->]; [apply lookup_insert_eq|].
    assert (Hkeys' : ∀ key history, m !! key = Some history → ∃ i, key = JS.String_ i).
    { intros k h Hk. apply (Hkeys k h). rewrite lookup_insert_ne; [exact Hk|].
      intros <-. congruence. }
    specialize (IH Hkeys' j). unfold rekey. rewrite parseInt10_String.
    destruct (Z.ltb_spec eventIndex i) as [Hlt|Hge];
      [|destruct (Z.ltb_spec i eventIndex) as [Hlt'|Hge']].
    + destruct (decide (i - 1 = j)) as [<-|Hne].
      * rewrite lookup_insert_eq.
        destruct (Z.ltb_spec (i - 1) eventIndex); [lia|].
        replace (i - 1 + 1) with i by lia. by rewrite lookup_insert_eq.
      * rewrite lookup_insert_ne by (intros ?%String_inj; lia). rewrite IH.
        destruct (Z.ltb_spec j eventIndex);
          rewrite lookup_insert_ne; try reflexivity; intros ?%String_inj; lia.
    + destruct (decide (i = j)) as [<-|Hne].
      * rewrite lookup_insert_eq.
        destruct (Z.ltb_spec i eventIndex); [|lia]. by rewrite lookup_insert_eq.
      * rewrite lookup_insert_ne by (intros ?%String_inj; lia). rewrite IH.
        destruct (Z.ltb_spec j eventIndex);
          rewrite lookup_insert_ne; try reflexivity; intros ?%String_inj; lia.
    + assert (i = eventIndex) as -> by lia. rewrite IH.
      destruct (Z.ltb_spec j eventIndex);
        rewrite lookup_insert_ne; try reflexivity; intros ?%String_inj; lia.
Qed.

(** A key of the new store is a printed position or a key of the old
    store, and its history is one of the old store. *)
Lemma rekey_origin (eventIndex : Z) (m : gmap string EventHistory)
    (key : string) (history : EventHistory) :
  map_fold (rekey eventIndex) ∅ m !! key = Some history →
  ((∃ i, key = JS.String_ i) ∨ is_Some (m !! key)) ∧
  ∃ key', m !! key' = Some history.
Proof.
  revert key history.
  apply (map_fold_weak_ind
    (λ r m, ∀ key history, r !! key = Some history →
       ((∃ i, key = JS.String_ i) ∨ is_Some (m !! key)) ∧
       ∃ key', m !! key' = Some history)).
  - intros key history. rewrite lookup_empty. discriminate.
  - clear m. intros k h m r Hfresh IH key history.
    assert (Hold : r !! key = Some history →
      ((∃ i, key = JS.String_ i) ∨ is_Some (<[k:=h]> m !! key)) ∧
      ∃ key', <[k:=h]> m !! key' = Some history).
    { intros [Hkey [key' Hk']]%IH. split.
      - destruct Hkey as [?|[x Hx]]; [by left|right].
        destruct (decide (k = key)) as [->|?]; [congruence|].
        rewrite lookup_insert_ne by done. eauto.
      - exists key'. rewrite lookup_insert_ne; [done|]. intros ->. congruence. }
    unfold rekey. destruct (JS.parseInt10 k) as [i|]; [|exact Hold].
    destruct (eventIndex <? i); [|destruct (i <? eventIndex); [|exact Hold]].
    + intros [[<- <-]|[_ Hr]]%lookup_insert_Some; [|by apply Hold].
      split; [left; eauto|exists k; apply lookup_insert_eq].
    + intros [[<- <-]|[_ Hr]]%lookup_insert_Some; [|by apply Hold].
      split; [right; rewrite lookup_insert_eq; eauto|exists k; apply lookup_insert_eq].
Qed.

(** Two turns of the loop on different printed positions can be swapped. *)
Lemma rekey_commute (eventIndex i1 i2 : Z) (v1 v2 : EventHistory)
    (newHistory : gmap string EventHistory) :
  i1 ≠ i2 →
  rekey eventIndex (JS.String_ i1) v1 (rekey eventIndex (JS.String_ i2) v2 newHistory) =
  rekey eventIndex (JS.String_ i2) v2 (rekey eventIndex (JS.String_ i1) v1 newHistory).
Proof.
  intros Hne. unfold rekey. rewrite !parseInt10_String.
  destruct (Z.ltb_spec eventIndex i1), (Z.ltb_spec eventIndex i2),
    (Z.ltb_spec i1 eventIndex), (Z.ltb_spec i2 eventIndex);
    try lia; try reflexivity;
    apply insert_insert_ne; intros ?%String_inj; lia.
Qed.

Lemma foldl_foldr_rev {A B : Type} (f : A → B → A) (a : A) (l : list B) :
  foldl f a l = foldr (λ x acc, f acc x) a (rev l).
Proof.
  induction l as [|x l IH] using rev_ind; [reflexivity|].
  by rewrite foldl_snoc, rev_unit, IH.
Qed.

(** With printed positions as keys, the loop builds the same store in
    whatever order the entries come. *)
Lemma rekeyLoop_any_order (eventIndex : Z) (m : gmap string EventHistory)
    (histories : list (string * EventHistory)) :
  (∀ key history, m !! key = Some history → ∃ i, key = JS.String_ i) →
  histories ≡ₚ map_to_list m →
  rekeyLoop eventIndex histories = map_fold (rekey eventIndex) ∅ m.
Proof.
  intros Hkeys Hperm. unfold rekeyLoop. rewrite foldl_foldr_rev, map_fold_foldr.
  assert (Hrev : rev histories ≡ₚ map_to_list m)
    by (by rewrite <- Permutation_rev).
  symmetry. apply (foldr_permutation (=) (uncurry (rekey eventIndex)) ∅); [|done].
  intros j1 [k1 v1] j2 [k2 v2] newHistory Hj H1 H2. cbn.
  assert (k1 ≠ k2) as Hk.
  { intros <-. apply Hj.
    apply (NoDup_lookup _ _ _ k1 (NoDup_fst_map_to_list m));
      rewrite list_lookup_fmap; [by rewrite H1|by rewrite H2]. }
  destruct (Hkeys k1 v1) as [i1 ->]; [apply elem_of_map_to_list; eauto using list_elem_of_lookup_2|].
  destruct (Hkeys k2 v2) as [i2 ->]; [apply elem_of_map_to_list; eauto using list_elem_of_lookup_2|].
  apply rekey_commute. congruence.
Qed.

(** ** The log and the current versions agree: the invariant and its upkeep *)

Lemma consistent_history_position (state : State) (eventIndex : Z) (history : EventHistory) :
  consistent state → historyAt state eventIndex = Some history →
  0 <= eventIndex < Z.of_nat (length (events state)).
Proof.
  intros [_ Hc] Hh. destruct (Hc _ _ Hh) as [_ (entry & _ & Hr)].
  eapply read_Some_range, Hr.
Qed.

(** In a consistent state a position without an event has no history. *)
Lemma consistent_no_event (state : State) (eventIndex : Z) :
  consistent state → JS.read (events state) eventIndex = None →
  historyAt state eventIndex = None.
Proof.
  intros [_ Hc] Hr. destruct (historyAt state eventIndex) as [h|] eqn:Hh; [|reflexivity].
  destruct (Hc _ _ Hh) as [_ (entry & _ & Hr')]. congruence.
Qed.

Lemma consistent_negative (state : State) (eventIndex : Z) :
  consistent state → eventIndex < 0 → historyAt state eventIndex = None.
Proof.
  intros Hc Hneg. apply consistent_no_event; [exact Hc|].
  unfold JS.read. destruct (Z.ltb_spec eventIndex 0); [reflexivity|lia].
Qed.

(** Putting a history under a position together with its current event in
    the log keeps the state consistent. *)
Lemma consistent_withHistory (state : State) (eventIndex : Z) (history : EventHistory)
    (entry : EventHistoryEntry) :
  consistent state → 0 <= eventIndex → versionInRange history →
  entries history !! Z.to_nat (currentVersionIndex history) = Some entry →
  consistent (withHistory state (JS.String_ eventIndex) history
                (JS.write (events state) eventIndex (event entry))).
Proof.
  intros [Hkeys Hc] Hpos Hrange Hentry. split.
  - intros key h. unfold withHistory, historyStore at 1. cbn.
    intros [[<- _]|[_ Hold]]%lookup_insert_Some; [eauto|]. eapply Hkeys, Hold.
  - intros other h. destruct (decide (eventIndex = other)) as [<-|Hne].
    + rewrite historyAt_withHistory_eq. intros [= <-]. split; [exact Hrange|].
      exists entry. split; [exact Hentry|]. cbn. by apply read_write_eq.
    + rewrite historyAt_withHistory_ne by exact Hne. intros Hh.
      destruct (Hc _ _ Hh) as [Hr (e & He & Hread)]. split; [exact Hr|].
      exists e. split; [exact He|]. cbn. by rewrite read_write_ne.
Qed.

(** The same when the log already shows the current event. *)
Lemma consistent_withHistory_same_log (state : State) (eventIndex : Z)
    (history : EventHistory) (entry : EventHistoryEntry) :
  consistent state → versionInRange history →
  entries history !! Z.to_nat (currentVersionIndex history) = Some entry →
  JS.read (events state) eventIndex = Some (event entry) →
  consistent (withHistory state (JS.String_ eventIndex) history (events state)).
Proof.
  intros Hc Hrange Hentry Hread.
  pose proof (consistent_withHistory state eventIndex history entry) as Hw.
  rewrite (write_same _ _ _ Hread) in Hw. apply Hw; try assumption.
  apply read_Some_range in Hread. lia.
Qed.

Lemma consistent_initHistory (now eventIndex : Z) (state : State) :
  consistent state → consistent (initHistory now eventIndex state).
Proof.
  intros Hc.
  assert (Hsame : historyStore (initHistory now eventIndex state) = historyStore state →
                  consistent (initHistory now eventIndex state)).
  { intros Heq. destruct Hc as [Hkeys Hc]. split.
    - intros key h. rewrite Heq. apply Hkeys.
    - intros other h. unfold historyAt. rewrite Heq. apply Hc. }
  pose proof (historyStore_initHistory now eventIndex state) as Hstore.
  destruct (historyAt state eventIndex) as [h|] eqn:Hh; [by apply Hsame|].
  destruct (JS.read (events state) eventIndex) as [event_|] eqn:Hr; [|by apply Hsame].
  pose proof (consistent_withHistory_same_log state eventIndex
    {| entries := [seedEntry now event_]; currentVersionIndex := 0 |}
    (seedEntry now event_) Hc) as Hw.
  destruct Hw as [Hkeys' Hc']; [unfold versionInRange; cbn; lia|reflexivity|exact Hr|].
  split.
  - intros key h. rewrite Hstore. apply Hkeys'.
  - intros other h. unfold historyAt. rewrite Hstore. intros Hh'.
    destruct (Hc' other h Hh') as [Hrange (e & He & Hread)]. split; [exact Hrange|].
    exists e. split; [exact He|exact Hread].
Qed.

Lemma ensureEventHistory_consistent (now eventIndex : Z) (state : State) :
  consistent state →
  completesWith (ensureEventHistory now eventIndex state) consistent.
Proof.
  intros Hc. unfold ensureEventHistory. destruct (eventIndex <? 0).
  - exists state. by split.
  - eexists. split; [reflexivity|]. by apply consistent_initHistory.
Qed.

Lemma addEventHistoryVersion_consistent (seedTime now eventIndex : Z) (newEvent : Event)
    (type_ : VersionType) (state : State) :
  consistent state →
  completesWith (addEventHistoryVersion seedTime now eventIndex newEvent type_ state)
    consistent.
Proof.
  intros Hc. unfold addEventHistoryVersion.
  destruct (Z.ltb_spec eventIndex 0) as [|Hpos]; [exists state; by split|].
  pose proof (consistent_initHistory seedTime eventIndex state Hc) as Hc1.
  destruct (historyStore (initHistory seedTime eventIndex state) !! JS.String_ eventIndex)
    as [history|] eqn:Hh; [|eexists; by split].
  eexists. split; [reflexivity|].
  set (entry := {| event := newEvent; timestamp := now; type := type_ |}).
  apply (consistent_withHistory _ _ _ entry Hc1 Hpos).
  - unfold versionInRange. cbn. rewrite length_app. cbn. lia.
  - cbn. rewrite length_app. cbn.
    replace (Z.to_nat (Z.of_nat (length (entries history) + 1) - 1))
      with (length (entries history) + 0)%nat by lia.
    by rewrite lookup_app_r, Nat.add_0_r, Nat.sub_diag by lia.
Qed.

Lemma selectEventHistoryVersion_consistent (eventIndex versionIndex : Z) (state : State) :
  consistent state →
  completesWith (selectEventHistoryVersion eventIndex versionIndex state) consistent.
Proof.
  intros Hc. unfold selectEventHistoryVersion.
  destruct (historyStore state !! JS.String_ eventIndex) as [history|] eqn:Hh;
    [|exists state; by split].
  destruct (Z.leb_spec 0 versionIndex) as [Hlo|]; [|exists state; by split].
  destruct (Z.ltb_spec versionIndex (Z.of_nat (length (entries history)))) as [Hhi|];
    [|exists state; by split].
  cbn [andb].
  destruct (lookup_lt_is_Some_2 (entries history) (Z.to_nat versionIndex)) as [entry He];
    [lia|].
  rewrite He. eexists. split; [reflexivity|].
  apply (consistent_withHistory _ _ _ entry Hc).
  - eapply consistent_history_position; [exact Hc|exact Hh].
  - unfold versionInRange. cbn. lia.
  - exact He.
Qed.

(** ** [selectEventHistoryVersion] and [deleteEventHistoryVersion], case by case *)

Lemma select_no_history (eventIndex versionIndex : Z) (state : State) :
  historyAt state eventIndex = None →
  selectEventHistoryVersion eventIndex versionIndex state = JS.Ok state.
Proof. unfold historyAt, selectEventHistoryVersion. by intros ->. Qed.

Lemma select_out_of_range (eventIndex versionIndex : Z) (state : State)
    (history : EventHistory) :
  historyAt state eventIndex = Some history →
  versionIndex < 0 ∨ Z.of_nat (length (entries history)) <= versionIndex →
  selectEventHistoryVersion eventIndex versionIndex state = JS.Ok state.
Proof.
  unfold historyAt, selectEventHistoryVersion. intros -> Hout.
  destruct (Z.leb_spec 0 versionIndex); [|reflexivity].
  destruct (Z.ltb_spec versionIndex (Z.of_nat (length (entries history)))); [lia|reflexivity].
Qed.

Lemma select_in_range (eventIndex versionIndex : Z) (state : State)
    (history : EventHistory) :
  historyAt state eventIndex = Some history →
  0 <= versionIndex < Z.of_nat (length (entries history)) →
  ∃ entry,
    entries history !! Z.to_nat versionIndex = Some entry ∧
    selectEventHistoryVersion eventIndex versionIndex state =
    JS.Ok (withHistory state (JS.String_ eventIndex)
             {| entries := entries history; currentVersionIndex := versionIndex |}
             (JS.write (events state) eventIndex (event entry))).
Proof.
  unfold historyAt, selectEventHistoryVersion. intros -> [Hlo Hhi].
  destruct (lookup_lt_is_Some_2 (entries history) (Z.to_nat versionIndex)) as [entry He];
    [lia|].
  exists entry. split; [exact He|]. rewrite He.
  destruct (Z.leb_spec 0 versionIndex); [|lia].
  destruct (Z.ltb_spec versionIndex (Z.of_nat (length (entries history)))); [|lia].
  reflexivity.
Qed.

Lemma deleteVersion_no_history (eventIndex versionIndex : Z) (state : State) :
  historyAt state eventIndex = None →
  deleteEventHistoryVersion eventIndex versionIndex state = JS.Ok state.
Proof. unfold historyAt, deleteEventHistoryVersion. by intros ->. Qed.

Lemma deleteVersion_out_of_range (eventIndex versionIndex : Z) (state : State)
    (history : EventHistory) :
  historyAt state eventIndex = Some history →
  versionIndex < 0 ∨ Z.of_nat (length (entries history)) <= versionIndex →
  deleteEventHistoryVersion eventIndex versionIndex state = JS.Ok state.
Proof.
  unfold historyAt, deleteEventHistoryVersion. intros -> Hout.
  destruct (Z.ltb_spec versionIndex 0); [reflexivity|].
  destruct (Z.leb_spec (Z.of_nat (length (entries history))) versionIndex); [reflexivity|lia].
Qed.

Lemma deleteVersion_last (eventIndex versionIndex : Z) (state : State)
    (history : EventHistory) :
  historyAt state eventIndex = Some history →
  (length (entries history) <= 1)%nat →
  deleteEventHistoryVersion eventIndex versionIndex state = JS.Ok state.
Proof.
  unfold historyAt, deleteEventHistoryVersion. intros -> Hlast.
  destruct (_ || _); [reflexivity|].
  destruct (Z.leb_spec (Z.of_nat (length (entries history))) 1); [reflexivity|lia].
Qed.

(** The guards of [deleteEventHistoryVersion] all passed. *)
Lemma deleteVersion_guards (versionIndex : Z) (history : EventHistory) :
  0 <= versionIndex < Z.of_nat (length (entries history)) →
  (1 < length (entries history))%nat →
  (versionIndex <? 0) || (Z.of_nat (length (entries history)) <=? versionIndex) = false ∧
  (Z.of_nat (length (entries history)) <=? 1) = false.
Proof.
  intros [Hlo Hhi] Hlen. split.
  - apply orb_false_intro; [apply Z.ltb_ge|apply Z.leb_gt]; lia.
  - apply Z.leb_gt. lia.
Qed.

(** The current version is deleted: the version before it becomes current
    (the first one stays current when it was the first), and the log is
    rewritten. *)
Lemma deleteVersion_current (eventIndex versionIndex : Z) (state : State)
    (history : EventHistory) :
  historyAt state eventIndex = Some history →
  0 <= versionIndex < Z.of_nat (length (entries history)) →
  (1 < length (entries history))%nat →
  currentVersionIndex history = versionIndex →
  ∃ entry,
    JS.splice1 (entries history) versionIndex !! Z.to_nat (Z.max 0 (versionIndex - 1))
      = Some entry ∧
    deleteEventHistoryVersion eventIndex versionIndex state =
    JS.Ok (withHistory state (JS.String_ eventIndex)
             {| entries := JS.splice1 (entries history) versionIndex;
                currentVersionIndex := Z.max 0 (versionIndex - 1) |}
             (JS.write (events state) eventIndex (event entry))).
Proof.
  intros Hh Hrange Hlen Hcur.
  destruct (deleteVersion_guards versionIndex history Hrange Hlen) as [Hg1 Hg2].
  destruct (lookup_lt_is_Some_2 (JS.splice1 (entries history) versionIndex)
              (Z.to_nat (Z.max 0 (versionIndex - 1)))) as [entry He].
  { rewrite length_splice1 by lia.
    destruct (Z.ltb_spec versionIndex (Z.of_nat (length (entries history)))); lia. }
  exists entry. split; [exact He|].
  unfold historyAt in Hh. unfold deleteEventHistoryVersion, JS.Math_max.
  rewrite Hh, Hg1, Hg2, He. rewrite Hcur, Z.eqb_refl. reflexivity.
Qed.

(** Another version is deleted: the log stays, and the pointer moves down
    by one exactly when the deleted version came before the current one. *)
Lemma deleteVersion_other (eventIndex versionIndex : Z) (state : State)
    (history : EventHistory) :
  historyAt state eventIndex = Some history →
  0 <= versionIndex < Z.of_nat (length (entries history)) →
  (1 < length (entries history))%nat →
  currentVersionIndex history ≠ versionIndex →
  deleteEventHistoryVersion eventIndex versionIndex state =
  JS.Ok (withHistory state (JS.String_ eventIndex)
           {| entries := JS.splice1 (entries history) versionIndex;
              currentVersionIndex :=
                if versionIndex <? currentVersionIndex history
                then currentVersionIndex history - 1
                else currentVersionIndex history |}
           (events state)).
Proof.
  intros Hh Hrange Hlen Hcur.
  destruct (deleteVersion_guards versionIndex history Hrange Hlen) as [Hg1 Hg2].
  unfold historyAt in Hh. unfold deleteEventHistoryVersion.
  rewrite Hh, Hg1, Hg2.
  destruct (Z.eqb_spec (currentVersionIndex history) versionIndex); [contradiction|].
  reflexivity.
Qed.

Lemma deleteEventHistoryVersion_consistent (eventIndex versionIndex : Z) (state : State) :
  consistent state →
  completesWith (deleteEventHistoryVersion eventIndex versionIndex state) consistent.
Proof.
  intros Hc.
  destruct (historyAt state eventIndex) as [history|] eqn:Hh;
    [|exists state; split; [by apply deleteVersion_no_history|exact Hc]].
  destruct (decide (0 <= versionIndex < Z.of_nat (length (entries history)))) as [Hrange|Hout];
    [|exists state; split; [eapply deleteVersion_out_of_range; [exact Hh|lia]|exact Hc]].
  destruct (decide (1 < length (entries history))%nat) as [Hlen|Hlast];
    [|exists state; split; [eapply deleteVersion_last; [exact Hh|lia]|exact Hc]].
  pose proof (consistent_history_position _ _ _ Hc Hh) as Hpos.
  destruct Hc as [Hkeys Hcons]. destruct (Hcons _ _ Hh) as [Hcur (current & Hcurrent & Hread)].
  assert (Hc : consistent state) by (by split).
  unfold versionInRange in Hcur.
  destruct (decide (currentVersionIndex history = versionIndex)) as [Heq|Hne].
  - destruct (deleteVersion_current _ _ _ _ Hh Hrange Hlen Heq) as (entry & He & ->).
    eexists. split; [reflexivity|].
    apply (consistent_withHistory _ _ _ entry Hc); [lia| |exact He].
    unfold versionInRange. cbn. rewrite length_splice1 by lia.
    destruct (Z.ltb_spec versionIndex (Z.of_nat (length (entries history)))); lia.
  - rewrite (deleteVersion_other _ _ _ _ Hh Hrange Hlen Hne).
    eexists. split; [reflexivity|].
    apply (consistent_withHistory_same_log _ _ _ current Hc); [| |exact Hread].
    + unfold versionInRange. cbn. rewrite length_splice1 by lia.
      destruct (Z.ltb_spec versionIndex (Z.of_nat (length (entries history)))); [|lia].
      destruct (Z.ltb_spec versionIndex (currentVersionIndex history)); lia.
    + cbn. rewrite lookup_splice1 by lia.
      destruct (Z.ltb_spec versionIndex (currentVersionIndex history)) as [Hbefore|Hafter].
      * destruct (Z.ltb_spec (Z.of_nat (Z.to_nat (currentVersionIndex history - 1)))
                    versionIndex); [lia|].
        replace (S (Z.to_nat (currentVersionIndex history - 1)))
          with (Z.to_nat (currentVersionIndex history)) by lia.
        exact Hcurrent.
      * destruct (Z.ltb_spec (Z.of_nat (Z.to_nat (currentVersionIndex history)))
                    versionIndex); [exact Hcurrent|lia].
Qed.

(** ** [deleteEvent] *)

Lemma deleteEvent_negative (eventIndex : Z) (state : State) :
  eventIndex < 0 → deleteEvent eventIndex state = JS.Ok state.
Proof.
  intros Hneg. unfold deleteEvent. destruct (Z.ltb_spec eventIndex 0); [reflexivity|lia].
Qed.

(** What [deleteEvent] returns for a position that is not negative. *)
Lemma deleteEvent_result (eventIndex : Z) (state : State) :
  0 <= eventIndex →
  ∃ state',
    deleteEvent eventIndex state = JS.Ok state' ∧
    others state' = others state ∧
    historyPagination state' = historyPagination state ∧
    events state' = JS.splice1 (events state) eventIndex ∧
    historyStore state' =
      map_fold (rekey eventIndex) ∅ (delete (JS.String_ eventIndex) (historyStore state)).
Proof.
  intros Hpos. unfold deleteEvent. destruct (Z.ltb_spec eventIndex 0); [lia|].
  eexists. split; [reflexivity|]. repeat split. unfold historyStore. cbn.
  destruct (eventHistory state) as [m|]; cbn.
  - destruct (m !! JS.String_ eventIndex) eqn:Hm; cbn; [reflexivity|].
    by rewrite delete_id.
  - by rewrite delete_empty, map_fold_empty.
Qed.

(** The histories after [deleteEvent], by position. *)
Lemma deleteEvent_historyAt (eventIndex : Z) (state state' : State) :
  0 <= eventIndex → keysArePositions state →
  deleteEvent eventIndex state = JS.Ok state' →
  ∀ j, historyAt state' j =
       if j <? eventIndex then historyAt state j else historyAt state (j + 1).
Proof.
  intros Hpos Hkeys Hdel j.
  destruct (deleteEvent_result eventIndex state Hpos) as (s & Hs & _ & _ & _ & Hstore).
  rewrite Hs in Hdel. injection Hdel as <-.
  unfold historyAt. rewrite Hstore, rekey_lookup.
  - destruct (Z.ltb_spec j eventIndex);
      apply lookup_delete_ne; intros ?%String_inj; lia.
  - intros key h [_ Hk]%lookup_delete_Some. eapply Hkeys, Hk.
Qed.

Lemma deleteEvent_keysArePositions (eventIndex : Z) (state state' : State) :
  keysArePositions state →
  deleteEvent eventIndex state = JS.Ok state' →
  keysArePositions state'.
Proof.
  intros Hkeys Hdel.
  destruct (Z.lt_ge_cases eventIndex 0) as [Hneg|Hpos].
  - rewrite deleteEvent_negative in Hdel by exact Hneg. by injection Hdel as <-.
  - destruct (deleteEvent_result eventIndex state Hpos) as (s & Hs & _ & _ & _ & Hstore).
    rewrite Hs in Hdel. injection Hdel as <-.
    intros key h. rewrite Hstore. intros [[Hi|[x Hx]] _]%rekey_origin; [exact Hi|].
    apply lookup_delete_Some in Hx as [_ Hx]. eapply Hkeys, Hx.
Qed.

Lemma deleteEvent_consistent (eventIndex : Z) (state : State) :
  consistent state → completesWith (deleteEvent eventIndex state) consistent.
Proof.
  intros Hc.
  destruct (Z.lt_ge_cases eventIndex 0) as [Hneg|Hpos].
  { exists state. split; [by apply deleteEvent_negative|exact Hc]. }
  destruct (deleteEvent_result eventIndex state Hpos) as (s & Hs & _ & _ & Hev & _).
  exists s. split; [exact Hs|]. destruct Hc as [Hkeys Hc]. split.
  - eapply deleteEvent_keysArePositions; [exact Hkeys|exact Hs].
  - intros j h. rewrite (deleteEvent_historyAt _ _ _ Hpos Hkeys Hs).
    unfold mirrorsLog. rewrite Hev, read_splice1 by exact Hpos.
    destruct (j <? eventIndex); apply Hc.
Qed.

(** ** No history is empty: upkeep *)

Lemma historiesNonEmpty_withHistory (state : State) (key : string) (history : EventHistory)
    (events_ : list (option Event)) :
  historiesNonEmpty state → (1 <= length (entries history))%nat →
  historiesNonEmpty (withHistory state key history events_).
Proof.
  intros Hne Hlen k h. unfold withHistory, historyStore at 1. cbn.
  intros [[_ <-]|[_ Hold]]%lookup_insert_Some; [exact Hlen|]. eapply Hne, Hold.
Qed.

Lemma historiesNonEmpty_initHistory (now eventIndex : Z) (state : State) :
  historiesNonEmpty state → historiesNonEmpty (initHistory now eventIndex state).
Proof.
  intros Hne key h. rewrite historyStore_initHistory.
  destruct (historyAt state eventIndex); [apply Hne|].
  destruct (JS.read (events state) eventIndex); [|apply Hne].
  intros [[_ <-]|[_ Hold]]%lookup_insert_Some; [cbn; lia|]. eapply Hne, Hold.
Qed.

Lemma perform_historiesNonEmpty (op : Operation) (state : State) :
  historiesNonEmpty state → completesWith (perform op state) historiesNonEmpty.
Proof.
  intros Hne. destruct op as [now p|seedTime now p e k|p v|p v|p]; cbn [perform].
  - unfold ensureEventHistory. destruct (p <? 0); eexists; (split; [reflexivity|]);
      [exact Hne|by apply historiesNonEmpty_initHistory].
  - unfold addEventHistoryVersion. destruct (p <? 0); [by exists state|].
    pose proof (historiesNonEmpty_initHistory seedTime p state Hne) as Hne1.
    destruct (historyStore _ !! _) as [h|]; eexists; (split; [reflexivity|]); [|exact Hne1].
    apply historiesNonEmpty_withHistory; [exact Hne1|]. cbn. rewrite length_app. cbn. lia.
  - destruct (historyAt state p) as [h|] eqn:Hh;
      [|exists state; split; [by apply select_no_history|exact Hne]].
    destruct (decide (0 <= v < Z.of_nat (length (entries h)))) as [Hrange|Hout];
      [|exists state; split; [eapply select_out_of_range; [exact Hh|lia]|exact Hne]].
    destruct (select_in_range _ _ _ _ Hh Hrange) as (entry & _ & ->).
    eexists. split; [reflexivity|].
    apply historiesNonEmpty_withHistory; [exact Hne|]. cbn. eapply Hne, Hh.
  - destruct (historyAt state p) as [h|] eqn:Hh;
      [|exists state; split; [by apply deleteVersion_no_history|exact Hne]].
    destruct (decide (0 <= v < Z.of_nat (length (entries h)))) as [Hrange|Hout];
      [|exists state; split; [eapply deleteVersion_out_of_range; [exact Hh|lia]|exact Hne]].
    destruct (decide (1 < length (entries h))%nat) as [Hlen|Hlast];
      [|exists state; split; [eapply deleteVersion_last; [exact Hh|lia]|exact Hne]].
    assert (Hlen' : (1 <= length (JS.splice1 (entries h) v))%nat).
    { rewrite length_splice1 by lia.
      destruct (Z.ltb_spec v (Z.of_nat (length (entries h)))); lia. }
    destruct (decide (currentVersionIndex h = v)) as [Heq|Hne'].
    + destruct (deleteVersion_current _ _ _ _ Hh Hrange Hlen Heq) as (entry & _ & ->).
      eexists. split; [reflexivity|]. by apply historiesNonEmpty_withHistory.
    + rewrite (deleteVersion_other _ _ _ _ Hh Hrange Hlen Hne').
      eexists. split; [reflexivity|]. by apply historiesNonEmpty_withHistory.
  - destruct (Z.lt_ge_cases p 0) as [Hneg|Hpos].
    { exists state. split; [by apply deleteEvent_negative|exact Hne]. }
    destruct (deleteEvent_result p state Hpos) as (s & Hs & _ & _ & _ & Hstore).
    exists s. split; [exact Hs|]. intros key h. rewrite Hstore.
    intros [_ [key' [_ Hk]%lookup_delete_Some]]%rekey_origin. eapply Hne, Hk.
Qed.

Lemma perform_consistent (op : Operation) (state : State) :
  consistent state → completesWith (perform op state) consistent.
Proof.
  intros Hc. destruct op; cbn [perform].
  - by apply ensureEventHistory_consistent.
  - by apply addEventHistoryVersion_consistent.
  - by apply selectEventHistoryVersion_consistent.
  - by apply deleteEventHistoryVersion_consistent.
  - by apply deleteEvent_consistent.
Qed.

(** A state without any history is consistent, whatever its log. *)
Lemma consistent_no_history (state : State) :
  historyStore state = ∅ → consistent state.
Proof.
  intros Hempty. split.
  - intros key h. rewrite Hempty, lookup_empty. discriminate.
  - intros p h. unfold historyAt. rewrite Hempty, lookup_empty. discriminate.
Qed.

(** Starting without histories, the five operations only lead to consistent
    states. *)
Lemma reachable_consistent (init state : State) :
  historyStore init = ∅ → reachable init state → consistent state.
Proof.
  intros Hempty Hreach. induction Hreach as [|op state state' _ IH Hrun].
  - by apply consistent_no_history.
  - destruct (perform_consistent op state IH) as (s & Hs & Hc). congruence.
Qed.

(** ** The claims of the specification *)

(** C1. For every position that has a history, once any of
    [ensureEventHistory], [addEventHistoryVersion],
    [selectEventHistoryVersion], [deleteEventHistoryVersion] or [deleteEvent]
    has completed, [0 <= currentVersionIndex < entries.length] holds and
    [entries[currentVersionIndex].event] is the event of the log at that
    position: the operations keep the invariant [consistent], which says so
    (for a store whose keys are printed positions). *)
Theorem operations_keep_log_and_current_version_equal (op : Operation) (state : State) :
  consistent state →
  ∃ state',
    perform op state = JS.Ok state' ∧
    consistent state' ∧
    ∀ eventIndex history,
      historyAt state' eventIndex = Some history →
      0 <= currentVersionIndex history < Z.of_nat (length (entries history)) ∧
      ∃ entry,
        entries history !! Z.to_nat (currentVersionIndex history) = Some entry ∧
        JS.read (events state') eventIndex = Some (event entry).
Proof.
  intros Hc. destruct (perform_consistent op state Hc) as (state' & Hrun & Hc').
  exists state'. split; [exact Hrun|]. split; [exact Hc'|].
  intros eventIndex history Hh. destruct Hc' as [_ Hc']. exact (Hc' _ _ Hh).
Qed.

(** C2. For a position [eventIndex >= 0], [deleteEvent] takes the event at
    that position out of the log as [splice] does (the events before it
    stay, every later event moves down by one, and the log is shorter by
    exactly one when there was an event at the position), drops the history
    keyed at the position, moves every history keyed at [k > eventIndex] to
    [k - 1] and leaves those keyed at [k < eventIndex]; no other key
    appears. With histories at exactly 1, 2 and 4, [deleteEvent(2)] leaves
    histories at exactly 1 and 3. *)
Theorem deleteEvent_splices_log_and_rekeys_store (eventIndex : Z) (state : State) :
  0 <= eventIndex → keysArePositions state →
  ∃ state',
    deleteEvent eventIndex state = JS.Ok state' ∧
    (∀ i, i < eventIndex → JS.read (events state') i = JS.read (events state) i) ∧
    (∀ i, eventIndex <= i → JS.read (events state') i = JS.read (events state) (i + 1)) ∧
    (eventIndex < Z.of_nat (length (events state)) →
       Z.of_nat (length (events state')) = Z.of_nat (length (events state)) - 1) ∧
    (Z.of_nat (length (events state)) <= eventIndex → events state' = events state) ∧
    (∀ k, k < eventIndex → historyAt state' k = historyAt state k) ∧
    (∀ k, eventIndex < k → historyAt state' (k - 1) = historyAt state k) ∧
    keysArePositions state' ∧
    (∀ k history, historyAt state' k = Some history →
       ∃ k', k' ≠ eventIndex ∧ historyAt state k' = Some history) ∧
    (eventIndex = 2 →
     dom (historyStore state) = {[JS.String_ 1; JS.String_ 2; JS.String_ 4]} →
     dom (historyStore state') = {[JS.String_ 1; JS.String_ 3]}).
Proof.
  intros Hpos Hkeys.
  destruct (deleteEvent_result eventIndex state Hpos) as (state' & Hrun & _ & _ & Hev & _).
  pose proof (deleteEvent_historyAt _ _ _ Hpos Hkeys Hrun) as Hat.
  pose proof (deleteEvent_keysArePositions _ _ _ Hkeys Hrun) as Hkeys'.
  exists state'. split; [exact Hrun|]. repeat apply conj.
  - intros i Hi. rewrite Hev, read_splice1 by exact Hpos.
    destruct (Z.ltb_spec i eventIndex); [reflexivity|lia].
  - intros i Hi. rewrite Hev, read_splice1 by exact Hpos.
    destruct (Z.ltb_spec i eventIndex); [lia|reflexivity].
  - intros Hin. rewrite Hev, length_splice1 by exact Hpos.
    destruct (Z.ltb_spec eventIndex (Z.of_nat (length (events state)))); lia.
  - intros Hout. rewrite Hev, splice1_delete by exact Hpos.
    rewrite delete_take_drop, take_ge, drop_ge by lia. apply app_nil_r.
  - intros k Hk. rewrite Hat. destruct (Z.ltb_spec k eventIndex); [reflexivity|lia].
  - intros k Hk. rewrite Hat. destruct (Z.ltb_spec (k - 1) eventIndex); [lia|].
    by replace (k - 1 + 1) with k by lia.
  - exact Hkeys'.
  - intros k history. rewrite Hat.
    destruct (Z.ltb_spec k eventIndex); intros Hk; eexists; (split; [|exact Hk]); lia.
  - intros -> Hdom. apply set_eq. intros key.
    rewrite elem_of_dom, elem_of_union, !elem_of_singleton. split.
    + intros [h Hh]. destruct (Hkeys' _ _ Hh) as [j ->].
      change (historyAt state' j = Some h) in Hh. rewrite Hat in Hh.
      unfold historyAt in Hh.
      destruct (Z.ltb_spec j 2); apply elem_of_dom_2 in Hh; rewrite Hdom in Hh;
        rewrite !elem_of_union, !elem_of_singleton in Hh;
        destruct Hh as [[Hj%String_inj|Hj%String_inj]|Hj%String_inj];
        try lia; [left|right]; f_equal; lia.
    + assert (H1 : is_Some (historyAt state 1)).
      { apply elem_of_dom. rewrite Hdom. set_solver. }
      assert (H4 : is_Some (historyAt state 4)).
      { apply elem_of_dom. rewrite Hdom. set_solver. }
      intros [->| ->];
        [change (is_Some (historyAt state' 1))|change (is_Some (historyAt state' 3))];
        rewrite Hat; [exact H1|exact H4].
Qed.

(** C3. For a position [eventIndex >= 0] with a history of more than one
    version and a version index in range, [deleteEventHistoryVersion]
    removes [entries[versionIndex]]; if that was the current version, the
    new [currentVersionIndex] is [max(0, versionIndex - 1)] and the log at
    the position is rewritten to the event of the new current version; if it
    came before the current version, [currentVersionIndex] goes down by one
    and the log is not written; if it came after, [currentVersionIndex] and
    the log stay. *)
Theorem deleteVersion_adjusts_pointer (eventIndex versionIndex : Z) (state : State)
    (history : EventHistory) :
  0 <= eventIndex →
  historyAt state eventIndex = Some history →
  (1 < length (entries history))%nat →
  0 <= versionIndex < Z.of_nat (length (entries history)) →
  ∃ state' history',
    deleteEventHistoryVersion eventIndex versionIndex state = JS.Ok state' ∧
    historyAt state' eventIndex = Some history' ∧
    entries history' = delete (Z.to_nat versionIndex) (entries history) ∧
    (versionIndex = currentVersionIndex history →
       currentVersionIndex history' = Z.max 0 (versionIndex - 1) ∧
       ∃ entry,
         entries history' !! Z.to_nat (currentVersionIndex history') = Some entry ∧
         events state' = JS.write (events state) eventIndex (event entry) ∧
         JS.read (events state') eventIndex = Some (event entry)) ∧
    (versionIndex < currentVersionIndex history →
       currentVersionIndex history' = currentVersionIndex history - 1 ∧
       events state' = events state) ∧
    (currentVersionIndex history < versionIndex →
       currentVersionIndex history' = currentVersionIndex history ∧
       events state' = events state).
Proof.
  intros Hpos Hh Hlen Hrange.
  destruct (decide (currentVersionIndex history = versionIndex)) as [Heq|Hne].
  - destruct (deleteVersion_current _ _ _ _ Hh Hrange Hlen Heq) as (entry & He & ->).
    eexists _, _. split; [reflexivity|]. split; [apply historyAt_withHistory_eq|].
    cbn. split; [apply splice1_delete; lia|]. repeat apply conj; [|lia..].
    intros _. split; [reflexivity|]. exists entry.
    split; [exact He|]. split; [reflexivity|]. by apply read_write_eq.
  - rewrite (deleteVersion_other _ _ _ _ Hh Hrange Hlen Hne).
    eexists _, _. split; [reflexivity|]. split; [apply historyAt_withHistory_eq|].
    cbn. split; [apply splice1_delete; lia|]. repeat apply conj.
    + intros ->. contradiction.
    + intros Hlt. destruct (Z.ltb_spec versionIndex (currentVersionIndex history)); [|lia].
      by split.
    + intros Hgt. destruct (Z.ltb_spec versionIndex (currentVersionIndex history)); [lia|].
      by split.
Qed.

(** C4. Every history keeps at least one version over every operation, and
    [deleteEventHistoryVersion] on a history of exactly one version changes
    nothing: not the entries, not [currentVersionIndex], not the log. *)
Theorem histories_never_become_empty (op : Operation) (state : State) :
  historiesNonEmpty state →
  (∃ state', perform op state = JS.Ok state' ∧ historiesNonEmpty state') ∧
  (∀ eventIndex versionIndex history,
     historyAt state eventIndex = Some history →
     length (entries history) = 1%nat →
     deleteEventHistoryVersion eventIndex versionIndex state = JS.Ok state).
Proof.
  intros Hne. split; [by apply perform_historiesNonEmpty|].
  intros eventIndex versionIndex history Hh Hlen.
  eapply deleteVersion_last; [exact Hh|lia].
Qed.

(** ** [ensureEventHistory] and [addEventHistoryVersion], case by case *)

Lemma initHistory_keeps_rest (now eventIndex : Z) (state : State) :
  events (initHistory now eventIndex state) = events state ∧
  others (initHistory now eventIndex state) = others state ∧
  historyPagination (initHistory now eventIndex state) = historyPagination state.
Proof. by repeat split. Qed.

(** Where there is a history or an event, there is a history after
    [initHistory]: the one there was, or one version made from the event. *)
Lemma initHistory_historyAt (now eventIndex : Z) (state : State) :
  historyAt (initHistory now eventIndex state) eventIndex =
  match historyAt state eventIndex, JS.read (events state) eventIndex with
  | Some history, _ => Some history
  | None, Some event_ =>
      Some {| entries := [seedEntry now event_]; currentVersionIndex := 0 |}
  | None, None => None
  end.
Proof.
  unfold historyAt at 1. rewrite historyStore_initHistory.
  destruct (historyAt state eventIndex) as [h|] eqn:Hh; [exact Hh|].
  destruct (JS.read (events state) eventIndex); [apply lookup_insert_eq|exact Hh].
Qed.

(** Without a history and without an event, [initHistory] leaves the store
    as a mapping alone. *)
Lemma initHistory_nothing (now eventIndex : Z) (state : State) :
  JS.read (events state) eventIndex = None →
  historyStore (initHistory now eventIndex state) = historyStore state.
Proof.
  intros Hr. rewrite historyStore_initHistory, Hr. by destruct (historyAt state eventIndex).
Qed.

Lemma ensureEventHistory_negative (now eventIndex : Z) (state : State) :
  eventIndex < 0 → ensureEventHistory now eventIndex state = JS.Ok state.
Proof.
  intros Hneg. unfold ensureEventHistory.
  destruct (Z.ltb_spec eventIndex 0); [reflexivity|lia].
Qed.

Lemma addEventHistoryVersion_negative (seedTime now eventIndex : Z) (newEvent : Event)
    (type_ : VersionType) (state : State) :
  eventIndex < 0 →
  addEventHistoryVersion seedTime now eventIndex newEvent type_ state = JS.Ok state.
Proof.
  intros Hneg. unfold addEventHistoryVersion.
  destruct (Z.ltb_spec eventIndex 0); [reflexivity|lia].
Qed.

(** No event and no history at the position: [addEventHistoryVersion]
    stops after [initHistory]. *)
Lemma addEventHistoryVersion_nothing (seedTime now eventIndex : Z) (newEvent : Event)
    (type_ : VersionType) (state : State) :
  0 <= eventIndex →
  historyAt state eventIndex = None →
  JS.read (events state) eventIndex = None →
  addEventHistoryVersion seedTime now eventIndex newEvent type_ state =
  JS.Ok (initHistory seedTime eventIndex state).
Proof.
  intros Hpos Hh Hr. unfold addEventHistoryVersion.
  destruct (Z.ltb_spec eventIndex 0); [lia|].
  pose proof (initHistory_historyAt seedTime eventIndex state) as Hat.
  rewrite Hh, Hr in Hat. unfold historyAt in Hat. by rewrite Hat.
Qed.

(** A history, old or just started, gets the new version at its end. *)
Lemma addEventHistoryVersion_pushes (seedTime now eventIndex : Z) (newEvent : Event)
    (type_ : VersionType) (state : State) (history : EventHistory) :
  0 <= eventIndex →
  historyAt (initHistory seedTime eventIndex state) eventIndex = Some history →
  addEventHistoryVersion seedTime now eventIndex newEvent type_ state =
  JS.Ok (withHistory (initHistory seedTime eventIndex state) (JS.String_ eventIndex)
           {| entries := entries history ++
                         [{| event := newEvent; timestamp := now; type := type_ |}];
              currentVersionIndex := Z.of_nat (length (entries history)) |}
           (JS.write (events state) eventIndex newEvent)).
Proof.
  intros Hpos Hh. unfold addEventHistoryVersion.
  destruct (Z.ltb_spec eventIndex 0); [lia|].
  unfold historyAt in Hh. rewrite Hh. do 3 f_equal.
  rewrite length_app. cbn. lia.
Qed.

(** A step that resolves stores the draft as the updater left it. *)
Lemma setAsync_commits (updater : Updater) (outside : list (State → State))
    (stored stored' newState : State) :
  runUpdater updater outside stored stored = (JS.Ok newState, stored') →
  setAsync updater outside stored = (JS.Ok tt, newState).
Proof. unfold setAsync. by intros ->. Qed.

(** C5. When the updater of a step run through [setAsync] throws, whatever
    it wrote before to the draft or to the stored state, and whatever others
    stored while it awaited, the stored state after the call is the state
    read at the start of the step, and the caller gets the same error. A
    step is applied as a whole or not at all: the stored state afterwards is
    that snapshot, with an error thrown, or the draft the updater finished. *)
Theorem setAsync_rolls_back_and_rethrows (updater : Updater)
    (outside : list (State → State)) (stored : State) :
  (∀ error stored',
     runUpdater updater outside stored stored = (JS.Thrown error, stored') →
     setAsync updater outside stored = (JS.Thrown error, stored)) ∧
  ((∃ error, setAsync updater outside stored = (JS.Thrown error, stored)) ∨
   (∃ newState,
      setAsync updater outside stored = (JS.Ok tt, newState) ∧
      (runUpdater updater outside stored stored).1 = JS.Ok newState)).
Proof.
  unfold setAsync.
  destruct (runUpdater updater outside stored stored) as [[newState|error'] final].
  - split; [intros ? ? [=]|]. right. by exists newState.
  - split; [by intros ? ? [= <- _]|]. left. by exists error'.
Qed.

(** C6. In a consistent state, a history operation called with a negative
    position, with a position that has no history (select, delete version),
    with a version index out of range, to delete the only version, or with a
    position outside the log (ensure, add version) returns without an
    exception and writes neither the log nor the history store: the state
    is the same afterwards (for a position outside the log, when
    [eventHistory] was absent it is an empty object afterwards, the same
    store as a mapping). *)
Theorem invalid_calls_are_ignored (state : State) :
  consistent state →
  (∀ now eventIndex, eventIndex < 0 →
     ensureEventHistory now eventIndex state = JS.Ok state) ∧
  (∀ seedTime now eventIndex newEvent type_, eventIndex < 0 →
     addEventHistoryVersion seedTime now eventIndex newEvent type_ state = JS.Ok state) ∧
  (∀ eventIndex versionIndex, eventIndex < 0 →
     selectEventHistoryVersion eventIndex versionIndex state = JS.Ok state ∧
     deleteEventHistoryVersion eventIndex versionIndex state = JS.Ok state) ∧
  (∀ eventIndex versionIndex, historyAt state eventIndex = None →
     selectEventHistoryVersion eventIndex versionIndex state = JS.Ok state ∧
     deleteEventHistoryVersion eventIndex versionIndex state = JS.Ok state) ∧
  (∀ eventIndex versionIndex history,
     historyAt state eventIndex = Some history →
     versionIndex < 0 ∨ Z.of_nat (length (entries history)) <= versionIndex →
     selectEventHistoryVersion eventIndex versionIndex state = JS.Ok state ∧
     deleteEventHistoryVersion eventIndex versionIndex state = JS.Ok state) ∧
  (∀ eventIndex versionIndex history,
     historyAt state eventIndex = Some history →
     length (entries history) = 1%nat →
     deleteEventHistoryVersion eventIndex versionIndex state = JS.Ok state) ∧
  (∀ now eventIndex, JS.read (events state) eventIndex = None →
     ∃ state',
       ensureEventHistory now eventIndex state = JS.Ok state' ∧
       events state' = events state ∧
       historyStore state' = historyStore state ∧
       (is_Some (eventHistory state) → state' = state)) ∧
  (∀ seedTime now eventIndex newEvent type_,
     JS.read (events state) eventIndex = None →
     ∃ state',
       addEventHistoryVersion seedTime now eventIndex newEvent type_ state = JS.Ok state' ∧
       events state' = events state ∧
       historyStore state' = historyStore state ∧
       (is_Some (eventHistory state) → state' = state)).
Proof.
  intros Hc. repeat apply conj.
  - intros. by apply ensureEventHistory_negative.
  - intros. by apply addEventHistoryVersion_negative.
  - intros eventIndex versionIndex Hneg.
    pose proof (consistent_negative _ _ Hc Hneg) as Hh.
    split; [by apply select_no_history|by apply deleteVersion_no_history].
  - intros eventIndex versionIndex Hh.
    split; [by apply select_no_history|by apply deleteVersion_no_history].
  - intros eventIndex versionIndex history Hh Hout.
    split; [by eapply select_out_of_range|by eapply deleteVersion_out_of_range].
  - intros eventIndex versionIndex history Hh Hlen.
    eapply deleteVersion_last; [exact Hh|lia].
  - intros now eventIndex Hr.
    destruct (Z.lt_ge_cases eventIndex 0) as [Hneg|Hpos].
    { exists state. by rewrite ensureEventHistory_negative. }
    exists (initHistory now eventIndex state). unfold ensureEventHistory.
    destruct (Z.ltb_spec eventIndex 0); [lia|]. split; [reflexivity|].
    split; [reflexivity|]. split; [by apply initHistory_nothing|].
    intros Hsome. apply initHistory_same; [exact Hsome|by right].
  - intros seedTime now eventIndex newEvent type_ Hr.
    destruct (Z.lt_ge_cases eventIndex 0) as [Hneg|Hpos].
    { exists state. by rewrite addEventHistoryVersion_negative. }
    exists (initHistory seedTime eventIndex state).
    split; [apply addEventHistoryVersion_nothing; [exact Hpos| |exact Hr];
            by apply consistent_no_event|].
    split; [reflexivity|]. split; [by apply initHistory_nothing|].
    intros Hsome. apply initHistory_same; [exact Hsome|by right].
Qed.

(** C7. [ensureEventHistory] at a position with an event and without a
    history stores, under that position, a history of one version made from
    the event, of type [edit] for an action and [regenerate] otherwise,
    with [currentVersionIndex = 0], and leaves the other histories; a second
    call right after the first changes nothing; and in every case the log
    and the fields of the state besides [eventHistory] are as before. *)
Theorem ensureEventHistory_idempotent_and_store_only (now eventIndex : Z) (state : State) :
  ∃ state',
    ensureEventHistory now eventIndex state = JS.Ok state' ∧
    (∀ later, ensureEventHistory later eventIndex state' = JS.Ok state') ∧
    events state' = events state ∧
    others state' = others state ∧
    historyPagination state' = historyPagination state ∧
    (∀ event_,
       historyAt state eventIndex = None →
       JS.read (events state) eventIndex = Some event_ →
       historyStore state' =
         <[JS.String_ eventIndex :=
             {| entries := [{| event := event_;
                               timestamp := now;
                               type := if isAction event_ then edit else regenerate |}];
                currentVersionIndex := 0 |}]> (historyStore state)).
Proof.
  unfold ensureEventHistory. destruct (Z.ltb_spec eventIndex 0) as [Hneg|Hpos].
  - exists state. split; [reflexivity|]. split; [reflexivity|]. repeat split.
    intros event_ _ Hr%read_Some_range. lia.
  - exists (initHistory now eventIndex state). split; [reflexivity|].
    split; [|repeat split].
    + intros later. f_equal. apply initHistory_same; [by eexists|].
      pose proof (initHistory_historyAt now eventIndex state) as Hat.
      destruct (historyAt state eventIndex); [left; rewrite Hat; eauto|].
      destruct (JS.read (events state) eventIndex) eqn:Hr;
        [left; rewrite Hat; eauto|right; exact Hr].
    + intros event_ Hh Hr. by rewrite historyStore_initHistory, Hh, Hr.
Qed.

(** C8. At a position that holds an event, [addEventHistoryVersion] with
    event [newEvent] and type [edit], then [selectEventHistoryVersion] of
    version 0, then of the last version, all return, and the log at the
    position holds [newEvent] again. *)
Theorem add_select_first_select_last_restores (seedTime now eventIndex : Z)
    (newEvent event_ : Event) (state : State) :
  JS.read (events state) eventIndex = Some event_ →
  ∃ state1 state2 state3 history,
    addEventHistoryVersion seedTime now eventIndex newEvent edit state = JS.Ok state1 ∧
    selectEventHistoryVersion eventIndex 0 state1 = JS.Ok state2 ∧
    historyAt state2 eventIndex = Some history ∧
    selectEventHistoryVersion eventIndex (Z.of_nat (length (entries history)) - 1) state2
      = JS.Ok state3 ∧
    JS.read (events state1) eventIndex = Some newEvent ∧
    JS.read (events state3) eventIndex = Some newEvent.
Proof.
  intros Hr. pose proof (read_Some_range _ _ _ Hr) as [Hpos _].
  assert (∃ h0, historyAt (initHistory seedTime eventIndex state) eventIndex = Some h0)
    as [h0 Hh0].
  { rewrite initHistory_historyAt, Hr. destruct (historyAt state eventIndex); eauto. }
  rewrite (addEventHistoryVersion_pushes _ _ _ _ _ _ _ Hpos Hh0).
  set (entry := {| event := newEvent; timestamp := now; type := edit |}).
  set (state1 := withHistory _ _ _ _).
  assert (Hh1 : historyAt state1 eventIndex =
                Some {| entries := entries h0 ++ [entry];
                        currentVersionIndex := Z.of_nat (length (entries h0)) |})
    by apply historyAt_withHistory_eq.
  destruct (select_in_range eventIndex 0 state1 _ Hh1) as (first & _ & Hsel1).
  { cbn. rewrite length_app. cbn. lia. }
  set (state2 := withHistory state1 _ _ _) in Hsel1.
  assert (Hh2 : historyAt state2 eventIndex =
                Some {| entries := entries h0 ++ [entry]; currentVersionIndex := 0 |})
    by apply historyAt_withHistory_eq.
  destruct (select_in_range eventIndex (Z.of_nat (length (entries h0 ++ [entry])) - 1)
              state2 _ Hh2) as (last_ & Hlast & Hsel2).
  { cbn. rewrite length_app. cbn. lia. }
  cbn in Hlast. rewrite length_app in Hlast. cbn in Hlast.
  replace (Z.to_nat (Z.of_nat (length (entries h0) + 1) - 1))
    with (length (entries h0) + 0)%nat in Hlast by lia.
  rewrite lookup_app_r, Nat.add_0_r, Nat.sub_diag in Hlast by lia.
  injection Hlast as <-.
  eexists state1, state2, _, _. split; [reflexivity|]. split; [exact Hsel1|].
  split; [exact Hh2|]. split; [exact Hsel2|]. split; by apply read_write_eq.
Qed.

(** C9 (amended). Without a history [getEventHistoryPage] returns the empty
    list and [getEventHistoryPageCount] returns 0, for every page and page
    size. With a history the page is [entries.slice(page * pageSize, page *
    pageSize + pageSize)]; for a page index [page >= 0] and a page size
    [pageSize > 0] that is the [pageSize] entries from index [page *
    pageSize] on, as far as the entries go, hence the empty list when that
    index is past the end. For other arguments the bounds of the slice can
    be negative, and then count from the end: the page need not be empty
    although no index of the range asked for is a position of the entries.
    The page count is the ceiling of [entries.length / pageSize] for every
    page size: an integer between the bounds of a ceiling when [pageSize]
    is not 0, and [Infinity], or [NaN] without entries, when it is. Both
    functions read the state and return a value; they have no state to
    write. *)
Theorem pagination_slices_and_counts (eventIndex page pageSize : Z) (state : State) :
  (historyAt state eventIndex = None →
     getEventHistoryPage eventIndex page pageSize state = [] ∧
     getEventHistoryPageCount eventIndex pageSize state = JS.Finite 0) ∧
  (∀ history, historyAt state eventIndex = Some history →
     getEventHistoryPage eventIndex page pageSize state =
       JS.slice (entries history) (page * pageSize) (page * pageSize + pageSize) ∧
     (0 <= page → 0 < pageSize →
      getEventHistoryPage eventIndex page pageSize state =
        take (Z.to_nat pageSize) (drop (Z.to_nat (page * pageSize)) (entries history)) ∧
      (∀ i : nat,
         getEventHistoryPage eventIndex page pageSize state !! i =
         if Z.of_nat i <? pageSize
         then entries history !! (Z.to_nat (page * pageSize) + i)%nat
         else None) ∧
      (Z.of_nat (length (entries history)) <= page * pageSize →
         getEventHistoryPage eventIndex page pageSize state = []) ∧
      ∃ count,
        getEventHistoryPageCount eventIndex pageSize state = JS.Finite count ∧
        (count - 1) * pageSize < Z.of_nat (length (entries history)) <= count * pageSize)) ∧
  (∀ history, historyAt state eventIndex = Some history →
     (0 < pageSize →
      ∃ count,
        getEventHistoryPageCount eventIndex pageSize state = JS.Finite count ∧
        (count - 1) * pageSize < Z.of_nat (length (entries history)) <= count * pageSize) ∧
     (pageSize < 0 →
      ∃ count,
        getEventHistoryPageCount eventIndex pageSize state = JS.Finite count ∧
        count * pageSize <= Z.of_nat (length (entries history)) < (count - 1) * pageSize) ∧
     (pageSize = 0 →
      getEventHistoryPageCount eventIndex pageSize state =
        if Z.of_nat (length (entries history)) =? 0 then JS.NaN else JS.Infinity)).
Proof.
  unfold getEventHistoryPage, getEventHistoryPageCount. split; [|split].
  - by intros ->.
  - intros history ->. split; [reflexivity|]. intros Hpage Hsize.
    assert (Hslice : JS.slice (entries history) (page * pageSize) (page * pageSize + pageSize)
                     = take (Z.to_nat pageSize)
                         (drop (Z.to_nat (page * pageSize)) (entries history)))
      by (apply slice_take_drop; lia).
    rewrite Hslice. split; [reflexivity|]. split; [|split].
    + intros i. destruct (Z.ltb_spec (Z.of_nat i) pageSize).
      * rewrite lookup_take_lt by lia. apply lookup_drop.
      * apply lookup_take_ge. lia.
    + intros Hout. rewrite drop_ge by lia. apply take_nil.
    + by apply Math_ceil_div_pos.
  - intros history ->. split; [|split].
    + apply Math_ceil_div_pos.
    + apply Math_ceil_div_neg.
    + intros ->. reflexivity.
Qed.

(** C10. [addEventHistoryVersion] at a position [eventIndex >= 0] that has
    no history and no event in the log (as every position from the length
    of the log on) adds no history and leaves the log: the state is the
    same, except that an absent [eventHistory] is an empty object
    afterwards. *)
Theorem addVersion_without_event_is_noop (seedTime now eventIndex : Z) (newEvent : Event)
    (type_ : VersionType) (state : State) :
  0 <= eventIndex →
  historyAt state eventIndex = None →
  JS.read (events state) eventIndex = None →
  ∃ state',
    addEventHistoryVersion seedTime now eventIndex newEvent type_ state = JS.Ok state' ∧
    events state' = events state ∧
    historyStore state' = historyStore state ∧
    others state' = others state ∧
    historyPagination state' = historyPagination state ∧
    (is_Some (eventHistory state) → state' = state).
Proof.
  intros Hpos Hh Hr. exists (initHistory seedTime eventIndex state).
  split; [by apply addEventHistoryVersion_nothing|].
  split; [reflexivity|]. split; [by apply initHistory_nothing|].
  split; [reflexivity|]. split; [reflexivity|].
  intros Hsome. apply initHistory_same; [exact Hsome|by right].
Qed.

(** * Further properties of the operations *)

(** ** Helpers *)

(** A second write to the same cell overrides the first. *)
Lemma write_write {A : Type} (arr : list (option A)) (i : Z) (v w : A) :
  JS.write (JS.write arr i v) i w = JS.write arr i w.
Proof.
  unfold JS.write. destruct (Z.ltb_spec i 0) as [|Hi]; [reflexivity|].
  destruct (Z.ltb_spec i (Z.of_nat (length arr))) as [Hin|Hout].
  - rewrite length_insert. destruct (Z.ltb_spec i (Z.of_nat (length arr))); [|lia].
    apply list_insert_insert_eq.
  - rewrite !length_app, length_replicate. cbn [length].
    destruct (Z.ltb_spec i (Z.of_nat (length arr + (Z.to_nat i - length arr + 1))));
      [|lia].
    rewrite insert_app_r_alt by lia. f_equal.
    rewrite insert_app_r_alt by (rewrite length_replicate; lia). f_equal.
    rewrite length_replicate.
    replace (Z.to_nat i - length arr - (Z.to_nat i - length arr))%nat with 0%nat by lia.
    reflexivity.
Qed.

(** Two stores keyed by printed positions that agree at every position are
    the same store. *)
Lemma store_ext (m1 m2 : gmap string EventHistory) :
  (∀ key h, m1 !! key = Some h → ∃ i, key = JS.String_ i) →
  (∀ key h, m2 !! key = Some h → ∃ i, key = JS.String_ i) →
  (∀ i, m1 !! JS.String_ i = m2 !! JS.String_ i) →
  m1 = m2.
Proof.
  intros H1 H2 Heq. apply map_eq. intros key.
  destruct (m1 !! key) as [h1|] eqn:E1.
  - destruct (H1 _ _ E1) as [i ->]. by rewrite <- Heq.
  - destruct (m2 !! key) as [h2|] eqn:E2; [|reflexivity].
    destruct (H2 _ _ E2) as [i ->]. rewrite Heq in E1. congruence.
Qed.

(** A state is its four fields. *)
Lemma state_ext (s1 s2 : State) :
  others s1 = others s2 → events s1 = events s2 →
  eventHistory s1 = eventHistory s2 → historyPagination s1 = historyPagination s2 →
  s1 = s2.
Proof. destruct s1, s2. cbn. by intros -> -> -> ->. Qed.

(** What [withHistory] leaves alone. *)
Lemma withHistory_frame (state : State) (eventIndex : Z) (history : EventHistory)
    (events_ : list (option Event)) :
  (∀ i, i ≠ eventIndex → JS.read events_ i = JS.read (events state) i) →
  others (withHistory state (JS.String_ eventIndex) history events_) = others state ∧
  historyPagination (withHistory state (JS.String_ eventIndex) history events_)
    = historyPagination state ∧
  (∀ key, key ≠ JS.String_ eventIndex →
     historyStore (withHistory state (JS.String_ eventIndex) history events_) !! key
     = historyStore state !! key) ∧
  (∀ i, i ≠ eventIndex →
     JS.read (events (withHistory state (JS.String_ eventIndex) history events_)) i
     = JS.read (events state) i).
Proof.
  intros Hev. split; [reflexivity|]. split; [reflexivity|]. split; [|exact Hev].
  intros key Hkey. unfold withHistory, historyStore at 1. cbn.
  by rewrite lookup_insert_ne.
Qed.

Lemma initHistory_frame (now eventIndex : Z) (state : State) (key : string) :
  key ≠ JS.String_ eventIndex →
  historyStore (initHistory now eventIndex state) !! key = historyStore state !! key.
Proof.
  intros Hkey. rewrite historyStore_initHistory.
  destruct (historyAt state eventIndex); [reflexivity|].
  destruct (JS.read (events state) eventIndex); [|reflexivity].
  by rewrite lookup_insert_ne.
Qed.

(** X1. A history operation other than [deleteEvent], called for one
    position, leaves the histories under every other key and the events at
    every other position as they are; and none of the five operations
    writes [historyPagination] or a field outside the log and the store
    (so [deleteEvent] leaves a pagination state that names the deleted
    position in place). *)
Theorem history_operations_are_local (op : Operation) (state state' : State) :
  perform op state = JS.Ok state' →
  others state' = others state ∧
  historyPagination state' = historyPagination state ∧
  (isDeleteEvent op = false →
     (∀ key, key ≠ JS.String_ (positionOf op) →
        historyStore state' !! key = historyStore state !! key) ∧
     (∀ i, i ≠ positionOf op → JS.read (events state') i = JS.read (events state) i)).
Proof.
  assert (Hsame : ∀ s : State,
    others s = others s ∧ historyPagination s = historyPagination s ∧
    (∀ key : string, key ≠ JS.String_ (positionOf op) →
       historyStore s !! key = historyStore s !! key) ∧
    (∀ i, i ≠ positionOf op → JS.read (events s) i = JS.read (events s) i)) by done.
  assert (Hweaken : ∀ (P Q R S : Prop), P ∧ Q ∧ R ∧ S → P ∧ Q ∧ (isDeleteEvent op = false → R ∧ S))
    by tauto.
  destruct op as [now p|seedTime now p e k|p v|p v|p]; cbn [perform positionOf] in *.
  - intros Hrun. apply Hweaken. unfold ensureEventHistory in Hrun.
    destruct (p <? 0); injection Hrun as <-; [apply Hsame|].
    split; [reflexivity|]. split; [reflexivity|]. split; [|reflexivity].
    intros key Hkey. by apply initHistory_frame.
  - intros Hrun. apply Hweaken. unfold addEventHistoryVersion in Hrun.
    destruct (p <? 0); [injection Hrun as <-; apply Hsame|].
    destruct (historyStore (initHistory seedTime p state) !! JS.String_ p) as [h|];
      injection Hrun as <-.
    + destruct (withHistory_frame (initHistory seedTime p state) p
                  {| entries := entries h ++ [{| event := e; timestamp := now; type := k |}];
                     currentVersionIndex :=
                       Z.of_nat (length (entries h ++
                         [{| event := e; timestamp := now; type := k |}])) - 1 |}
                  (JS.write (events (initHistory seedTime p state)) p e))
        as (Ho & Hp & Hs & He).
      { intros i Hi. by apply read_write_ne. }
      split; [exact Ho|]. split; [exact Hp|]. split; [|exact He].
      intros key Hkey. rewrite Hs by exact Hkey. by apply initHistory_frame.
    + split; [reflexivity|]. split; [reflexivity|]. split; [|reflexivity].
      intros key Hkey. by apply initHistory_frame.
  - intros Hrun. apply Hweaken.
    destruct (historyAt state p) as [h|] eqn:Hh;
      [|rewrite select_no_history in Hrun by exact Hh; injection Hrun as <-; apply Hsame].
    destruct (decide (0 <= v < Z.of_nat (length (entries h)))) as [Hrange|Hout].
    + destruct (select_in_range _ _ _ _ Hh Hrange) as (entry & _ & Hsel).
      rewrite Hsel in Hrun. injection Hrun as <-.
      apply withHistory_frame. intros i Hi. by apply read_write_ne.
    + rewrite (select_out_of_range _ _ _ _ Hh) in Hrun by lia.
      injection Hrun as <-. apply Hsame.
  - intros Hrun. apply Hweaken.
    destruct (historyAt state p) as [h|] eqn:Hh;
      [|rewrite deleteVersion_no_history in Hrun by exact Hh; injection Hrun as <-;
        apply Hsame].
    destruct (decide (0 <= v < Z.of_nat (length (entries h)))) as [Hrange|Hout];
      [|rewrite (deleteVersion_out_of_range _ _ _ _ Hh) in Hrun by lia;
        injection Hrun as <-; apply Hsame].
    destruct (decide (1 < length (entries h))%nat) as [Hlen|Hlast];
      [|rewrite (deleteVersion_last _ _ _ _ Hh) in Hrun by lia;
        injection Hrun as <-; apply Hsame].
    destruct (decide (currentVersionIndex h = v)) as [Heq|Hne].
    + destruct (deleteVersion_current _ _ _ _ Hh Hrange Hlen Heq) as (entry & _ & Hdel).
      rewrite Hdel in Hrun. injection Hrun as <-.
      apply withHistory_frame. intros i Hi. by apply read_write_ne.
    + rewrite (deleteVersion_other _ _ _ _ Hh Hrange Hlen Hne) in Hrun.
      injection Hrun as <-. by apply withHistory_frame.
  - intros Hrun. split; [|split; [|discriminate]].
    + unfold deleteEvent in Hrun. by destruct (p <? 0); injection Hrun as <-.
    + unfold deleteEvent in Hrun. by destruct (p <? 0); injection Hrun as <-.
Qed.

(** X2. [addEventHistoryVersion] at a position [eventIndex >= 0] only ever
    appends: where a history exists, its entries stay in place and in order
    and the new version comes after them; where none exists but an event
    does, the history becomes that event as first version followed by the
    new one. In both cases the new version is the current one and the log
    shows its event. *)
Theorem addVersion_appends (seedTime now eventIndex : Z) (newEvent : Event)
    (type_ : VersionType) (state : State) :
  0 <= eventIndex →
  let added := {| event := newEvent; timestamp := now; type := type_ |} in
  (∀ history, historyAt state eventIndex = Some history →
     ∃ state',
       addEventHistoryVersion seedTime now eventIndex newEvent type_ state = JS.Ok state' ∧
       historyAt state' eventIndex =
         Some {| entries := entries history ++ [added];
                 currentVersionIndex := Z.of_nat (length (entries history)) |} ∧
       JS.read (events state') eventIndex = Some newEvent) ∧
  (∀ event_, historyAt state eventIndex = None →
     JS.read (events state) eventIndex = Some event_ →
     ∃ state',
       addEventHistoryVersion seedTime now eventIndex newEvent type_ state = JS.Ok state' ∧
       historyAt state' eventIndex =
         Some {| entries := [seedEntry seedTime event_; added];
                 currentVersionIndex := 1 |} ∧
       JS.read (events state') eventIndex = Some newEvent).
Proof.
  intros Hpos added. split.
  - intros history Hh.
    assert (Hinit : historyAt (initHistory seedTime eventIndex state) eventIndex
                    = Some history) by (by rewrite initHistory_historyAt, Hh).
    rewrite (addEventHistoryVersion_pushes _ _ _ _ _ _ _ Hpos Hinit).
    eexists. split; [reflexivity|]. split; [apply historyAt_withHistory_eq|].
    by apply read_write_eq.
  - intros event_ Hh Hr.
    assert (Hinit : historyAt (initHistory seedTime eventIndex state) eventIndex
                    = Some {| entries := [seedEntry seedTime event_];
                              currentVersionIndex := 0 |})
      by (by rewrite initHistory_historyAt, Hh, Hr).
    rewrite (addEventHistoryVersion_pushes _ _ _ _ _ _ _ Hpos Hinit).
    eexists. split; [reflexivity|]. split; [apply historyAt_withHistory_eq|].
    by apply read_write_eq.
Qed.

(** Storing under a key twice keeps the second history and the second log. *)
Lemma withHistory_withHistory (state : State) (key : string) (h1 h2 : EventHistory)
    (events1 events2 : list (option Event)) :
  withHistory (withHistory state key h1 events1) key h2 events2
  = withHistory state key h2 events2.
Proof.
  unfold withHistory, historyStore. cbn. by rewrite insert_insert_eq.
Qed.

(** X3. [selectEventHistoryVersion] keeps the entries of the history, so a
    later selection is not affected by an earlier one: selecting version [v]
    and then version [w] (both in range) gives the very state that selecting
    [w] alone gives; in particular selecting twice is selecting once. In a
    consistent state, selecting the version that is current changes
    nothing. *)
Theorem select_last_selection_wins (eventIndex v w : Z) (state : State)
    (history : EventHistory) :
  historyAt state eventIndex = Some history →
  0 <= v < Z.of_nat (length (entries history)) →
  0 <= w < Z.of_nat (length (entries history)) →
  ∃ state1,
    selectEventHistoryVersion eventIndex v state = JS.Ok state1 ∧
    (∃ history1, historyAt state1 eventIndex = Some history1 ∧
                 entries history1 = entries history ∧
                 currentVersionIndex history1 = v) ∧
    selectEventHistoryVersion eventIndex w state1
      = selectEventHistoryVersion eventIndex w state ∧
    (consistent state → v = currentVersionIndex history → state1 = state).
Proof.
  intros Hh Hv Hw.
  destruct (select_in_range _ _ _ _ Hh Hv) as (entryV & HentryV & HselV).
  destruct (select_in_range _ _ _ _ Hh Hw) as (entryW & HentryW & HselW).
  eexists. split; [exact HselV|]. split; [|split].
  - eexists. split; [apply historyAt_withHistory_eq|]. by split.
  - destruct (select_in_range eventIndex w
                (withHistory state (JS.String_ eventIndex)
                   {| entries := entries history; currentVersionIndex := v |}
                   (JS.write (events state) eventIndex (event entryV)))
                {| entries := entries history; currentVersionIndex := v |})
      as (entryW' & HentryW' & Hsel2); [apply historyAt_withHistory_eq|exact Hw|].
    cbn in HentryW'. rewrite HentryW in HentryW'. injection HentryW' as <-.
    rewrite Hsel2, HselW. f_equal. cbn [events withHistory].
    rewrite withHistory_withHistory. f_equal. apply write_write.
  - intros [Hkeys Hc] ->. destruct (Hc _ _ Hh) as [_ (entry & Hentry & Hread)].
    rewrite HentryV in Hentry. injection Hentry as <-.
    rewrite (write_same _ _ _ Hread).
    replace {| entries := entries history;
               currentVersionIndex := currentVersionIndex history |} with history
      by (by destruct history).
    by apply withHistory_same.
Qed.

(** X4. [deleteEventHistoryVersion] never changes which version is shown
    unless the shown version itself is deleted: after a version other than
    the current one is deleted, the current index points at the same entry
    as before. After the current version is deleted, the version before it
    is current, or the one after it when it was the first. In every case the
    history is shorter by exactly one. *)
Theorem deleteVersion_keeps_shown_version (eventIndex versionIndex : Z) (state : State)
    (history : EventHistory) :
  historyAt state eventIndex = Some history →
  versionInRange history →
  (1 < length (entries history))%nat →
  0 <= versionIndex < Z.of_nat (length (entries history)) →
  ∃ state' history',
    deleteEventHistoryVersion eventIndex versionIndex state = JS.Ok state' ∧
    historyAt state' eventIndex = Some history' ∧
    length (entries history') = (length (entries history) - 1)%nat ∧
    versionInRange history' ∧
    (versionIndex ≠ currentVersionIndex history →
       entries history' !! Z.to_nat (currentVersionIndex history')
       = entries history !! Z.to_nat (currentVersionIndex history)) ∧
    (versionIndex = currentVersionIndex history → 0 < versionIndex →
       entries history' !! Z.to_nat (currentVersionIndex history')
       = entries history !! Z.to_nat (versionIndex - 1)) ∧
    (versionIndex = currentVersionIndex history → versionIndex = 0 →
       entries history' !! Z.to_nat (currentVersionIndex history')
       = entries history !! 1%nat).
Proof.
  intros Hh Hcur Hlen Hrange. unfold versionInRange in Hcur.
  assert (Hlen' : length (JS.splice1 (entries history) versionIndex)
                  = (length (entries history) - 1)%nat).
  { rewrite length_splice1 by lia.
    destruct (Z.ltb_spec versionIndex (Z.of_nat (length (entries history)))); [done|lia]. }
  destruct (decide (currentVersionIndex history = versionIndex)) as [Heq|Hne].
  - destruct (deleteVersion_current _ _ _ _ Hh Hrange Hlen Heq) as (entry & He & ->).
    eexists _, _. split; [reflexivity|]. split; [apply historyAt_withHistory_eq|].
    cbn [entries currentVersionIndex]. split; [exact Hlen'|]. split; [|split; [|split]].
    + unfold versionInRange. cbn. rewrite Hlen'. lia.
    + intros Hne. congruence.
    + intros _ Hpos. rewrite lookup_splice1 by lia.
      rewrite Z.max_r by lia.
      destruct (Z.ltb_spec (Z.of_nat (Z.to_nat (versionIndex - 1))) versionIndex);
        [reflexivity|lia].
    + intros _ ->. rewrite lookup_splice1 by lia. reflexivity.
  - rewrite (deleteVersion_other _ _ _ _ Hh Hrange Hlen Hne).
    eexists _, _. split; [reflexivity|]. split; [apply historyAt_withHistory_eq|].
    cbn [entries currentVersionIndex]. split; [exact Hlen'|]. split; [|split; [|split]].
    + unfold versionInRange. cbn. rewrite Hlen'.
      destruct (Z.ltb_spec versionIndex (currentVersionIndex history)); lia.
    + intros _. rewrite lookup_splice1 by lia.
      destruct (Z.ltb_spec versionIndex (currentVersionIndex history)) as [Hbefore|Hafter].
      * destruct (Z.ltb_spec (Z.of_nat (Z.to_nat (currentVersionIndex history - 1)))
                    versionIndex); [lia|].
        f_equal. lia.
      * destruct (Z.ltb_spec (Z.of_nat (Z.to_nat (currentVersionIndex history)))
                    versionIndex); [reflexivity|lia].
    + intros Heq. congruence.
    + intros Heq. congruence.
Qed.

(** X5. In a consistent state, [deleteEvent] at a position past the end of
    the log changes nothing at all: no event is removed and no history is
    dropped or moved. *)
Theorem deleteEvent_past_the_end_is_noop (eventIndex : Z) (state : State) :
  consistent state →
  Z.of_nat (length (events state)) <= eventIndex →
  deleteEvent eventIndex state = JS.Ok state.
Proof.
  intros Hc Hout.
  assert (Hpos : 0 <= eventIndex) by lia.
  destruct (deleteEvent_result eventIndex state Hpos)
    as (state' & Hrun & Ho & Hp & Hev & Hstore).
  rewrite Hrun. f_equal. apply state_ext; [exact Ho| |  |exact Hp].
  - rewrite Hev, splice1_delete by exact Hpos.
    rewrite delete_take_drop, take_ge, drop_ge by lia. apply app_nil_r.
  - assert (Hmap : historyStore state' = historyStore state).
    { apply store_ext.
      - eapply deleteEvent_keysArePositions; [apply Hc|exact Hrun].
      - apply Hc.
      - intros j. change (historyAt state' j = historyAt state j).
        rewrite (deleteEvent_historyAt _ _ _ Hpos (proj1 Hc) Hrun).
        destruct (Z.ltb_spec j eventIndex); [reflexivity|].
        rewrite !(consistent_no_event _ _ Hc); [reflexivity|apply read_outside; lia..]. }
    unfold deleteEvent in Hrun. destruct (eventIndex <? 0); [by injection Hrun as <-|].
    injection Hrun as <-. unfold historyStore in Hmap. cbn in *.
    destruct (eventHistory state) as [m|]; [|reflexivity].
    cbn in *. destruct (m !! JS.String_ eventIndex); cbn in *; by rewrite Hmap.
Qed.

(** Every key that the loop of [deleteEvent] writes, in whatever order the
    entries are listed, was read from a key of the list as a position other
    than the deleted one, and reads as that position, or as the one before
    it when it was behind the deleted one. *)
Lemma rekeyLoop_readable (eventIndex : Z) (histories : list (string * EventHistory))
    (key : string) (history : EventHistory) :
  rekeyLoop eventIndex histories !! key = Some history →
  ∃ key' i, (key', history) ∈ histories ∧ JS.parseInt10 key' = Some i ∧
            i ≠ eventIndex ∧
            JS.parseInt10 key = Some (if eventIndex <? i then i - 1 else i).
Proof.
  revert key history. unfold rekeyLoop.
  induction histories as [|[k x] histories IH] using rev_ind; intros key history.
  - cbn. rewrite lookup_empty. discriminate.
  - rewrite foldl_snoc. cbn [uncurry].
    set (r := foldl _ ∅ histories) in *.
    assert (Hold : r !! key = Some history →
      ∃ key' i, (key', history) ∈ histories ++ [(k, x)] ∧ JS.parseInt10 key' = Some i ∧
                i ≠ eventIndex ∧
                JS.parseInt10 key = Some (if eventIndex <? i then i - 1 else i)).
    { intros (key' & i & Hin & Hrest)%IH. exists key', i.
      split; [apply elem_of_app; by left|exact Hrest]. }
    assert (Hlast : (k, x) ∈ histories ++ [(k, x)])
      by (apply elem_of_app; right; apply list_elem_of_singleton; reflexivity).
    unfold rekey. destruct (JS.parseInt10 k) as [i|] eqn:Hparse; [|exact Hold].
    destruct (Z.ltb_spec eventIndex i) as [Hgt|Hle];
      [|destruct (Z.ltb_spec i eventIndex) as [Hlt|Hge]; [|exact Hold]].
    + intros [[<- <-]|[_ Hr]]%lookup_insert_Some; [|by apply Hold].
      exists k, i. split; [exact Hlast|]. split; [exact Hparse|]. split; [lia|].
      rewrite parseInt10_String. by destruct (Z.ltb_spec eventIndex i); [|lia].
    + intros [[<- <-]|[_ Hr]]%lookup_insert_Some; [|by apply Hold].
      exists k, i. split; [exact Hlast|]. split; [exact Hparse|]. split; [lia|].
      rewrite Hparse. by destruct (Z.ltb_spec eventIndex i); [lia|].
Qed.

(** X6. [deleteEvent] at a position [eventIndex >= 0] leaves no history
    under a key that [Number.parseInt] cannot read, and none that was under
    a key that reads as [eventIndex] (not only the key that
    [String(eventIndex)] prints): whatever the order in which
    [Object.entries] lists the histories, every key of the store that the
    loop builds reads as a safe integer, and its history was under a key
    that reads as another position than the deleted one, of which the new
    key is the position after the deletion. The keys need not be printed
    positions; those that read as an integer read as a safe one (below
    [2^53] in absolute value), so that [parseInt] returns the integer
    written. The store that [deleteEvent] returns is the one of the loop
    for one such order. *)
Theorem deleteEvent_drops_unreadable_keys (eventIndex : Z) (state : State)
    (histories : list (string * EventHistory)) :
  0 <= eventIndex < 2 ^ 53 →
  keysReadSafely state →
  histories ≡ₚ map_to_list (delete (JS.String_ eventIndex) (historyStore state)) →
  let newHistory := rekeyLoop eventIndex histories in
  (∀ key history, newHistory !! key = Some history →
     ∃ i, JS.parseInt10 key = Some i ∧ safeInteger i) ∧
  (∀ key, JS.parseInt10 key = None → newHistory !! key = None) ∧
  (∀ key history, newHistory !! key = Some history →
     ∃ key' i, historyStore state !! key' = Some history ∧
               JS.parseInt10 key' = Some i ∧ i ≠ eventIndex ∧
               JS.parseInt10 key = Some (if eventIndex <? i then i - 1 else i)) ∧
  ∃ state',
    deleteEvent eventIndex state = JS.Ok state' ∧
    historyStore state' =
      rekeyLoop eventIndex
        (rev (map_to_list (delete (JS.String_ eventIndex) (historyStore state)))).
Proof.
  intros Hpos Hsafe Hperm newHistory.
  assert (Horigin : ∀ key history, newHistory !! key = Some history →
    ∃ key' i, historyStore state !! key' = Some history ∧
              JS.parseInt10 key' = Some i ∧ i ≠ eventIndex ∧
              JS.parseInt10 key = Some (if eventIndex <? i then i - 1 else i)).
  { intros key history (key' & i & Hin & Hrest)%rekeyLoop_readable.
    exists key', i. split; [|exact Hrest].
    rewrite Hperm in Hin. apply elem_of_map_to_list in Hin.
    by apply lookup_delete_Some in Hin as [_ Hin]. }
  split; [|split; [|split; [exact Horigin|]]].
  - intros key history (key' & i & Hk' & Hparse & Hne & Hkey)%Horigin.
    eexists. split; [exact Hkey|].
    pose proof (Hsafe _ _ _ Hk' Hparse) as Hi. unfold safeInteger in *.
    destruct (Z.ltb_spec eventIndex i); lia.
  - intros key Hparse.
    destruct (newHistory !! key) as [history|] eqn:Hk; [|reflexivity].
    destruct (Horigin _ _ Hk) as (key' & i & _ & _ & _ & Hkey). congruence.
  - destruct (deleteEvent_result eventIndex state ltac:(lia)) as (s & Hs & _ & _ & _ & Hstore).
    exists s. split; [exact Hs|]. rewrite Hstore.
    unfold rekeyLoop. rewrite foldl_foldr_rev, rev_involutive, map_fold_foldr.
    apply foldr_ext; [by intros [k x] r|reflexivity..].
Qed.

(** X7. Calling [ensureEventHistory] before [addEventHistoryVersion] at the
    same position, as [handleSave] does, changes nothing
    but the time stamp of a first version that gets started: the second
    call returns what [addEventHistoryVersion] alone returns when it starts
    the history at the time of the first call. *)
Theorem ensure_then_add_is_add (ensureTime seedTime now eventIndex : Z)
    (newEvent : Event) (type_ : VersionType) (state : State) :
  ∃ state1,
    ensureEventHistory ensureTime eventIndex state = JS.Ok state1 ∧
    addEventHistoryVersion seedTime now eventIndex newEvent type_ state1
    = addEventHistoryVersion ensureTime now eventIndex newEvent type_ state.
Proof.
  unfold ensureEventHistory, addEventHistoryVersion.
  destruct (Z.ltb_spec eventIndex 0) as [Hneg|Hpos].
  - exists state. split; [reflexivity|].
    destruct (Z.ltb_spec eventIndex 0); [reflexivity|lia].
  - eexists. split; [reflexivity|].
    destruct (Z.ltb_spec eventIndex 0); [lia|].
    assert (Hsame : initHistory seedTime eventIndex (initHistory ensureTime eventIndex state)
                    = initHistory ensureTime eventIndex state).
    { apply initHistory_same; [by eexists|].
      pose proof (initHistory_historyAt ensureTime eventIndex state) as Hat.
      destruct (historyAt state eventIndex); [left; rewrite Hat; eauto|].
      destruct (JS.read (events state) eventIndex) eqn:Hr;
        [left; rewrite Hat; eauto|right; exact Hr]. }
    by rewrite Hsame.
Qed.

(** X8. Adding a version and then deleting it again (the last version of
    the history) keeps the versions there were and makes the last of them
    current, with its event in the log. In a consistent state whose current
    version was the last one, the two calls give back the state exactly; if
    an older version was current, it is not current afterwards. *)
Theorem add_then_delete_last (seedTime now eventIndex : Z) (newEvent : Event)
    (type_ : VersionType) (state : State) (history : EventHistory)
    (latest : EventHistoryEntry) :
  0 <= eventIndex →
  historyAt state eventIndex = Some history →
  last (entries history) = Some latest →
  ∃ state1 state2,
    addEventHistoryVersion seedTime now eventIndex newEvent type_ state = JS.Ok state1 ∧
    deleteEventHistoryVersion eventIndex (Z.of_nat (length (entries history))) state1
      = JS.Ok state2 ∧
    historyAt state2 eventIndex =
      Some {| entries := entries history;
              currentVersionIndex := Z.of_nat (length (entries history)) - 1 |} ∧
    JS.read (events state2) eventIndex = Some (event latest) ∧
    (consistent state →
     currentVersionIndex history = Z.of_nat (length (entries history)) - 1 →
     state2 = state).
Proof.
  intros Hpos Hh Hlast.
  assert (Hlen : (1 <= length (entries history))%nat).
  { destruct (entries history); [discriminate|cbn; lia]. }
  assert (Hinit : initHistory seedTime eventIndex state = state ∨
                  (eventHistory state = None)).
  { destruct (eventHistory state) eqn:He; [left|by right].
    apply initHistory_same; [rewrite He; eauto|left; rewrite Hh; eauto]. }
  assert (Hsome : initHistory seedTime eventIndex state = state).
  { destruct Hinit as [|Hnone]; [done|].
    unfold historyAt, historyStore in Hh. rewrite Hnone in Hh. cbn in Hh.
    rewrite lookup_empty in Hh. discriminate. }
  assert (Hh0 : historyAt (initHistory seedTime eventIndex state) eventIndex = Some history)
    by (by rewrite Hsome).
  rewrite (addEventHistoryVersion_pushes _ _ _ _ _ _ _ Hpos Hh0), Hsome.
  set (added := {| event := newEvent; timestamp := now; type := type_ |}).
  set (state1 := withHistory state _ _ _).
  assert (Hh1 : historyAt state1 eventIndex =
                Some {| entries := entries history ++ [added];
                        currentVersionIndex := Z.of_nat (length (entries history)) |})
    by apply historyAt_withHistory_eq.
  destruct (deleteVersion_current eventIndex (Z.of_nat (length (entries history)))
              state1 _ Hh1) as (entry & He & Hdel).
  { cbn. rewrite length_app. cbn. lia. }
  { cbn. rewrite length_app. cbn. lia. }
  { reflexivity. }
  cbn [entries] in He, Hdel.
  assert (Hsplice : JS.splice1 (entries history ++ [added])
                      (Z.of_nat (length (entries history))) = entries history).
  { rewrite splice1_delete by lia. rewrite Nat2Z.id.
    rewrite delete_middle. apply app_nil_r. }
  rewrite Hsplice in He, Hdel.
  assert (Hmax : Z.max 0 (Z.of_nat (length (entries history)) - 1)
                 = Z.of_nat (length (entries history)) - 1) by lia.
  rewrite Hmax in He, Hdel.
  assert (entry = latest) as ->.
  { rewrite last_lookup in Hlast.
    replace (Z.to_nat (Z.of_nat (length (entries history)) - 1))
      with (pred (length (entries history))) in He by lia.
    congruence. }
  eexists _, _. split; [reflexivity|]. split; [exact Hdel|].
  split; [apply historyAt_withHistory_eq|]. split; [by apply read_write_eq|].
  intros Hc Hcur. unfold state1. cbn [events withHistory].
  rewrite withHistory_withHistory, write_write.
  destruct Hc as [_ Hc]. destruct (Hc _ _ Hh) as [_ (current & Hcurrent & Hread)].
  rewrite Hcur in Hcurrent.
  replace (Z.to_nat (Z.of_nat (length (entries history)) - 1))
    with (pred (length (entries history))) in * by lia.
  assert (current = latest) as -> by congruence.
  rewrite (write_same _ _ _ Hread), <- Hcur.
  replace {| entries := entries history;
             currentVersionIndex := currentVersionIndex history |} with history
    by (by destruct history).
  by apply withHistory_same.
Qed.

(** ** Pages *)

(** [getEventHistoryPage] for a page index and a page size that are not
    negative, as a piece of the entries. *)
Lemma getEventHistoryPage_take_drop (eventIndex page pageSize : Z) (state : State)
    (history : EventHistory) :
  historyAt state eventIndex = Some history → 0 <= page → 0 <= pageSize →
  getEventHistoryPage eventIndex page pageSize state =
  take (Z.to_nat pageSize) (drop (Z.to_nat page * Z.to_nat pageSize) (entries history)).
Proof.
  intros Hh Hpage Hsize. unfold getEventHistoryPage. rewrite Hh.
  rewrite slice_take_drop by lia. do 2 f_equal. lia.
Qed.

(** The first [n] chunks of [k] cells, one after the other, are the first
    [n * k] cells. *)
Lemma chunks_concat {A : Type} (l : list A) (k n : nat) :
  concat ((λ i, take k (drop (i * k) l)) <$> seq 0 n) = take (n * k) l.
Proof.
  induction n as [|n IH]; [reflexivity|].
  rewrite seq_S, fmap_app, concat_app, IH. cbn [fmap list_fmap concat].
  rewrite app_nil_r, take_take_drop. f_equal. lia.
Qed.

(** X9. For a page size [pageSize > 0], the pages [0 .. pageCount - 1] of a
    history, one after the other, are exactly its entries: no version is
    left out, none is shown twice, and the order is kept. *)
Theorem pages_partition_the_entries (eventIndex pageSize : Z) (state : State)
    (history : EventHistory) :
  0 < pageSize →
  historyAt state eventIndex = Some history →
  ∃ pageCount,
    getEventHistoryPageCount eventIndex pageSize state = JS.Finite pageCount ∧
    0 <= pageCount ∧
    concat ((λ page : nat, getEventHistoryPage eventIndex (Z.of_nat page) pageSize state)
              <$> seq 0 (Z.to_nat pageCount))
    = entries history.
Proof.
  intros Hsize Hh.
  destruct (Math_ceil_div_pos (Z.of_nat (length (entries history))) pageSize Hsize)
    as (c & Hc & Hlo & Hhi).
  exists c. unfold getEventHistoryPageCount. rewrite Hh. split; [exact Hc|].
  pose proof (Nat2Z.is_nonneg (length (entries history))) as Hnn.
  assert (Hcpos : 0 <= c) by nia. split; [done|].
  rewrite (list_fmap_ext _
    (λ i, take (Z.to_nat pageSize) (drop (i * Z.to_nat pageSize) (entries history)))).
  - rewrite chunks_concat. apply take_ge.
    assert (Hprod : Z.of_nat (Z.to_nat c * Z.to_nat pageSize) = c * pageSize)
      by (rewrite Nat2Z.inj_mul, !Z2Nat.id; lia).
    revert Hprod Hhi. generalize (Z.to_nat c * Z.to_nat pageSize)%nat (c * pageSize).
    lia.
  - intros i page _. cbn.
    rewrite (getEventHistoryPage_take_drop _ _ _ _ _ Hh) by lia.
    by rewrite Nat2Z.id.
Qed.

(** X10. For [page >= 0] and [pageSize > 0], a page holds [pageSize]
    entries, or what is left of the entries from [page * pageSize] on when
    that is less; it holds at least one entry exactly when [page] is below
    the page count. *)
Theorem page_size_and_page_count_agree (eventIndex page pageSize : Z) (state : State)
    (history : EventHistory) :
  0 <= page → 0 < pageSize →
  historyAt state eventIndex = Some history →
  Z.of_nat (length (getEventHistoryPage eventIndex page pageSize state)) =
    Z.max 0 (Z.min pageSize (Z.of_nat (length (entries history)) - page * pageSize)) ∧
  (getEventHistoryPage eventIndex page pageSize state ≠ [] ↔
   JS.Num_lt page (getEventHistoryPageCount eventIndex pageSize state) = true).
Proof.
  intros Hpage Hsize Hh.
  rewrite (getEventHistoryPage_take_drop _ _ _ _ _ Hh) by lia.
  assert (Hlen : Z.of_nat (length (take (Z.to_nat pageSize)
                   (drop (Z.to_nat page * Z.to_nat pageSize) (entries history)))) =
                 Z.max 0 (Z.min pageSize
                   (Z.of_nat (length (entries history)) - page * pageSize))).
  { rewrite length_take, length_drop.
    assert (Hprod : Z.of_nat (Z.to_nat page * Z.to_nat pageSize) = page * pageSize)
      by (rewrite Nat2Z.inj_mul, !Z2Nat.id; lia).
    revert Hprod. generalize (Z.to_nat page * Z.to_nat pageSize)%nat (page * pageSize).
    lia. }
  split; [exact Hlen|].
  destruct (Math_ceil_div_pos (Z.of_nat (length (entries history))) pageSize Hsize)
    as (c & Hc & Hlo & Hhi).
  unfold getEventHistoryPageCount. rewrite Hh, Hc. cbn [JS.Num_lt].
  rewrite Z.ltb_lt. rewrite <- length_zero_iff_nil. split.
  - intros Hne. destruct (Z.lt_ge_cases page c) as [|Hge]; [done|]. exfalso.
    assert (c * pageSize <= page * pageSize) by nia. lia.
  - intros Hlt. assert (page * pageSize <= (c - 1) * pageSize) by nia. lia.
Qed.

(** ** The history viewer *)

(** The row [row] of the open page is the entry [page * 5 + row]. *)
Lemma pageEntries_lookup (eventIndex page : Z) (row : nat) (state : State)
    (entry : EventHistoryEntry) :
  0 <= page →
  pageEntries eventIndex page state !! row = Some entry →
  ∃ history,
    historyAt state eventIndex = Some history ∧
    (row < 5)%nat ∧
    entries history !! Z.to_nat (actualVersionIndex page (Z.of_nat row)) = Some entry.
Proof.
  intros Hpage. unfold pageEntries.
  destruct (historyAt state eventIndex) as [history|] eqn:Hh;
    [|unfold getEventHistoryPage; rewrite Hh; discriminate].
  rewrite (getEventHistoryPage_take_drop _ _ _ _ _ Hh) by (unfold viewerPageSize; lia).
  intros [Hentry Hrow]%lookup_take_Some. rewrite lookup_drop in Hentry.
  exists history. split; [reflexivity|]. unfold viewerPageSize in *.
  split; [lia|]. unfold actualVersionIndex, viewerPageSize.
  replace (Z.to_nat (page * 5 + Z.of_nat row)) with (Z.to_nat page * Z.to_nat 5 + row)%nat
    by lia.
  exact Hentry.
Qed.

(** X11. In the history viewer, "Restore this version" on a row restores
    the version that the row shows: afterwards the log at the position holds
    the event of that row, the row is the one marked current, and the
    entries of the history are as before. *)
Theorem viewer_restores_the_row_clicked (eventIndex page : Z) (row : nat)
    (state : State) (entry : EventHistoryEntry) :
  0 <= eventIndex → 0 <= page →
  pageEntries eventIndex page state !! row = Some entry →
  ∃ state' history history',
    handleSelectVersion eventIndex page (Z.of_nat row) state = JS.Ok state' ∧
    historyAt state eventIndex = Some history ∧
    historyAt state' eventIndex = Some history' ∧
    entries history' = entries history ∧
    isCurrent history' page (Z.of_nat row) = true ∧
    pageEntries eventIndex page state' !! row = Some entry ∧
    JS.read (events state') eventIndex = Some (event entry).
Proof.
  intros Hpos Hpage Hrow.
  destruct (pageEntries_lookup _ _ _ _ _ Hpage Hrow) as (history & Hh & Hlt & Hentry).
  pose proof (lookup_lt_Some _ _ _ Hentry) as Hin.
  assert (Hv : 0 <= actualVersionIndex page (Z.of_nat row)
               < Z.of_nat (length (entries history))).
  { unfold actualVersionIndex, viewerPageSize in *. lia. }
  destruct (select_in_range _ _ _ _ Hh Hv) as (entry' & Hentry' & Hsel).
  rewrite Hentry in Hentry'. injection Hentry' as <-.
  unfold handleSelectVersion. rewrite Hsel.
  eexists _, history, _. split; [reflexivity|]. split; [exact Hh|].
  split; [apply historyAt_withHistory_eq|]. split; [reflexivity|].
  split; [unfold isCurrent; cbn; apply Z.eqb_refl|].
  split; [|by apply read_write_eq].
  unfold pageEntries in *.
  rewrite (getEventHistoryPage_take_drop _ _ _ _ _ Hh) in Hrow
    by (unfold viewerPageSize; lia).
  erewrite getEventHistoryPage_take_drop;
    [|apply historyAt_withHistory_eq|lia|unfold viewerPageSize; lia].
  exact Hrow.
Qed.

(** [deleteEventHistoryVersion], all guards passed: the history is shorter
    by one. *)
Lemma deleteVersion_shortens (eventIndex versionIndex : Z) (state : State)
    (history : EventHistory) :
  historyAt state eventIndex = Some history →
  0 <= versionIndex < Z.of_nat (length (entries history)) →
  (1 < length (entries history))%nat →
  ∃ state' history',
    deleteEventHistoryVersion eventIndex versionIndex state = JS.Ok state' ∧
    historyAt state' eventIndex = Some history' ∧
    entries history' = JS.splice1 (entries history) versionIndex ∧
    length (entries history') = (length (entries history) - 1)%nat.
Proof.
  intros Hh Hrange Hlen.
  assert (Hlen' : length (JS.splice1 (entries history) versionIndex)
                  = (length (entries history) - 1)%nat).
  { rewrite length_splice1 by lia.
    destruct (Z.ltb_spec versionIndex (Z.of_nat (length (entries history)))); [done|lia]. }
  destruct (decide (currentVersionIndex history = versionIndex)) as [Heq|Hne].
  - destruct (deleteVersion_current _ _ _ _ Hh Hrange Hlen Heq) as (entry & _ & ->).
    eexists _, _. split; [reflexivity|]. split; [apply historyAt_withHistory_eq|].
    by split.
  - rewrite (deleteVersion_other _ _ _ _ Hh Hrange Hlen Hne).
    eexists _, _. split; [reflexivity|]. split; [apply historyAt_withHistory_eq|].
    by split.
Qed.

(** X12. In the history viewer, deleting the version of a row never leaves
    the viewer on a page without rows: the handler returns, the history is
    still there, and the page it ends on (the same page, or the one before
    when the last row of the last page went away) shows at least one row.
    The version is deleted exactly when the history had more than one. *)
Theorem viewer_delete_keeps_a_shown_page (eventIndex page : Z) (row : nat)
    (state : State) (entry : EventHistoryEntry) :
  0 <= page →
  pageEntries eventIndex page state !! row = Some entry →
  ∃ page' state' history history',
    handleDeleteVersion eventIndex page (Z.of_nat row) state = JS.Ok (page', state') ∧
    historyAt state eventIndex = Some history ∧
    historyAt state' eventIndex = Some history' ∧
    (page' = page ∨ page' = page - 1) ∧
    pageShown eventIndex page' state' ∧
    pageEntries eventIndex page' state' ≠ [] ∧
    length (entries history') =
      (if hasMultipleVersions history
       then (length (entries history) - 1)%nat
       else length (entries history)) ∧
    (isCurrent history page (Z.of_nat row) = false → events state' = events state).
Proof.
  intros Hpage Hrow.
  destruct (pageEntries_lookup _ _ _ _ _ Hpage Hrow) as (history & Hh & Hlt & Hentry).
  pose proof (lookup_lt_Some _ _ _ Hentry) as Hin.
  set (v := actualVersionIndex page (Z.of_nat row)) in *.
  assert (Hv : 0 <= v < Z.of_nat (length (entries history))).
  { unfold v, actualVersionIndex, viewerPageSize in *. lia. }
  assert (Hshown : ∀ page' (state' : State) history',
    historyAt state' eventIndex = Some history' →
    0 <= page' → page' * viewerPageSize < Z.of_nat (length (entries history')) →
    pageShown eventIndex page' state' ∧ pageEntries eventIndex page' state' ≠ []).
  { intros page' state' history' Hh' Hp' Hlt'. split; [split; [done|eauto]|].
    unfold pageEntries.
    rewrite (getEventHistoryPage_take_drop _ _ _ _ _ Hh') by (unfold viewerPageSize; lia).
    rewrite <- length_zero_iff_nil, length_take, length_drop.
    unfold viewerPageSize in *. lia. }
  unfold handleDeleteVersion. fold v.
  destruct (Z.ltb_spec 1 (Z.of_nat (length (entries history)))) as [Hmany|Hone].
  - assert (Hm : hasMultipleVersions history = true)
      by (unfold hasMultipleVersions; apply Z.ltb_lt; lia).
    destruct (deleteVersion_shortens _ _ _ _ Hh Hv ltac:(lia))
      as (state1 & history1 & Hdel & Hh1 & Hentries1 & Hlen1).
    rewrite Hdel, Hh1.
    destruct (Math_ceil_div_pos (Z.of_nat (length (entries history1))) viewerPageSize
                ltac:(unfold viewerPageSize; lia)) as (c & Hc & Hlo & Hhi).
    rewrite Hc. cbn [JS.Num_ge].
    assert (Hev1 : (currentVersionIndex history =? v) = false →
                   events state1 = events state).
    { intros Hne%Z.eqb_neq.
      pose proof (deleteVersion_other _ _ _ _ Hh Hv ltac:(lia) Hne) as Hother.
      rewrite Hdel in Hother. by injection Hother as ->. }
    unfold v, actualVersionIndex, viewerPageSize in *.
    destruct (Z.leb_spec c page) as [Hge|Hltc]; [destruct (Z.ltb_spec 0 page) as [Hp|Hp]|];
      cbn [andb setHistoryPagination].
    + eexists (page - 1), _, history, history1. split; [reflexivity|]. split; [exact Hh|].
      split; [exact Hh1|]. split; [by right|].
      destruct (Hshown (page - 1)
                  {| others := others state1; events := events state1;
                     eventHistory := eventHistory state1;
                     historyPagination :=
                       Some {| pg_eventIndex := eventIndex; pg_page := page - 1;
                               pg_pageSize := 5 |} |} history1 Hh1);
        [lia|unfold viewerPageSize; lia|].
      split; [done|]. split; [done|]. rewrite Hm. split; [exact Hlen1|].
      unfold isCurrent, actualVersionIndex, viewerPageSize. cbn [events]. exact Hev1.
    + eexists page, state1, history, history1. split; [reflexivity|]. split; [exact Hh|].
      split; [exact Hh1|]. split; [by left|].
      destruct (Hshown page state1 history1 Hh1); [lia|unfold viewerPageSize; lia|].
      split; [done|]. split; [done|]. rewrite Hm. split; [exact Hlen1|].
      unfold isCurrent, actualVersionIndex, viewerPageSize. exact Hev1.
    + eexists page, state1, history, history1. split; [reflexivity|]. split; [exact Hh|].
      split; [exact Hh1|]. split; [by left|].
      destruct (Hshown page state1 history1 Hh1); [lia|unfold viewerPageSize; nia|].
      split; [done|]. split; [done|]. rewrite Hm. split; [exact Hlen1|].
      unfold isCurrent, actualVersionIndex, viewerPageSize. exact Hev1.
  - assert (Hm : hasMultipleVersions history = false)
      by (unfold hasMultipleVersions; apply Z.ltb_ge; lia).
    rewrite (deleteVersion_last _ _ _ _ Hh) by lia. rewrite Hh.
    destruct (Math_ceil_div_pos (Z.of_nat (length (entries history))) viewerPageSize
                ltac:(unfold viewerPageSize; lia)) as (c & Hc & Hlo & Hhi).
    rewrite Hc. cbn [JS.Num_ge].
    unfold v, actualVersionIndex, viewerPageSize in *.
    assert (page = 0) as -> by lia.
    rewrite andb_false_r. cbn [andb].
    eexists 0, state, history, history. split; [reflexivity|].
    split; [first [exact Hh|reflexivity]|].
    split; [first [exact Hh|reflexivity]|]. split; [by left|].
    destruct (Hshown 0 state history Hh) as [Hs Hne]; [lia|unfold viewerPageSize; lia|].
    rewrite Hm. split; [exact Hs|]. split; [exact Hne|]. by split.
Qed.

(** X13. The paging of the history viewer stays on pages that show rows.
    From such a page, [handlePrevious] goes one page back unless the page is
    the first, [handleNext] goes one page on exactly when a further page
    with rows exists, and neither writes the log or the history store. A
    button of the pager is disabled exactly when its handler would stay, and
    when the pager is hidden both handlers stay. *)
Theorem viewer_paging_stays_on_shown_pages (eventIndex page : Z) (state : State)
    (history : EventHistory) :
  historyAt state eventIndex = Some history →
  0 <= page →
  page * viewerPageSize < Z.of_nat (length (entries history)) →
  let totalPages := getEventHistoryPageCount eventIndex viewerPageSize state in
  (∃ page' state',
     handlePrevious eventIndex page state = JS.Ok (page', state') ∧
     page' = (if previousDisabled page then page else page - 1) ∧
     pageShown eventIndex page' state' ∧
     historyStore state' = historyStore state ∧ events state' = events state ∧
     (previousDisabled page = true → state' = state)) ∧
  (∃ page' state',
     handleNext eventIndex page state = JS.Ok (page', state') ∧
     page' = (if nextDisabled page totalPages then page else page + 1) ∧
     pageShown eventIndex page' state' ∧
     historyStore state' = historyStore state ∧ events state' = events state ∧
     (nextDisabled page totalPages = true → state' = state)) ∧
  (nextDisabled page totalPages = false ↔
   (page + 1) * viewerPageSize < Z.of_nat (length (entries history))) ∧
  (pagerHidden totalPages = true →
   previousDisabled page = true ∧ nextDisabled page totalPages = true).
Proof.
  intros Hh Hpage Hshown totalPages. subst totalPages.
  destruct (Math_ceil_div_pos (Z.of_nat (length (entries history))) viewerPageSize
              ltac:(unfold viewerPageSize; lia)) as (c & Hc & Hlo & Hhi).
  unfold getEventHistoryPageCount, nextDisabled, pagerHidden, previousDisabled.
  rewrite Hh, Hc. cbn [JS.Num_pred JS.Num_ge JS.Num_le].
  unfold handlePrevious, handleNext, getEventHistoryPageCount.
  rewrite Hh, Hc. cbn [JS.Num_pred JS.Num_lt setHistoryPagination].
  unfold viewerPageSize in *.
  assert (Hok : ∀ page' (state' : State),
    historyStore state' = historyStore state → 0 <= page' →
    page' * 5 < Z.of_nat (length (entries history)) → pageShown eventIndex page' state').
  { intros page' state' Hs Hp Hl. split; [exact Hp|]. exists history.
    unfold historyAt in *. rewrite Hs. by split. }
  repeat apply conj.
  - destruct (Z.ltb_spec 0 page), (Z.eqb_spec page 0); try lia.
    + eexists _, _. split; [reflexivity|]. split; [reflexivity|].
      split; [apply Hok; [reflexivity|lia..]|]. by repeat split.
    + eexists _, _. split; [reflexivity|]. split; [reflexivity|].
      split; [by apply Hok|]. by repeat split.
  - destruct (Z.ltb_spec page (c - 1)), (Z.leb_spec (c - 1) page); try lia.
    + eexists _, _. split; [reflexivity|]. split; [reflexivity|].
      split; [apply Hok; [reflexivity|lia..]|]. by repeat split.
    + eexists _, _. split; [reflexivity|]. split; [reflexivity|].
      split; [by apply Hok|]. by repeat split.
  - rewrite Z.leb_gt. lia.
  - rewrite Z.leb_gt. lia.
  - intros Hhidden%Z.leb_le. split; [apply Z.eqb_eq|apply Z.leb_le]; lia.
Qed.

(** X14. In the history viewer exactly one row is marked as the current
    version: the row [currentVersionIndex mod 5] of the page
    [currentVersionIndex / 5], which shows the entry at
    [currentVersionIndex]; no other row of any page is marked. *)
Theorem viewer_marks_exactly_the_current_version (eventIndex : Z) (state : State)
    (history : EventHistory) :
  historyAt state eventIndex = Some history →
  versionInRange history →
  let page0 := currentVersionIndex history / viewerPageSize in
  let row0 := currentVersionIndex history mod viewerPageSize in
  isCurrent history page0 row0 = true ∧
  (∃ entry,
     pageEntries eventIndex page0 state !! Z.to_nat row0 = Some entry ∧
     entries history !! Z.to_nat (currentVersionIndex history) = Some entry) ∧
  (∀ page row, 0 <= row < viewerPageSize →
     isCurrent history page row = true → page = page0 ∧ row = row0).
Proof.
  intros Hh Hcur page0 row0. unfold versionInRange in Hcur.
  pose proof (Z.div_mod (currentVersionIndex history) viewerPageSize
                ltac:(unfold viewerPageSize; lia)) as Hdm.
  pose proof (Z.mod_pos_bound (currentVersionIndex history) viewerPageSize
                ltac:(unfold viewerPageSize; lia)) as Hm.
  fold page0 row0 in Hdm, Hm. unfold viewerPageSize in *.
  assert (Hp0 : 0 <= page0) by lia.
  split; [|split].
  - unfold isCurrent, actualVersionIndex, viewerPageSize. apply Z.eqb_eq. lia.
  - destruct (lookup_lt_is_Some_2 (entries history)
                (Z.to_nat (currentVersionIndex history))) as [entry He]; [lia|].
    exists entry. split; [|exact He]. unfold pageEntries.
    rewrite (getEventHistoryPage_take_drop _ _ _ _ _ Hh) by (unfold viewerPageSize; lia).
    unfold viewerPageSize. rewrite lookup_take_lt by lia. rewrite lookup_drop.
    rewrite <- He. f_equal. lia.
  - intros page row Hrow Hmark. unfold isCurrent, actualVersionIndex, viewerPageSize in Hmark.
    apply Z.eqb_eq in Hmark. lia.
Qed.

(** X15. The delete button of a row of the history viewer is there exactly
    when deleting that row changes the history: with more than one version
    [deleteEventHistoryVersion] on a shown row returns another state, with
    one version it returns the state it got. *)
Theorem delete_button_iff_row_can_be_deleted (eventIndex versionIndex : Z)
    (state : State) (history : EventHistory) :
  historyAt state eventIndex = Some history →
  0 <= versionIndex < Z.of_nat (length (entries history)) →
  (hasMultipleVersions history = true ↔
   deleteEventHistoryVersion eventIndex versionIndex state ≠ JS.Ok state).
Proof.
  intros Hh Hrange. unfold hasMultipleVersions. rewrite Z.ltb_lt. split.
  - intros Hmany.
    destruct (deleteVersion_shortens _ _ _ _ Hh Hrange ltac:(lia))
      as (state' & history' & -> & Hh' & _ & Hlen).
    intros [= ->]. rewrite Hh in Hh'. injection Hh' as <-. lia.
  - intros Hchange. destruct (Z.lt_ge_cases 1 (Z.of_nat (length (entries history))));
      [done|].
    exfalso. apply Hchange. eapply deleteVersion_last; [exact Hh|lia].
Qed.

(** ** The log *)

Lemma dense_write_inside (arr : list (option Event)) (i : Z) (v : Event) :
  0 <= i < Z.of_nat (length arr) →
  (∀ j cell, arr !! j = Some cell → is_Some cell) →
  (∀ j cell, JS.write arr i v !! j = Some cell → is_Some cell) ∧
  length (JS.write arr i v) = length arr.
Proof.
  intros Hi Hdense. split; [|apply length_write_inside; lia].
  unfold JS.write. destruct (Z.ltb_spec i 0); [lia|].
  destruct (Z.ltb_spec i (Z.of_nat (length arr))); [|lia].
  intros j cell [(_ & <- & _)|[_ Hold]]%list_lookup_insert_Some; [eauto|].
  eapply Hdense, Hold.
Qed.

(** X16. In a consistent state whose log has no holes, no operation makes
    one: every write of [addEventHistoryVersion], [selectEventHistoryVersion]
    and [deleteEventHistoryVersion] goes to a position inside the log, so
    the log keeps its length, and only [deleteEvent] changes the length. *)
Theorem operations_keep_the_log_dense (op : Operation) (state state' : State) :
  consistent state → dense state →
  perform op state = JS.Ok state' →
  dense state' ∧
  (isDeleteEvent op = false → length (events state') = length (events state)).
Proof.
  intros Hc Hdense Hrun.
  assert (Hwrite : ∀ (s : State) p h ev,
    0 <= p < Z.of_nat (length (events state)) →
    dense (withHistory s (JS.String_ p) h (JS.write (events state) p ev)) ∧
    length (events (withHistory s (JS.String_ p) h (JS.write (events state) p ev)))
      = length (events state)).
  { intros s p h ev Hp. destruct (dense_write_inside (events state) p ev Hp Hdense).
    by split. }
  destruct op as [now p|seedTime now p e k|p v|p v|p]; cbn [perform isDeleteEvent] in *.
  - unfold ensureEventHistory in Hrun. by destruct (p <? 0); injection Hrun as <-.
  - unfold addEventHistoryVersion in Hrun.
    destruct (Z.ltb_spec p 0); [by injection Hrun as <-|].
    destruct (historyStore (initHistory seedTime p state) !! JS.String_ p) as [h|] eqn:Hh;
      injection Hrun as <-; [|done].
    destruct (Hwrite (initHistory seedTime p state) p
                {| entries := entries h ++ [{| event := e; timestamp := now; type := k |}];
                   currentVersionIndex :=
                     Z.of_nat (length (entries h ++
                       [{| event := e; timestamp := now; type := k |}])) - 1 |} e);
      [|done].
    change (historyAt (initHistory seedTime p state) p = Some h) in Hh.
    rewrite initHistory_historyAt in Hh.
    destruct (historyAt state p) as [h0|] eqn:Hh0;
      [eapply consistent_history_position; [exact Hc|exact Hh0]|].
    destruct (JS.read (events state) p) eqn:Hr; [|discriminate].
    eapply read_Some_range, Hr.
  - destruct (historyAt state p) as [h|] eqn:Hh;
      [|rewrite select_no_history in Hrun by exact Hh; by injection Hrun as <-].
    pose proof (consistent_history_position _ _ _ Hc Hh) as Hp.
    destruct (decide (0 <= v < Z.of_nat (length (entries h)))) as [Hrange|Hout].
    + destruct (select_in_range _ _ _ _ Hh Hrange) as (entry & _ & Hsel).
      rewrite Hsel in Hrun. injection Hrun as <-.
      destruct (Hwrite state p {| entries := entries h; currentVersionIndex := v |}
                  (event entry) Hp). done.
    + rewrite (select_out_of_range _ _ _ _ Hh) in Hrun by lia. by injection Hrun as <-.
  - destruct (historyAt state p) as [h|] eqn:Hh;
      [|rewrite deleteVersion_no_history in Hrun by exact Hh; by injection Hrun as <-].
    pose proof (consistent_history_position _ _ _ Hc Hh) as Hp.
    destruct (decide (0 <= v < Z.of_nat (length (entries h)))) as [Hrange|Hout];
      [|rewrite (deleteVersion_out_of_range _ _ _ _ Hh) in Hrun by lia;
        by injection Hrun as <-].
    destruct (decide (1 < length (entries h))%nat) as [Hlen|Hlast];
      [|rewrite (deleteVersion_last _ _ _ _ Hh) in Hrun by lia; by injection Hrun as <-].
    destruct (decide (currentVersionIndex h = v)) as [Heq|Hne].
    + destruct (deleteVersion_current _ _ _ _ Hh Hrange Hlen Heq) as (entry & _ & Hdel).
      rewrite Hdel in Hrun. injection Hrun as <-.
      destruct (Hwrite state p
                  {| entries := JS.splice1 (entries h) v;
                     currentVersionIndex := Z.max 0 (v - 1) |} (event entry) Hp). done.
    + rewrite (deleteVersion_other _ _ _ _ Hh Hrange Hlen Hne) in Hrun.
      by injection Hrun as <-.
  - split; [|discriminate].
    destruct (Z.lt_ge_cases p 0) as [Hneg|Hpos].
    { rewrite deleteEvent_negative in Hrun by exact Hneg. by injection Hrun as <-. }
    destruct (deleteEvent_result p state Hpos) as (s & Hs & _ & _ & Hev & _).
    rewrite Hs in Hrun. injection Hrun as <-.
    intros j cell. rewrite Hev, lookup_splice1 by exact Hpos.
    destruct (Z.of_nat j <? p); apply Hdense.
Qed.

(** X17. The store that [deleteEvent] leaves does not depend on the order
    in which [Object.entries] lists the histories: with printed positions as
    keys, the loop run over the entries in any order builds the store of the
    result. *)
Theorem deleteEvent_loop_order_is_irrelevant (eventIndex : Z) (state : State)
    (histories : list (string * EventHistory)) :
  0 <= eventIndex → keysArePositions state →
  histories ≡ₚ map_to_list (delete (JS.String_ eventIndex) (historyStore state)) →
  ∃ state',
    deleteEvent eventIndex state = JS.Ok state' ∧
    historyStore state' = rekeyLoop eventIndex histories.
Proof.
  intros Hpos Hkeys Hperm.
  destruct (deleteEvent_result eventIndex state Hpos) as (state' & Hrun & _ & _ & _ & Hstore).
  exists state'. split; [exact Hrun|]. rewrite Hstore. symmetry.
  apply rekeyLoop_any_order; [|exact Hperm].
  intros key h [_ Hk]%lookup_delete_Some. eapply Hkeys, Hk.
Qed.

(** ** The event views *)

(** A second [initHistory] at the same position finds the history of the
    first, or still no event. *)
Lemma initHistory_initHistory (t1 t2 eventIndex : Z) (state : State) :
  initHistory t2 eventIndex (initHistory t1 eventIndex state)
  = initHistory t1 eventIndex state.
Proof.
  apply initHistory_same; [by eexists|].
  pose proof (initHistory_historyAt t1 eventIndex state) as Hat.
  destruct (historyAt state eventIndex); [left; rewrite Hat; eauto|].
  destruct (JS.read (events state) eventIndex) eqn:Hr;
    [left; rewrite Hat; eauto|right; exact Hr].
Qed.

Lemma add_after_ensure (ensureTime seedTime now eventIndex : Z) (newEvent : Event)
    (type_ : VersionType) (state : State) :
  0 <= eventIndex →
  addEventHistoryVersion seedTime now eventIndex newEvent type_
    (initHistory ensureTime eventIndex state)
  = addEventHistoryVersion ensureTime now eventIndex newEvent type_ state.
Proof.
  intros Hpos. unfold addEventHistoryVersion.
  destruct (Z.ltb_spec eventIndex 0); [lia|]. by rewrite initHistory_initHistory.
Qed.

(** X18. [handleSave] of the action view stores an edit only for a text
    that, trimmed, is not empty and differs from the action shown, and only
    with a position that is not negative; otherwise the stored state stays.
    The text is trimmed as [String.prototype.trim] does, of the white space
    and the line terminators of Unicode at both ends.
    An edit it stores is [addEventHistoryVersion] of the trimmed text with
    type [edit]. When the view shows the event of the log, the log holds
    the trimmed text afterwards, the history ends with it, and saving the
    same text again from the view that now shows it changes nothing: one
    version per edit. *)
Theorem handleSave_stores_one_trimmed_edit (ensureTime seedTime now : Z)
    (editText : string) (event_ : ActionEvent) (eventIndex : option Z) (state : State) :
  let saved := Action {| action := JS.trim editText |} in
  (JS.trim editText = EmptyString ∨ JS.trim editText = action event_ ∨
   validEventIndex eventIndex = None →
   handleSave ensureTime seedTime now editText event_ eventIndex state = JS.Ok state) ∧
  (∀ i, validEventIndex eventIndex = Some i →
     JS.trim editText ≠ EmptyString → JS.trim editText ≠ action event_ →
     handleSave ensureTime seedTime now editText event_ eventIndex state
     = addEventHistoryVersion ensureTime now i saved edit state ∧
     (JS.read (events state) i = Some (Action event_) →
      ∃ state' history',
        handleSave ensureTime seedTime now editText event_ eventIndex state
          = JS.Ok state' ∧
        JS.read (events state') i = Some saved ∧
        historyAt state' i = Some history' ∧
        last (entries history') = Some {| event := saved; timestamp := now; type := edit |} ∧
        ∀ t1 t2 t3,
          handleSave t1 t2 t3 editText {| action := JS.trim editText |} eventIndex state'
          = JS.Ok state')).
Proof.
  intros saved. unfold handleSave, validEventIndex. split.
  - intros Hcase. destruct eventIndex as [i|]; [|reflexivity].
    destruct (String.eqb_spec (JS.trim editText) EmptyString) as [|Hne1]; [reflexivity|].
    destruct (String.eqb_spec (JS.trim editText) (action event_)) as [|Hne2];
      [reflexivity|].
    destruct (Z.leb_spec 0 i); [|reflexivity].
    destruct Hcase as [?|[?|?]]; congruence.
  - intros i Hvalid Hne1 Hne2. destruct eventIndex as [i'|]; [|discriminate].
    destruct (Z.leb_spec 0 i') as [Hpos|]; [|discriminate]. injection Hvalid as ->.
    destruct (String.eqb_spec (JS.trim editText) EmptyString); [contradiction|].
    destruct (String.eqb_spec (JS.trim editText) (action event_)); [contradiction|].
    cbn [negb andb].
    assert (Hsave : match ensureEventHistory ensureTime i state with
                    | JS.Ok state1 =>
                        addEventHistoryVersion seedTime now i
                          (Action {| action := JS.trim editText |}) edit state1
                    | JS.Thrown e => JS.Thrown e
                    end = addEventHistoryVersion ensureTime now i saved edit state).
    { unfold ensureEventHistory. destruct (Z.ltb_spec i 0); [lia|].
      by apply add_after_ensure. }
    rewrite Hsave. split; [reflexivity|]. intros Hr.
    assert (∃ h0, historyAt (initHistory ensureTime i state) i = Some h0) as [h0 Hh0].
    { rewrite initHistory_historyAt, Hr. destruct (historyAt state i); eauto. }
    rewrite (addEventHistoryVersion_pushes _ _ _ _ _ _ _ Hpos Hh0).
    eexists _, _. split; [reflexivity|]. split; [by apply read_write_eq|].
    split; [apply historyAt_withHistory_eq|]. split; [apply last_snoc|].
    intros t1 t2 t3. cbn [action]. by rewrite String.eqb_refl.
Qed.

(** X19. What [handleShowHistory] of the event views does to the store: with
    no position, or a negative one, nothing; otherwise it never writes the
    log; where the position has a history (as it has whenever the history
    button is there, which needs more than one version) it changes nothing
    at all; and where it has none but an event, it starts the history with
    that event as the only version. *)
Theorem handleShowHistory_only_starts_a_missing_history (now : Z)
    (eventIndex : option Z) (state : State) :
  ∃ state',
    handleShowHistory now eventIndex state = JS.Ok state' ∧
    events state' = events state ∧
    (validEventIndex eventIndex = None → state' = state) ∧
    (∀ i history, eventIndex = Some i → historyAt state i = Some history →
       state' = state) ∧
    (∀ i event_, eventIndex = Some i → 0 <= i → historyAt state i = None →
       JS.read (events state) i = Some event_ →
       historyAt state' i =
         Some {| entries := [seedEntry now event_]; currentVersionIndex := 0 |}).
Proof.
  unfold handleShowHistory, validEventIndex, ensureEventHistory.
  destruct eventIndex as [i|]; [|exists state; repeat split; discriminate].
  destruct (Z.leb_spec 0 i) as [Hpos|Hneg].
  - destruct (Z.ltb_spec i 0); [lia|]. eexists. split; [reflexivity|].
    split; [reflexivity|]. split; [discriminate|]. split.
    + intros i0 history [= <-] Hh. apply initHistory_same; [|left; rewrite Hh; eauto].
      unfold historyAt, historyStore in Hh. destruct (eventHistory state); [eauto|].
      cbn in Hh. rewrite lookup_empty in Hh. discriminate.
    + intros i0 event_ [= <-] _ Hh Hr. by rewrite initHistory_historyAt, Hh, Hr.
  - exists state. split; [reflexivity|]. split; [reflexivity|]. split; [done|].
    split; [done|]. intros i0 event_ [= <-] ?. lia.
Qed.

(** ** Deleting two events *)

Lemma splice1_splice1 {A : Type} (arr : list A) (p q : Z) :
  0 <= q < p →
  JS.splice1 (JS.splice1 arr p) q = JS.splice1 (JS.splice1 arr q) (p - 1).
Proof.
  intros Hqp. apply list_eq. intros i.
  rewrite !lookup_splice1 by lia.
  destruct (Z.ltb_spec (Z.of_nat i) q), (Z.ltb_spec (Z.of_nat i) (p - 1)),
    (Z.ltb_spec (Z.of_nat i) p), (Z.ltb_spec (Z.of_nat (S i)) p),
    (Z.ltb_spec (Z.of_nat (S i)) q); try lia; reflexivity.
Qed.

(** [deleteEvent] keeps an absent [eventHistory] absent and a present one
    present. *)
Lemma deleteEvent_eventHistory (eventIndex : Z) (state state' : State) :
  deleteEvent eventIndex state = JS.Ok state' →
  eventHistory state' =
  match eventHistory state with
  | Some _ => Some (historyStore state')
  | None => None
  end.
Proof.
  unfold deleteEvent, historyStore. destruct (eventIndex <? 0).
  - intros [= <-]. by destruct (eventHistory state).
  - intros [= <-]. cbn. destruct (eventHistory state) as [m|]; [|reflexivity].
    by destruct (m !! JS.String_ eventIndex).
Qed.

(** X20. Two events can be deleted in either order: deleting the event at
    [p] and then the one at [q < p] gives the same state as deleting the
    one at [q] first and then the one that has moved to [p - 1]; the log,
    the histories and their keys are the same. *)
Theorem deleteEvent_twice_in_either_order (p q : Z) (state : State) :
  keysArePositions state → 0 <= q < p →
  ∃ state1 state2 state3,
    deleteEvent p state = JS.Ok state1 ∧
    deleteEvent q state1 = JS.Ok state2 ∧
    deleteEvent q state = JS.Ok state3 ∧
    deleteEvent (p - 1) state3 = JS.Ok state2.
Proof.
  intros Hkeys Hqp.
  destruct (deleteEvent_result p state ltac:(lia)) as (s1 & Hs1 & Ho1 & Hp1 & He1 & _).
  destruct (deleteEvent_result q s1 ltac:(lia)) as (s2 & Hs2 & Ho2 & Hp2 & He2 & _).
  destruct (deleteEvent_result q state ltac:(lia)) as (t1 & Ht1 & Ho3 & Hp3 & He3 & _).
  destruct (deleteEvent_result (p - 1) t1 ltac:(lia)) as (t2 & Ht2 & Ho4 & Hp4 & He4 & _).
  exists s1, s2, t1. split; [exact Hs1|]. split; [exact Hs2|]. split; [exact Ht1|].
  rewrite Ht2. f_equal.
  pose proof (deleteEvent_keysArePositions _ _ _ Hkeys Hs1) as Hk1.
  pose proof (deleteEvent_keysArePositions _ _ _ Hk1 Hs2) as Hk2.
  pose proof (deleteEvent_keysArePositions _ _ _ Hkeys Ht1) as Hk3.
  pose proof (deleteEvent_keysArePositions _ _ _ Hk3 Ht2) as Hk4.
  assert (Hstore : historyStore t2 = historyStore s2).
  { apply store_ext; [exact Hk4|exact Hk2|]. intros j.
    change (historyAt t2 j = historyAt s2 j).
    rewrite (deleteEvent_historyAt (p - 1) t1 t2) by (lia || assumption).
    rewrite (deleteEvent_historyAt q s1 s2) by (lia || assumption).
    rewrite !(deleteEvent_historyAt q state t1) by (lia || assumption).
    rewrite !(deleteEvent_historyAt p state s1) by (lia || assumption).
    destruct (Z.ltb_spec j (p - 1)), (Z.ltb_spec j q), (Z.ltb_spec j p),
      (Z.ltb_spec (j + 1) q), (Z.ltb_spec (j + 1) p); try lia; reflexivity. }
  apply state_ext.
  - congruence.
  - rewrite He4, He3, He2, He1. symmetry. by apply splice1_splice1.
  - rewrite (deleteEvent_eventHistory _ _ _ Ht2), (deleteEvent_eventHistory _ _ _ Ht1).
    rewrite (deleteEvent_eventHistory _ _ _ Hs2), (deleteEvent_eventHistory _ _ _ Hs1).
    destruct (eventHistory state); [by rewrite Hstore|reflexivity].
  - congruence.
Qed.

(** ** Every handler keeps the invariant *)

(** Writing [historyPagination] alone keeps a state consistent. *)
Lemma consistent_pagination (state : State) (pagination : option HistoryPagination) :
  consistent state →
  consistent {| others := others state;
                events := events state;
                eventHistory := eventHistory state;
                historyPagination := pagination |}.
Proof. intros Hc. exact Hc. Qed.

(** X21. Whatever is clicked in the event views and in the history viewer,
    the handler returns without an exception and leaves the store
    consistent, if it was: [handleSave], [handleShowHistory] and
    [handleDelete] of the event views, the four handlers of the viewer, and
    the two functions that write the pagination state. *)
Theorem handlers_keep_the_store_consistent (state : State) :
  consistent state →
  (∀ t1 t2 t3 editText event_ eventIndex,
     completesWith (handleSave t1 t2 t3 editText event_ eventIndex state) consistent) ∧
  (∀ now eventIndex, completesWith (handleShowHistory now eventIndex state) consistent) ∧
  (∀ eventIndex, completesWith (handleDelete eventIndex state) consistent) ∧
  (∀ eventIndex page row,
     completesWith (handleSelectVersion eventIndex page row state) consistent) ∧
  (∀ eventIndex page row, ∃ page' state',
     handleDeleteVersion eventIndex page row state = JS.Ok (page', state') ∧
     consistent state') ∧
  (∀ eventIndex page, ∃ page' state',
     handlePrevious eventIndex page state = JS.Ok (page', state') ∧ consistent state') ∧
  (∀ eventIndex page, ∃ page' state',
     handleNext eventIndex page state = JS.Ok (page', state') ∧ consistent state') ∧
  (∀ eventIndex page pageSize,
     completesWith (setHistoryPagination eventIndex page pageSize state) consistent) ∧
  completesWith (clearHistoryPagination state) consistent.
Proof.
  intros Hc. repeat apply conj.
  - intros t1 t2 t3 editText event_ eventIndex. unfold handleSave.
    destruct eventIndex as [i|]; [|by exists state].
    destruct (_ && _); [|by exists state].
    destruct (ensureEventHistory_consistent t1 i state Hc) as (s1 & -> & Hc1).
    by apply addEventHistoryVersion_consistent.
  - intros now eventIndex. unfold handleShowHistory.
    destruct eventIndex as [i|]; [|by exists state].
    destruct (0 <=? i); [by apply ensureEventHistory_consistent|by exists state].
  - intros eventIndex. unfold handleDelete.
    destruct eventIndex as [i|]; [|by exists state].
    destruct (0 <=? i); [by apply deleteEvent_consistent|by exists state].
  - intros eventIndex page row. by apply selectEventHistoryVersion_consistent.
  - intros eventIndex page row. unfold handleDeleteVersion.
    destruct (deleteEventHistoryVersion_consistent eventIndex
                (actualVersionIndex page row) state Hc) as (s1 & -> & Hc1).
    destruct (historyAt s1 eventIndex); [|by eexists _, _].
    destruct (_ && _); [|by eexists _, _].
    eexists _, _. split; [reflexivity|]. by apply consistent_pagination.
  - intros eventIndex page. unfold handlePrevious.
    destruct (0 <? page); [|by eexists _, _].
    eexists _, _. split; [reflexivity|]. by apply consistent_pagination.
  - intros eventIndex page. unfold handleNext.
    destruct (JS.Num_lt _ _); [|by eexists _, _].
    eexists _, _. split; [reflexivity|]. by apply consistent_pagination.
  - intros eventIndex page pageSize. eexists. split; [reflexivity|].
    by apply consistent_pagination.
  - eexists. split; [reflexivity|]. by apply consistent_pagination.
Qed.

(** ** More about the example states *)

Lemma latestState_consistent (o : Others) : consistent (latestState o).
Proof.
  split.
  - intros key h. unfold historyStore, latestState. cbn [eventHistory default from_option id].
    intros [<- _]%lookup_singleton_Some. eauto.
  - intros p h. unfold historyAt, historyStore, latestState.
    cbn [eventHistory default from_option id].
    intros [Hp%String_inj <-]%lookup_singleton_Some. subst p. split.
    + unfold versionInRange. cbn. lia.
    + eexists. split; reflexivity.
Qed.

Lemma editedState_dense (o : Others) : dense (editedState o).
Proof.
  intros [|[|[|i]]] cell; cbn; intros [= <-]; eauto.
Qed.

Lemma oddKeysState_keysReadSafely (o : Others) : keysReadSafely (oddKeysState o).
Proof.
  intros key history i. unfold historyStore, oddKeysState, safeInteger.
  cbn [eventHistory default from_option id].
  intros [[<- _]|[_ [[<- _]|[_ [[<- _]|[_ H]]%lookup_insert_Some]]%lookup_insert_Some]]%lookup_insert_Some;
    [| | |by rewrite lookup_empty in H];
    intros Hp; vm_compute in Hp; first [discriminate Hp|injection Hp as <-; lia].
Qed.

(** ** The example states satisfy the invariants *)

Lemma editedState_consistent (o : Others) : consistent (editedState o).
Proof.
  split.
  - intros key h. unfold historyStore, editedState. cbn [eventHistory default from_option id].
    intros [<- _]%lookup_singleton_Some. eauto.
  - intros p h. unfold historyAt, historyStore, editedState.
    cbn [eventHistory default from_option id].
    intros [Hp%String_inj <-]%lookup_singleton_Some. subst p. split.
    + unfold versionInRange. cbn. lia.
    + eexists. split; reflexivity.
Qed.

Lemma editedState_historiesNonEmpty (o : Others) : historiesNonEmpty (editedState o).
Proof.
  intros key h. unfold historyStore, editedState. cbn [eventHistory default from_option id].
  intros [_ <-]%lookup_singleton_Some. cbn. lia.
Qed.

Lemma sparseState_keysArePositions (o : Others) : keysArePositions (sparseState o).
Proof.
  intros key h. unfold sparseState, historyStore. cbn [eventHistory default from_option id].
  rewrite !lookup_insert_Some, lookup_empty.
  intros [[<- _]|[_ [[<- _]|[_ [[<- _]|[_ [=]]]]]]]; eauto.
Qed.

End History.

Arguments Action {_ _ _} e.
Arguments Narration {_ _ _} e.
Arguments CharacterIntroduction {_ _ _} e.
Arguments LocationChange {_ _ _} e.
Arguments actionEvent {_ _ _} text.
Arguments Build_EventHistoryEntry {_ _ _} event timestamp type.
Arguments event {_ _ _} e.
Arguments timestamp {_ _ _} e.
Arguments type {_ _ _} e.
Arguments Build_EventHistory {_ _ _} entries currentVersionIndex.
Arguments entries {_ _ _} e.
Arguments currentVersionIndex {_ _ _} e.
Arguments Build_State {_ _ _ _} others events eventHistory historyPagination.
Arguments others {_ _ _ _} s.
Arguments events {_ _ _ _} s.
Arguments eventHistory {_ _ _ _} s.
Arguments historyPagination {_ _ _ _} s.
Arguments historyStore {_ _ _ _} state.
Arguments historyAt {_ _ _ _} state eventIndex.
Arguments withHistory {_ _ _ _} state key history events_.
Arguments seedEntry {_ _ _} now event_.
Arguments initHistory {_ _ _ _} now eventIndex state.
Arguments ensureEventHistory {_ _ _ _} now eventIndex state.
Arguments addEventHistoryVersion {_ _ _ _} seedTime now eventIndex newEvent type_ state.
Arguments selectEventHistoryVersion {_ _ _ _} eventIndex versionIndex state.
Arguments deleteEventHistoryVersion {_ _ _ _} eventIndex versionIndex state.
Arguments rekey {_ _ _} eventIndex histKey histValue newHistory.
Arguments rekeyLoop {_ _ _} eventIndex histories.
Arguments deleteEvent {_ _ _ _} eventIndex state.
Arguments getEventHistoryPage {_ _ _ _} eventIndex page pageSize state.
Arguments getEventHistoryPageCount {_ _ _ _} eventIndex pageSize state.
Arguments Resolve {_ _ _ _}.
Arguments Reject {_ _ _ _} error.
Arguments Mutate {_ _ _ _} f rest.
Arguments Inspect {_ _ _ _} rest.
Arguments Publish {_ _ _ _} f rest.
Arguments Await {_ _ _ _} rest.
Arguments runUpdater {_ _ _ _} updater outside draft stored.
Arguments setAsync {_ _ _ _} updater outside stored.
Arguments versionInRange {_ _ _} history.
Arguments mirrorsLog {_ _ _ _} state eventIndex history.
Arguments keysArePositions {_ _ _ _} state.
Arguments consistent {_ _ _ _} state.
Arguments historiesNonEmpty {_ _ _ _} state.
Arguments EnsureHistory {_ _ _} now eventIndex.
Arguments AddVersion {_ _ _} seedTime now eventIndex newEvent type_.
Arguments SelectVersion {_ _ _} eventIndex versionIndex.
Arguments DeleteVersion {_ _ _} eventIndex versionIndex.
Arguments DeleteEvent {_ _ _} eventIndex.
Arguments perform {_ _ _ _} op state.
Arguments reachable {_ _ _ _} init _.
Arguments freshState {_ _ _ _} o.
Arguments latestState {_ _ _ _} o.
Arguments strayState {_ _ _ _} o.
Arguments editedState {_ _ _ _} o.
Arguments versions {_ _ _} n.
Arguments versionedState {_ _ _ _} o n current.
Arguments sparseState {_ _ _ _} o.
Arguments failingUpdater {_ _ _ _}.
Arguments openViewer {_ _ _ _} stored.

Arguments setHistoryPagination {_ _ _ _} eventIndex page pageSize state.
Arguments clearHistoryPagination {_ _ _ _} state.
Arguments pageEntries {_ _ _ _} eventIndex page state.
Arguments isCurrent {_ _ _} history page entryIndex.
Arguments hasMultipleVersions {_ _ _} history.
Arguments handlePrevious {_ _ _ _} eventIndex page state.
Arguments handleNext {_ _ _ _} eventIndex page state.
Arguments handleSelectVersion {_ _ _ _} eventIndex page entryIndex state.
Arguments handleDeleteVersion {_ _ _ _} eventIndex page entryIndex state.
Arguments handleShowHistory {_ _ _ _} now eventIndex state.
Arguments handleDelete {_ _ _ _} eventIndex state.
Arguments handleSave {_ _ _ _} ensureTime seedTime now editText event_ eventIndex state.
Arguments dense {_ _ _ _} state.
Arguments positionOf {_ _ _} op.
Arguments isDeleteEvent {_ _ _} op.
Arguments pageShown {_ _ _ _} eventIndex page state.
Arguments oddKeysState {_ _ _ _} o.
Arguments keysReadSafely {_ _ _ _} state.
Arguments pageOutOfRange {_ _ _} history page pageSize.

(** * The properties at work on the example states *)

Local Abbreviation State0 := (State unit unit unit unit).

Lemma operations_keep_log_and_current_version_equal_witness :
  consistent (editedState tt : State0) ∧
  ∃ state' : State0,
    perform (DeleteVersion 1 1) (editedState tt) = JS.Ok state' ∧ consistent state'.
Proof.
  split; [apply editedState_consistent|].
  destruct (operations_keep_log_and_current_version_equal unit unit unit unit
              (DeleteVersion 1 1) (editedState tt) (editedState_consistent _ _ _ _ tt))
    as (state' & Hrun & Hc & _).
  exists state'. split; [exact Hrun|exact Hc].
Defined.

Lemma deleteEvent_splices_log_and_rekeys_store_witness :
  0 <= 2 ∧ keysArePositions (sparseState tt : State0) ∧
  ∃ state' : State0,
    deleteEvent 2 (sparseState tt) = JS.Ok state' ∧
    dom (historyStore state') = {[JS.String_ 1; JS.String_ 3]} ∧
    Z.of_nat (length (events state')) = 5 - 1.
Proof.
  split; [lia|]. split; [apply sparseState_keysArePositions|].
  destruct (deleteEvent_splices_log_and_rekeys_store unit unit unit unit
              2 (sparseState tt) ltac:(lia) (sparseState_keysArePositions _ _ _ _ tt))
    as (state' & Hrun & _ & _ & Hlen & _ & _ & _ & _ & _ & Hdom).
  exists state'. split; [exact Hrun|]. split.
  - apply Hdom; [reflexivity|].
    unfold sparseState, historyStore. cbn [eventHistory default from_option id].
    rewrite !dom_insert_L, dom_empty_L. set_solver.
  - apply Hlen. cbn. lia.
Defined.

Lemma deleteVersion_adjusts_pointer_witness :
  ∃ (history : EventHistory unit unit unit) (state' : State0) history',
    historyAt (editedState tt) 1 = Some history ∧
    (1 < length (entries history))%nat ∧
    currentVersionIndex history = 1 ∧
    deleteEventHistoryVersion 1 1 (editedState tt) = JS.Ok state' ∧
    historyAt state' 1 = Some history' ∧
    currentVersionIndex history' = 0 ∧
    ∃ entry, events state' = JS.write (events (editedState tt : State0)) 1 (event entry).
Proof.
  eexists.
  assert (Hh : historyAt (editedState tt : State0) 1 = Some _) by reflexivity.
  destruct (deleteVersion_adjusts_pointer unit unit unit unit 1 1 (editedState tt) _
              ltac:(lia) Hh ltac:(cbn; lia) ltac:(cbn; lia))
    as (state' & history' & Hrun & Hat & _ & Hcurrent & _).
  destruct (Hcurrent eq_refl) as (Hcur & entry & _ & Hev & _).
  exists state', history'. split; [exact Hh|]. split; [cbn; lia|]. split; [reflexivity|].
  split; [exact Hrun|]. split; [exact Hat|]. split; [exact Hcur|].
  exists entry. exact Hev.
Defined.

Lemma histories_never_become_empty_witness :
  historiesNonEmpty (editedState tt : State0) ∧
  ∃ state' : State0,
    perform (DeleteVersion 1 0) (editedState tt) = JS.Ok state' ∧ historiesNonEmpty state'.
Proof.
  split; [apply editedState_historiesNonEmpty|].
  destruct (histories_never_become_empty unit unit unit unit
              (DeleteVersion 1 0) (editedState tt)
              (editedState_historiesNonEmpty _ _ _ _ tt)) as [Hkeep _].
  exact Hkeep.
Defined.

Lemma setAsync_rolls_back_and_rethrows_witness :
  ∃ stored' : State0,
    runUpdater failingUpdater [openViewer] (freshState tt) (freshState tt)
      = (JS.Thrown (JS.Error "generation failed"), stored') ∧
    stored' ≠ freshState tt ∧
    setAsync failingUpdater [openViewer] (freshState tt : State0)
      = (JS.Thrown (JS.Error "generation failed"), freshState tt).
Proof.
  eexists. split; [reflexivity|]. split; [discriminate|].
  destruct (setAsync_rolls_back_and_rethrows unit unit unit unit
              failingUpdater [openViewer] (freshState tt)) as [Hthrow _].
  eapply Hthrow. reflexivity.
Defined.

Lemma invalid_calls_are_ignored_witness :
  consistent (editedState tt : State0) ∧
  selectEventHistoryVersion (-1) 0 (editedState tt : State0) = JS.Ok (editedState tt) ∧
  deleteEventHistoryVersion 1 3 (editedState tt : State0) = JS.Ok (editedState tt) ∧
  ∃ state' : State0,
    addEventHistoryVersion 40 50 7 (actionEvent "fly") edit (editedState tt) = JS.Ok state' ∧
    state' = editedState tt.
Proof.
  split; [apply editedState_consistent|].
  destruct (invalid_calls_are_ignored unit unit unit unit (editedState tt)
              (editedState_consistent _ _ _ _ tt))
    as (_ & _ & Hneg & _ & Hrange & _ & _ & Hadd).
  split; [apply (Hneg (-1) 0); lia|].
  split.
  - eapply (Hrange 1 3); [reflexivity|]. right. cbn. lia.
  - destruct (Hadd 40 50 7 (actionEvent "fly") edit) as (state' & Hrun & _ & _ & Hsame);
      [reflexivity|].
    exists state'. split; [exact Hrun|]. apply Hsame. by eexists.
Defined.

Lemma ensureEventHistory_idempotent_and_store_only_witness :
  ∃ state' : State0,
    ensureEventHistory 5 0 (freshState tt) = JS.Ok state' ∧
    ensureEventHistory 6 0 state' = JS.Ok state' ∧
    events state' = events (freshState tt : State0) ∧
    historyStore state' =
      {[ JS.String_ 0 := {| entries := [{| event := actionEvent "go north";
                                           timestamp := 5;
                                           type := edit |}];
                            currentVersionIndex := 0 |} ]}.
Proof.
  destruct (ensureEventHistory_idempotent_and_store_only unit unit unit unit
              5 0 (freshState tt)) as (state' & Hrun & Hagain & Hev & _ & _ & Hseed).
  exists state'. split; [exact Hrun|]. split; [apply Hagain|]. split; [exact Hev|].
  rewrite (Hseed (actionEvent "go north")); reflexivity.
Defined.

Lemma add_select_first_select_last_restores_witness :
  JS.read (events (freshState tt : State0)) 0 = Some (actionEvent "go north") ∧
  ∃ state1 state2 state3 : State0,
    addEventHistoryVersion 5 6 0 (actionEvent "go east") edit (freshState tt)
      = JS.Ok state1 ∧
    selectEventHistoryVersion 0 0 state1 = JS.Ok state2 ∧
    JS.read (events state3) 0 = Some (actionEvent "go east").
Proof.
  split; [reflexivity|].
  destruct (add_select_first_select_last_restores unit unit unit unit 5 6 0
              (actionEvent "go east") (actionEvent "go north") (freshState tt) eq_refl)
    as (state1 & state2 & state3 & history & Hadd & Hfirst & _ & _ & _ & Hlog).
  exists state1, state2, state3. split; [exact Hadd|]. split; [exact Hfirst|exact Hlog].
Defined.

Lemma pagination_slices_and_counts_witness :
  length (getEventHistoryPage 0 2 5 (versionedState tt 12 11 : State0)) = 2%nat ∧
  getEventHistoryPage 0 5 5 (versionedState tt 12 11 : State0) = [] ∧
  ∃ count,
    getEventHistoryPageCount 0 5 (versionedState tt 12 11 : State0) = JS.Finite count ∧
    (count - 1) * 5 < 12 <= count * 5.
Proof.
  assert (Hh : historyAt (versionedState tt 12 11 : State0) 0 =
               Some {| entries := versions 12; currentVersionIndex := 11 |}) by reflexivity.
  destruct (pagination_slices_and_counts unit unit unit unit 0 2 5 (versionedState tt 12 11))
    as (_ & Hpage & _).
  destruct (Hpage _ Hh) as [_ Hin].
  destruct Hin as (Htake & _ & _ & Hcount); [lia..|].
  destruct (pagination_slices_and_counts unit unit unit unit 0 5 5 (versionedState tt 12 11))
    as (_ & Hlast & _).
  destruct (Hlast _ Hh) as [_ Hout].
  destruct Hout as (_ & _ & Hempty & _); [lia..|].
  split; [rewrite Htake; reflexivity|]. split; [apply Hempty; cbn; lia|exact Hcount].
Defined.

(** The claim C9 as it was written fails: no index of the range asked for
    is a position of the twelve entries, and yet the page holds entries.
    Page [-2] of size 5 asks for the indices -10 to -6 and gets the entries
    2 to 6; page 0 of size -1 asks for an empty range and gets the entries
    0 to 10. *)
Lemma pagination_out_of_range_counterexample :
  historyAt (versionedState tt 12 11 : State0) 0 =
    Some {| entries := versions 12; currentVersionIndex := 11 |} ∧
  pageOutOfRange ({| entries := versions 12; currentVersionIndex := 11 |}
                  : EventHistory unit unit unit) (-2) 5 ∧
  getEventHistoryPage 0 (-2) 5 (versionedState tt 12 11 : State0)
    = take 5 (drop 2 (versions 12)) ∧
  getEventHistoryPage 0 (-2) 5 (versionedState tt 12 11 : State0) ≠ [] ∧
  pageOutOfRange ({| entries := versions 12; currentVersionIndex := 11 |}
                  : EventHistory unit unit unit) 0 (-1) ∧
  getEventHistoryPage 0 0 (-1) (versionedState tt 12 11 : State0)
    = take 11 (versions 12) ∧
  getEventHistoryPage 0 0 (-1) (versionedState tt 12 11 : State0) ≠ [].
Proof.
  split; [reflexivity|].
  split; [intros i Hi Hin; cbn in Hin; lia|].
  split; [reflexivity|]. split; [discriminate|].
  split; [intros i Hi Hin; lia|].
  split; [reflexivity|discriminate].
Qed.

Lemma addVersion_without_event_is_noop_witness :
  0 <= 3 ∧
  historyAt (freshState tt : State0) 3 = None ∧
  JS.read (events (freshState tt : State0)) 3 = None ∧
  addEventHistoryVersion 5 6 3 (actionEvent "go east") edit (freshState tt : State0)
    = JS.Ok (freshState tt).
Proof.
  split; [lia|]. split; [reflexivity|]. split; [reflexivity|].
  destruct (addVersion_without_event_is_noop unit unit unit unit 5 6 3
              (actionEvent "go east") edit (freshState tt) ltac:(lia) eq_refl eq_refl)
    as (state' & Hrun & _ & _ & _ & _ & Hsame).
  rewrite Hrun. f_equal. apply Hsame. by eexists.
Defined.

(** ** The examples of the specification, computed *)

Example String_examples :
  JS.String_ 0 = "0" ∧ JS.String_ 42 = "42" ∧ JS.String_ (-7) = "-7".
Proof. by repeat split. Qed.

Example parseInt10_examples :
  JS.parseInt10 "42" = Some 42 ∧ JS.parseInt10 " -7px" = Some (-7) ∧
  JS.parseInt10 "07" = Some 7 ∧ JS.parseInt10 "px" = None ∧ JS.parseInt10 "" = None.
Proof. by repeat split. Qed.

(** A write past the end leaves holes; a splice past the end removes nothing. *)
Example array_examples :
  JS.write [Some 1; Some 2] 4 9 = [Some 1; Some 2; None; None; Some 9] ∧
  JS.read (JS.write [Some 1; Some 2] 4 9) 3 = None ∧
  JS.splice1 [1; 2; 3] 1 = [1; 3] ∧
  JS.splice1 [1; 2; 3] 3 = [1; 2; 3].
Proof. by repeat split. Qed.

(** Re-keying: histories at 1, 2 and 4; [deleteEvent(2)] leaves histories at
    1 and 3, the one that was at 4 now at 3, and four events. *)
Example deleteEvent_rekeys_example :
  ∃ state' : State0,
    deleteEvent 2 (sparseState tt) = JS.Ok state' ∧
    events state' = [Some (actionEvent "a"); Some (actionEvent "b");
                     Some (actionEvent "d"); Some (actionEvent "e")] ∧
    historyAt state' 1 = historyAt (sparseState tt : State0) 1 ∧
    historyAt state' 2 = None ∧
    historyAt state' 3 = historyAt (sparseState tt : State0) 4 ∧
    historyAt state' 4 = None.
Proof. eexists. by repeat split. Qed.

(** Pointer adjustment: three versions, the last one current. *)
Example deleteVersion_before_current_example :
  ∃ (state' : State0) history',
    deleteEventHistoryVersion 1 1 (latestState tt) = JS.Ok state' ∧
    historyAt state' 1 = Some history' ∧
    currentVersionIndex history' = 1 ∧
    length (entries history') = 2%nat ∧
    events state' = events (latestState tt : State0).
Proof. eexists _, _. by repeat split. Qed.

Example deleteVersion_current_example :
  ∃ (state' : State0) history',
    deleteEventHistoryVersion 1 2 (latestState tt) = JS.Ok state' ∧
    historyAt state' 1 = Some history' ∧
    currentVersionIndex history' = 1 ∧
    JS.read (events state') 1 = Some (actionEvent "go east").
Proof. eexists _, _. by repeat split. Qed.

Example deleteVersion_first_example :
  ∃ (state' : State0) history',
    deleteEventHistoryVersion 1 0 (latestState tt) = JS.Ok state' ∧
    historyAt state' 1 = Some history' ∧
    currentVersionIndex history' = 1 ∧
    events state' = events (latestState tt : State0).
Proof. eexists _, _. by repeat split. Qed.

(** Deleting the first version while it is current keeps index 0 current
    and shows what is the first version then. *)
Example deleteVersion_first_current_example :
  ∃ (state1 state2 : State0) history',
    selectEventHistoryVersion 1 0 (latestState tt) = JS.Ok state1 ∧
    deleteEventHistoryVersion 1 0 state1 = JS.Ok state2 ∧
    historyAt state2 1 = Some history' ∧
    currentVersionIndex history' = 0 ∧
    JS.read (events state2) 1 = Some (actionEvent "go east").
Proof. eexists _, _, _. by repeat split. Qed.

(** Pagination: twelve versions in pages of five. *)
Example pagination_example :
  getEventHistoryPageCount 0 defaultPageSize (versionedState tt 12 11 : State0) = JS.Finite 3 ∧
  (timestamp <$> getEventHistoryPage 0 2 5 (versionedState tt 12 11 : State0)) = [10; 11] ∧
  getEventHistoryPage 0 5 5 (versionedState tt 12 11 : State0) = [] ∧
  getEventHistoryPage 3 0 5 (versionedState tt 12 11 : State0) = [] ∧
  getEventHistoryPageCount 3 5 (versionedState tt 12 11 : State0) = JS.Finite 0.
Proof. by repeat split. Qed.

(** [ensureEventHistory] twice in a row: one history of one version. *)
Example ensure_twice_example :
  ∃ (state1 : State0) history,
    ensureEventHistory 5 0 (freshState tt) = JS.Ok state1 ∧
    ensureEventHistory 6 0 state1 = JS.Ok state1 ∧
    historyAt state1 0 = Some history ∧
    length (entries history) = 1%nat.
Proof. eexists _, _. by repeat split. Qed.

(** A history started from a narration has a first version of type
    [regenerate], one started from an action a first version of type
    [edit]. *)
Example seed_type_example :
  type (seedEntry 5 (Narration tt : Event unit unit unit)) = regenerate ∧
  type (seedEntry 5 (actionEvent "go north" : Event unit unit unit)) = edit.
Proof. by split. Qed.

(** Whatever the order of the entries, the loop of [deleteEvent] builds the
    same store. *)
Example rekeyLoop_order_example :
  let h (n : Z) : EventHistory unit unit unit :=
    {| entries := versions 1; currentVersionIndex := n |} in
  rekeyLoop 2 [("1", h 1); ("2", h 2); ("4", h 4)] =
  rekeyLoop 2 [("4", h 4); ("1", h 1); ("2", h 2)].
Proof. reflexivity. Qed.

(** End to end: edit the only event, then delete it. *)
Example edit_then_delete_example :
  ∃ (state1 state2 : State0) history,
    addEventHistoryVersion 5 6 0 (actionEvent "go east") edit (freshState tt) = JS.Ok state1 ∧
    historyAt state1 0 = Some history ∧
    length (entries history) = 2%nat ∧
    currentVersionIndex history = 1 ∧
    events state1 = [Some (actionEvent "go east")] ∧
    deleteEvent 0 state1 = JS.Ok state2 ∧
    events state2 = [] ∧
    historyAt state2 0 = None.
Proof. eexists _, _, _. by repeat split. Qed.

(** Why the invariant is assumed where a negative position is ignored:
    [selectEventHistoryVersion] has no guard on the position, and finds the
    history of a state that has one keyed at [-1]. *)
Example select_negative_in_stray_state :
  ∃ (state' : State0) history',
    selectEventHistoryVersion (-1) 0 (strayState tt) = JS.Ok state' ∧
    historyAt state' (-1) = Some history' ∧
    currentVersionIndex history' = 0 ∧
    ¬ consistent (strayState tt : State0).
Proof.
  eexists _, _. repeat split.
  intros Hc. by pose proof (consistent_negative _ _ _ _ _ (-1) Hc ltac:(lia)).
Qed.

(** ** The further properties at work on the example states *)

Lemma history_operations_are_local_witness :
  ∃ state' : State0,
    perform (SelectVersion 1 0) (editedState tt) = JS.Ok state' ∧
    JS.read (events state') 0 = Some (actionEvent "go north") ∧
    JS.read (events state') 1 = Some (actionEvent "go west") ∧
    historyPagination state' = None.
Proof.
  eexists. split; [reflexivity|].
  destruct (history_operations_are_local unit unit unit unit (SelectVersion 1 0)
              (editedState tt) _ eq_refl) as (_ & Hp & Hloc).
  destruct (Hloc eq_refl) as [_ Hread].
  split; [rewrite Hread by (cbn; lia); reflexivity|]. split; [reflexivity|exact Hp].
Defined.

Lemma addVersion_appends_witness :
  0 <= 1 ∧
  ∃ state' : State0,
    addEventHistoryVersion 40 50 1 (actionEvent "fly") edit (editedState tt) = JS.Ok state' ∧
    JS.read (events state') 1 = Some (actionEvent "fly").
Proof.
  split; [lia|].
  destruct (addVersion_appends unit unit unit unit 40 50 1 (actionEvent "fly") edit
              (editedState tt) ltac:(lia)) as [Hold _].
  destruct (Hold _ eq_refl) as (state' & Hrun & _ & Hread).
  exists state'. by split.
Defined.

Lemma select_last_selection_wins_witness :
  ∃ state1 : State0,
    selectEventHistoryVersion 1 0 (editedState tt) = JS.Ok state1 ∧
    selectEventHistoryVersion 1 2 state1 = selectEventHistoryVersion 1 2 (editedState tt).
Proof.
  assert (Hh : historyAt (editedState tt : State0) 1 = Some _) by reflexivity.
  destruct (select_last_selection_wins unit unit unit unit 1 0 2 (editedState tt) _ Hh
              ltac:(cbn; lia) ltac:(cbn; lia)) as (state1 & Hsel & _ & Hwins & _).
  exists state1. by split.
Defined.

Lemma deleteVersion_keeps_shown_version_witness :
  ∃ (state' : State0) history',
    deleteEventHistoryVersion 1 0 (editedState tt) = JS.Ok state' ∧
    historyAt state' 1 = Some history' ∧
    event <$> entries history' !! Z.to_nat (currentVersionIndex history')
      = Some (actionEvent "go east").
Proof.
  assert (Hh : historyAt (editedState tt : State0) 1 = Some _) by reflexivity.
  destruct (deleteVersion_keeps_shown_version unit unit unit unit 1 0 (editedState tt) _ Hh
              ltac:(unfold versionInRange; cbn; lia) ltac:(cbn; lia) ltac:(cbn; lia))
    as (state' & history' & Hrun & Hat & _ & _ & Hsame & _).
  exists state', history'. split; [exact Hrun|]. split; [exact Hat|].
  rewrite Hsame by (cbn; lia). reflexivity.
Defined.

Lemma deleteEvent_past_the_end_is_noop_witness :
  consistent (editedState tt : State0) ∧
  Z.of_nat (length (events (editedState tt : State0))) <= 7 ∧
  deleteEvent 7 (editedState tt : State0) = JS.Ok (editedState tt).
Proof.
  split; [apply editedState_consistent|]. split; [cbn; lia|].
  apply (deleteEvent_past_the_end_is_noop unit unit unit unit 7 (editedState tt));
    [apply editedState_consistent|cbn; lia].
Defined.

Lemma deleteEvent_drops_unreadable_keys_witness :
  0 <= 1 < 2 ^ 53 ∧ keysReadSafely (oddKeysState tt : State0) ∧
  rekeyLoop 1 (rev (map_to_list (delete (JS.String_ 1)
                                   (historyStore (oddKeysState tt : State0)))))
    !! "draft" = None.
Proof.
  split; [lia|]. split; [apply oddKeysState_keysReadSafely|].
  destruct (deleteEvent_drops_unreadable_keys unit unit unit unit 1 (oddKeysState tt)
              (rev (map_to_list (delete (JS.String_ 1)
                                   (historyStore (oddKeysState tt : State0)))))
              ltac:(lia) (oddKeysState_keysReadSafely _ _ _ _ tt)
              (Permutation_sym (Permutation_rev _))) as (_ & Hdrop & _).
  by apply Hdrop.
Defined.

Lemma ensure_then_add_is_add_witness :
  ∃ state1 : State0,
    ensureEventHistory 5 0 (freshState tt) = JS.Ok state1 ∧
    addEventHistoryVersion 6 7 0 (actionEvent "go east") edit state1
    = addEventHistoryVersion 5 7 0 (actionEvent "go east") edit (freshState tt).
Proof.
  exact (ensure_then_add_is_add unit unit unit unit 5 6 7 0 (actionEvent "go east") edit
           (freshState tt)).
Defined.

Lemma add_then_delete_last_witness :
  consistent (latestState tt : State0) ∧
  ∃ state1 : State0,
    addEventHistoryVersion 40 50 1 (actionEvent "fly") edit (latestState tt) = JS.Ok state1 ∧
    deleteEventHistoryVersion 1 3 state1 = JS.Ok (latestState tt).
Proof.
  split; [apply latestState_consistent|].
  assert (Hh : historyAt (latestState tt : State0) 1 = Some _) by reflexivity.
  destruct (add_then_delete_last unit unit unit unit 40 50 1 (actionEvent "fly") edit
              (latestState tt) _ _ ltac:(lia) Hh eq_refl)
    as (state1 & state2 & Hadd & Hdel & _ & _ & Hback).
  exists state1. split; [exact Hadd|].
  rewrite <- (Hback (latestState_consistent _ _ _ _ tt) eq_refl). exact Hdel.
Defined.

Lemma pages_partition_the_entries_witness :
  ∃ pageCount,
    getEventHistoryPageCount 0 5 (versionedState tt 12 11 : State0) = JS.Finite pageCount ∧
    concat ((λ page : nat, getEventHistoryPage 0 (Z.of_nat page) 5
                             (versionedState tt 12 11 : State0))
              <$> seq 0 (Z.to_nat pageCount))
    = versions 12.
Proof.
  assert (Hh : historyAt (versionedState tt 12 11 : State0) 0 = Some _) by reflexivity.
  destruct (pages_partition_the_entries unit unit unit unit 0 5 (versionedState tt 12 11) _
              ltac:(lia) Hh) as (pageCount & Hcount & _ & Hall).
  exists pageCount. by split.
Defined.

Lemma page_size_and_page_count_agree_witness :
  Z.of_nat (length (getEventHistoryPage 0 2 5 (versionedState tt 12 11 : State0))) = 2 ∧
  getEventHistoryPage 0 2 5 (versionedState tt 12 11 : State0) ≠ [].
Proof.
  assert (Hh : historyAt (versionedState tt 12 11 : State0) 0 = Some _) by reflexivity.
  destruct (page_size_and_page_count_agree unit unit unit unit 0 2 5
              (versionedState tt 12 11) _ ltac:(lia) ltac:(lia) Hh) as [Hlen Hiff].
  split; [rewrite Hlen; reflexivity|]. by apply Hiff.
Defined.

Lemma viewer_restores_the_row_clicked_witness :
  ∃ state' : State0,
    handleSelectVersion 1 0 0 (editedState tt) = JS.Ok state' ∧
    JS.read (events state') 1 = Some (actionEvent "go west").
Proof.
  destruct (viewer_restores_the_row_clicked unit unit unit unit 1 0 0 (editedState tt) _
              ltac:(lia) ltac:(lia) eq_refl)
    as (state' & _ & _ & Hrun & _ & _ & _ & _ & _ & Hread).
  exists state'. by split.
Defined.

Lemma viewer_delete_keeps_a_shown_page_witness :
  ∃ (page' : Z) (state' : State0),
    handleDeleteVersion 0 1 0 (versionedState tt 6 5) = JS.Ok (page', state') ∧
    pageShown 0 page' state'.
Proof.
  destruct (viewer_delete_keeps_a_shown_page unit unit unit unit 0 1 0
              (versionedState tt 6 5) _ ltac:(lia) eq_refl)
    as (page' & state' & _ & _ & Hrun & _ & _ & _ & Hshown & _).
  exists page', state'. split; [exact Hrun|exact Hshown].
Defined.

Lemma viewer_paging_stays_on_shown_pages_witness :
  ∃ state1 state2 : State0,
    handlePrevious 0 1 (versionedState tt 12 11) = JS.Ok (0, state1) ∧
    handleNext 0 1 (versionedState tt 12 11) = JS.Ok (2, state2) ∧
    pageShown 0 2 state2.
Proof.
  assert (Hh : historyAt (versionedState tt 12 11 : State0) 0 = Some _) by reflexivity.
  destruct (viewer_paging_stays_on_shown_pages unit unit unit unit 0 1
              (versionedState tt 12 11) _ Hh ltac:(lia) ltac:(reflexivity))
    as ((p1 & s1 & Hprev & -> & _) & (p2 & s2 & Hnext & -> & Hshown & _) & _).
  exists s1, s2. split; [exact Hprev|]. split; [exact Hnext|exact Hshown].
Defined.

Lemma viewer_marks_exactly_the_current_version_witness :
  isCurrent ({| entries := versions 12; currentVersionIndex := 11 |}
             : EventHistory unit unit unit) 2 1 = true ∧
  ∀ page row, 0 <= row < 5 →
    isCurrent ({| entries := versions 12; currentVersionIndex := 11 |}
               : EventHistory unit unit unit) page row = true →
    page = 2 ∧ row = 1.
Proof.
  assert (Hh : historyAt (versionedState tt 12 11 : State0) 0 = Some _) by reflexivity.
  destruct (viewer_marks_exactly_the_current_version unit unit unit unit 0
              (versionedState tt 12 11) _ Hh ltac:(unfold versionInRange; cbn; lia))
    as (Hmark & _ & Hunique).
  split; [exact Hmark|exact Hunique].
Defined.

Lemma delete_button_iff_row_can_be_deleted_witness :
  deleteEventHistoryVersion 1 0 (editedState tt : State0) ≠ JS.Ok (editedState tt).
Proof.
  assert (Hh : historyAt (editedState tt : State0) 1 = Some _) by reflexivity.
  apply (delete_button_iff_row_can_be_deleted unit unit unit unit 1 0 (editedState tt) _ Hh);
    [cbn; lia|reflexivity].
Defined.

Lemma operations_keep_the_log_dense_witness :
  consistent (editedState tt : State0) ∧ dense (editedState tt : State0) ∧
  ∃ state' : State0,
    perform (AddVersion 40 50 1 (actionEvent "fly") edit) (editedState tt) = JS.Ok state' ∧
    dense state' ∧ length (events state') = 3%nat.
Proof.
  split; [apply editedState_consistent|]. split; [apply editedState_dense|].
  eexists. split; [reflexivity|].
  destruct (operations_keep_the_log_dense unit unit unit unit
              (AddVersion 40 50 1 (actionEvent "fly") edit) (editedState tt) _
              (editedState_consistent _ _ _ _ tt) (editedState_dense _ _ _ _ tt) eq_refl)
    as [Hdense Hlen].
  split; [exact Hdense|]. by rewrite Hlen.
Defined.

Lemma deleteEvent_loop_order_is_irrelevant_witness :
  ∃ state' : State0,
    deleteEvent 2 (sparseState tt) = JS.Ok state' ∧
    historyStore state' =
      rekeyLoop 2 (rev (map_to_list (delete (JS.String_ 2)
                                       (historyStore (sparseState tt : State0))))).
Proof.
  apply (deleteEvent_loop_order_is_irrelevant unit unit unit unit 2 (sparseState tt));
    [lia|apply sparseState_keysArePositions|].
  symmetry. apply Permutation_rev.
Defined.

Lemma handleSave_stores_one_trimmed_edit_witness :
  ∃ state' : State0,
    handleSave 5 6 7 "  go east " {| action := "go north" |} (Some 0) (freshState tt)
      = JS.Ok state' ∧
    JS.read (events state') 0 = Some (actionEvent "go east") ∧
    handleSave 8 9 10 "  go east " {| action := "go east" |} (Some 0) state' = JS.Ok state'.
Proof.
  destruct (handleSave_stores_one_trimmed_edit unit unit unit unit 5 6 7 "  go east "
              {| action := "go north" |} (Some 0) (freshState tt)) as [_ Hedit].
  destruct (Hedit 0 eq_refl ltac:(discriminate) ltac:(discriminate)) as [_ Hlog].
  destruct (Hlog eq_refl) as (state' & history' & Hrun & Hread & _ & _ & Hagain).
  exists state'. split; [exact Hrun|]. split; [exact Hread|]. apply Hagain.
Defined.

Lemma handleShowHistory_only_starts_a_missing_history_witness :
  handleShowHistory 5 (Some 1) (editedState tt : State0) = JS.Ok (editedState tt).
Proof.
  destruct (handleShowHistory_only_starts_a_missing_history unit unit unit unit 5 (Some 1)
              (editedState tt)) as (state' & Hrun & _ & _ & Hsame & _).
  rewrite Hrun. f_equal. by eapply Hsame.
Defined.

Lemma deleteEvent_twice_in_either_order_witness :
  keysArePositions (sparseState tt : State0) ∧ 0 <= 1 < 4 ∧
  ∃ state1 state2 state3 : State0,
    deleteEvent 4 (sparseState tt) = JS.Ok state1 ∧
    deleteEvent 1 state1 = JS.Ok state2 ∧
    deleteEvent 1 (sparseState tt) = JS.Ok state3 ∧
    deleteEvent 3 state3 = JS.Ok state2.
Proof.
  split; [apply sparseState_keysArePositions|]. split; [lia|].
  apply (deleteEvent_twice_in_either_order unit unit unit unit 4 1 (sparseState tt));
    [apply sparseState_keysArePositions|lia].
Defined.

Lemma handlers_keep_the_store_consistent_witness :
  consistent (editedState tt : State0) ∧
  ∃ (page' : Z) (state' : State0),
    handleDeleteVersion 1 0 1 (editedState tt) = JS.Ok (page', state') ∧
    consistent state'.
Proof.
  split; [apply editedState_consistent|].
  destruct (handlers_keep_the_store_consistent unit unit unit unit (editedState tt)
              (editedState_consistent _ _ _ _ tt)) as (_ & _ & _ & _ & Hdel & _).
  apply Hdel.
Defined.

(** ** Further examples, computed *)

(** The keys ["draft"], ["3px"] and ["01"] with [deleteEvent(1)]: the word
    is dropped, ["01"] reads as the deleted position and is dropped, and
    ["3px"] reads as 3 and moves to ["2"]. *)
Example deleteEvent_odd_keys_example :
  ∃ state' : State0,
    deleteEvent 1 (oddKeysState tt) = JS.Ok state' ∧
    dom (historyStore state') = {["2"]} ∧
    historyStore state' !! "2" = historyStore (oddKeysState tt : State0) !! "3px".
Proof. eexists. by repeat split. Qed.

(** Six versions on two pages; deleting the only row of the second page
    moves the viewer to the first page and records it. *)
Example viewer_delete_last_row_example :
  ∃ state' : State0,
    handleDeleteVersion 0 1 0 (versionedState tt 6 5) = JS.Ok (0, state') ∧
    historyPagination state' =
      Some {| pg_eventIndex := 0; pg_page := 0; pg_pageSize := 5 |} ∧
    length (pageEntries 0 0 state') = 5%nat.
Proof. eexists. by repeat split. Qed.

Example trim_examples :
  JS.trim "  go east " = "go east" ∧ JS.trim "   " = "" ∧ JS.trim "a  b" = "a  b".
Proof. by repeat split. Qed.

(** White space of more than one byte is trimmed as well, at both ends and
    not inside; it is skipped in front of a number. *)
Example trim_unicode_examples :
  JS.trim (ideographicSpace +:+ noBreakSpace +:+ " go east" +:+ noBreakSpace +:+ " ")
    = "go east" ∧
  JS.trim (ideographicSpace +:+ noBreakSpace) = "" ∧
  JS.trim ("go" +:+ ideographicSpace +:+ "east") = "go" +:+ ideographicSpace +:+ "east" ∧
  JS.parseInt10 (noBreakSpace +:+ "12px") = Some 12.
Proof. by repeat split. Qed.

(** A text of such white space only, or the action shown with such white
    space around it, is not saved. *)
Example handleSave_unicode_white_space_example :
  handleSave 5 6 7 (ideographicSpace +:+ " " +:+ noBreakSpace) {| action := "go north" |}
    (Some 0) (freshState tt : State0) = JS.Ok (freshState tt) ∧
  handleSave 5 6 7 (noBreakSpace +:+ "go north" +:+ ideographicSpace)
    {| action := "go north" |} (Some 0) (freshState tt : State0) = JS.Ok (freshState tt).
Proof. by split. Qed.
